(** * MexicoEVData: the municipality graph builder

    A shallow embedding of [test.py] and
    [rawDataProcessing/initialDataProcessing.py]: the distance function
    [getDistanceBetweenMunicipalities], the superseded [Municipality.addEdge]
    with the edge-list driven [addEdgesToMunicipalities] of test.py, the
    serializer [municipalityDictSerializer], the nearest-neighbour
    selector [addEdgesToMunicipalitiesV2] (the same loop is called
    [addEdgesToMunicipalities] in initialDataProcessing.py), the functions
    that clean the raw files and mark the entities with a supercharger,
    the loaders, and the drawing of the map.

    Python objects are mutable and shared; the selector keeps the entities
    in one list and mutates them through references, so the model threads
    the whole list (the object store, an entity's identity being its index)
    through every step.  Exceptions are the [Raise] results of a small error
    monad.  Python floats are IEEE binary64 numbers, here the [spec_float]
    of the standard library at precision 53.  Files are the values read
    from them and written to them. *)

From Stdlib Require Import ZArith Bool Lia Ascii.
From Stdlib Require Import Floats.SpecFloat.
From stdpp Require Import base tactics option list sorting gmap strings.

(** ** Exceptions *)

Inductive exn : Set :=
  | TypeError | KeyError | ValueError | IndexError | AttributeError
  | OverflowError.

Inductive result (A : Type) : Type :=
  | Ok (a : A)
  | Raise (e : exn).
Arguments Ok {A} a.
Arguments Raise {A} e.

#[export] Instance result_ret : MRet result := @Ok.
#[export] Instance result_bind : MBind result := fun A B f m =>
  match m with Ok a => f a | Raise e => Raise e end.
#[export] Instance result_fmap : FMap result := fun A B f m =>
  match m with Ok a => Ok (f a) | Raise e => Raise e end.

Definition is_Ok {A} (r : result A) : Prop := exists a, r = Ok a.

(** [l[i]] for a non-negative index. *)
Definition getitem {A} (l : list A) (i : nat) : result A :=
  match l !! i with Some x => Ok x | None => Raise IndexError end.

(** ** Floats *)

Module Float.

Definition float : Type := spec_float.
Definition prec : Z := 53.
Definition emax : Z := 1024.

Definition add : float -> float -> float := SFadd prec emax.
Definition sub : float -> float -> float := SFsub prec emax.
Definition mul : float -> float -> float := SFmul prec emax.
Definition div : float -> float -> float := SFdiv prec emax.
Definition opp : float -> float := SFopp.
Definition abs : float -> float := SFabs.
Definition ltb : float -> float -> bool := SFltb.
Definition leb : float -> float -> bool := SFleb.
Definition eqb : float -> float -> bool := SFeqb.

Definition is_nan (x : float) : bool :=
  match x with S754_nan => true | _ => false end.

(** The float of an [int]; exact below 2^53, which covers every integer
    of the program. *)
Definition of_Z (z : Z) : float := binary_normalize prec emax z 0 false.

(** A decimal literal [n / 10^k], rounded to nearest as the Python
    parser does. *)
Definition decimal (n : Z) (k : nat) : float := div (of_Z n) (of_Z (10 ^ Z.of_nat k)).

(** [int / int]: true division. *)
Definition int_truediv (a b : Z) : float := div (of_Z a) (of_Z b).

(** [bool(x)] of a float: zero of either sign is falsy, NaN is truthy. *)
Definition truthy (x : float) : bool :=
  match x with S754_zero _ => false | _ => true end.

End Float.

Abbreviation float := Float.float.

(** ** heapq

    [heapq.py] of the Python standard library, over a list used as an
    array.  The comparison [lt] is the [<] of the items, which may raise. *)

Section heapq.
Context {A : Type} (lt : A -> A -> result bool).

(** The [while pos > startpos] loop of [_siftdown].  [pos] strictly
    decreases, so [fuel = pos] iterations are always enough; when the
    fuel is gone [pos] is [0] and the loop has ended by itself. *)
Fixpoint _siftdown_loop (fuel : nat) (heap : list A) (startpos pos : nat)
    (newitem : A) : result (list A) :=
  match fuel with
  | O => Ok (<[pos := newitem]> heap)
  | S fuel' =>
      if decide (startpos < pos) then
        let parentpos := (pos - 1) / 2 in
        parent ← getitem heap parentpos;
        b ← lt newitem parent;
        if b : bool
        then _siftdown_loop fuel' (<[pos := parent]> heap) startpos parentpos newitem
        else Ok (<[pos := newitem]> heap)
      else Ok (<[pos := newitem]> heap)
  end.

Definition _siftdown (heap : list A) (startpos pos : nat) : result (list A) :=
  newitem ← getitem heap pos;
  _siftdown_loop pos heap startpos pos newitem.

(** The [while childpos < endpos] loop of [_siftup]; it returns the heap
    and the position of the leaf it stopped at.  [pos] strictly
    increases and stays below [endpos]. *)
Fixpoint _siftup_loop (fuel : nat) (heap : list A) (endpos pos : nat)
    : result (list A * nat) :=
  match fuel with
  | O => Ok (heap, pos)
  | S fuel' =>
      let childpos := 2 * pos + 1 in
      if decide (childpos < endpos) then
        let rightpos := childpos + 1 in
        childpos' ←
          (if decide (rightpos < endpos) then
             c ← getitem heap childpos;
             r ← getitem heap rightpos;
             b ← lt c r;
             Ok (if b : bool then childpos else rightpos)
           else Ok childpos);
        child ← getitem heap childpos';
        _siftup_loop fuel' (<[pos := child]> heap) endpos childpos'
      else Ok (heap, pos)
  end.

Definition _siftup (heap : list A) (pos : nat) : result (list A) :=
  let endpos := length heap in
  let startpos := pos in
  newitem ← getitem heap pos;
  '(heap', pos') ← _siftup_loop endpos heap endpos pos;
  _siftdown (<[pos' := newitem]> heap') startpos pos'.

Definition heappush (heap : list A) (item : A) : result (list A) :=
  let heap := heap ++ [item] in
  _siftdown heap 0 (length heap - 1).

(** [heappop] returns the popped item and the heap left. *)
Definition heappop (heap : list A) : result (A * list A) :=
  lastelt ← getitem heap (length heap - 1);
  let heap := take (length heap - 1) heap in
  match heap with
  | [] => Ok (lastelt, heap)
  | returnitem :: _ =>
      heap' ← _siftup (<[0 := lastelt]> heap) 0;
      Ok (returnitem, heap')
  end.

End heapq.

(** ** Data model *)

Definition MAX_EDGES : nat := 10.
Definition MAX_DISTANCE : Z := 100.

Record MunicipalityEdge : Type := {
  fromMuniCode : string;
  toMuniCode : string;
  distance : float
}.

(** [MunicipalityEdge.__lt__] *)
Definition MunicipalityEdge_lt (self other : MunicipalityEdge) : result bool :=
  Ok (Float.ltb (distance self) (distance other)).

Definition setEdgeDistance (self : MunicipalityEdge) (d : float) : MunicipalityEdge :=
  if negb (Float.truthy (distance self))
  then {| fromMuniCode := fromMuniCode self; toMuniCode := toMuniCode self; distance := d |}
  else self.

(** The attributes of a [Municipality] object.  [_neighbors] is [None] once
    the attribute has been deleted from the object. *)
Record Municipality : Type := {
  name : string;
  state : string;
  code : string;
  lat : float;
  lon : float;
  hasSupercharger : bool;
  _neighbors : option (gset string);
  edges : list MunicipalityEdge
}.

(** [Municipality.__init__] *)
Definition Municipality_init (name state code : string) (lat lon : float)
    (hasSupercharger : bool) (edges : list MunicipalityEdge) : Municipality :=
  {| name := name; state := state; code := code; lat := lat; lon := lon;
     hasSupercharger := hasSupercharger;
     _neighbors := Some (list_to_set (toMuniCode <$> edges));
     edges := edges |}.

Definition set_edges (m : Municipality) (es : list MunicipalityEdge) : Municipality :=
  {| name := name m; state := state m; code := code m; lat := lat m; lon := lon m;
     hasSupercharger := hasSupercharger m; _neighbors := _neighbors m; edges := es |}.

Definition set_neighbors (m : Municipality) (s : option (gset string)) : Municipality :=
  {| name := name m; state := state m; code := code m; lat := lat m; lon := lon m;
     hasSupercharger := hasSupercharger m; _neighbors := s; edges := edges m |}.

(** Reading [m._neighbors]. *)
Definition get_neighbors (m : Municipality) : result (gset string) :=
  match _neighbors m with Some s => Ok s | None => Raise AttributeError end.

(** ** The distance function *)

Section Haversine.
(** The functions of the C library behind [math.sin], [math.cos],
    [math.atan2] and [float.__pow__].  [math.sin] and [math.cos] raise
    ValueError at an infinity and [**] raises OverflowError: [None]
    stands for that one exception. *)
Variables math_sin math_cos : float -> option float.
Variable math_atan2 : float -> float -> float.
Variable float_pow : float -> float -> option float.

Definition or_raise {A} (e : exn) (o : option A) : result A :=
  match o with Some a => Ok a | None => Raise e end.

(** [math.pi], 0x1.921fb54442d18p+1 *)
Definition math_pi : float := S754_finite false 7074237752028440 (-51).

(** [math.radians(x)] is [x * (pi / 180.0)]. *)
Definition math_radians (x : float) : float :=
  Float.mul x (Float.div math_pi (Float.of_Z 180)).

Definition math_sqrt (x : float) : result float :=
  if Float.ltb x (Float.of_Z 0) then Raise ValueError
  else Ok (SFsqrt Float.prec Float.emax x).

(** Lines 258-269 of [getDistanceBetweenMunicipalities], on the
    coordinates of the two entities. *)
Definition haversine (lat1 lon1 lat2 lon2 : float) : result float :=
  let R := Float.of_Z 6371 in
  let dLat := math_radians (Float.sub lat2 lat1) in
  let dLon := math_radians (Float.sub lon2 lon1) in
  let lat1 := math_radians lat1 in
  let lat2 := math_radians lat2 in
  sLat ← or_raise ValueError (math_sin (Float.div dLat (Float.of_Z 2)));
  sLat2 ← or_raise OverflowError (float_pow sLat (Float.of_Z 2));
  cos1 ← or_raise ValueError (math_cos lat1);
  cos2 ← or_raise ValueError (math_cos lat2);
  sLon ← or_raise ValueError (math_sin (Float.div dLon (Float.of_Z 2)));
  sLon2 ← or_raise OverflowError (float_pow sLon (Float.of_Z 2));
  let a := Float.add sLat2 (Float.mul (Float.mul cos1 cos2) sLon2) in
  ra ← math_sqrt a;
  rb ← math_sqrt (Float.sub (Float.of_Z 1) a);
  let c := Float.mul (Float.of_Z 2) (math_atan2 ra rb) in
  let distance := Float.mul R c in
  Ok (Float.div distance (Float.decimal 1609 3)).

End Haversine.

(** ** The serializer *)

(** The objects [json.dump] hands to its [default] hook. *)
Inductive pyobj : Type :=
  | PyMunicipality (m : Municipality)
  | PyMunicipalityEdge (e : MunicipalityEdge)
  | PyOther.

(** The function returns [obj.__dict__], the attribute table of the live
    object, after deleting a key from it: the value returned is the state
    the object is left in. *)
Definition municipalityDictSerializer (obj : pyobj) : result pyobj :=
  match obj with
  | PyMunicipality m =>
      match _neighbors m with
      | Some _ => Ok (PyMunicipality (set_neighbors m None))
      | None => Raise KeyError
      end
  | PyMunicipalityEdge e => Ok (PyMunicipalityEdge e)
  | PyOther => Raise TypeError
  end.

Fixpoint dump_edges (es : list MunicipalityEdge) : result unit :=
  match es with
  | [] => Ok ()
  | e :: es' => _ ← municipalityDictSerializer (PyMunicipalityEdge e); dump_edges es'
  end.

(** [json.dump(codeToMunicipality, file, default=municipalityDictSerializer)]
    on the values of the mapping: every entity goes through the hook once,
    then its edges do.  The text written is not modelled; the result is the
    entities as the call leaves them. *)
Fixpoint json_dump (values : list Municipality) : result (list Municipality) :=
  match values with
  | [] => Ok []
  | m :: rest =>
      d ← municipalityDictSerializer (PyMunicipality m);
      match d with
      | PyMunicipality m' =>
          _ ← dump_edges (edges m');
          rest' ← json_dump rest;
          Ok (m' :: rest')
      | _ => Raise TypeError
      end
  end.

(** ** The superseded edge heap: [Municipality.addEdge] *)

Definition startswith (s prefix : string) : bool := String.prefix prefix s.

Definition isValidDistance (edge : MunicipalityEdge) : bool :=
  Float.ltb (distance edge) (Float.of_Z MAX_DISTANCE)
  || ((startswith (fromMuniCode edge) "09" || startswith (toMuniCode edge) "09")
      && Float.ltb (distance edge) (Float.of_Z (2 * MAX_DISTANCE))).

Definition addEdge (self : Municipality) (edge : MunicipalityEdge) : result Municipality :=
  push_it ←
    (if isValidDistance edge then
       if decide (length (edges self) < MAX_EDGES) then Ok true
       else e0 ← getitem (edges self) 0;
            Ok (Float.ltb (distance e0) (distance edge))
     else Ok false);
  if push_it : bool then
    h ← heappush MunicipalityEdge_lt (edges self) edge;
    if decide (MAX_EDGES < length h) then
      '(_, h') ← heappop MunicipalityEdge_lt h;
      Ok (set_edges self h')
    else Ok (set_edges self h)
  else Ok self.

(** ** The graph builders *)

Section Builders.
(** The numeric kernel of the distance function.  The program uses
    [haversine] over the C library; the builders only compare its
    results, so they are stated over any kernel. *)
Variable kernel : float -> float -> float -> float -> result float.

(** [getDistanceBetweenMunicipalities]; the [lru_cache] around it only
    saves work, the result is a function of the four coordinates. *)
Definition getDistanceBetweenMunicipalities (muni1 muni2 : Municipality) : result float :=
  let '(lat1, lon1) := (lat muni1, lon muni1) in
  let '(lat2, lon2) := (lat muni2, lon muni2) in
  kernel lat1 lon1 lat2 lon2.

(** *** The canonical selector, [addEdgesToMunicipalitiesV2] *)

(** [<] on the heap items [(distance, muni2)].  Tuples are compared at
    the first position where they differ by [==]; [muni2] is a reference,
    here the index of the entity, and [Municipality] defines neither
    [__eq__] nor [__lt__]: two entities are equal only when they are the
    same object, and ordering them raises TypeError. *)
Definition candidate_lt (x y : float * nat) : result bool :=
  if Float.eqb x.1 y.1 then
    if decide (x.2 = y.2) then Ok false else Raise TypeError
  else Ok (Float.ltb x.1 y.1).

(** The inner [for j in range(len(codeToMunicipalityValues))] loop. *)
Fixpoint gather (values : list Municipality) (i : nat) (muni1 : Municipality)
    (js : list nat) (closenessHeap : list (float * nat)) : result (list (float * nat)) :=
  match js with
  | [] => Ok closenessHeap
  | j :: js' =>
      if decide (i = j) then gather values i muni1 js' closenessHeap
      else
        muni2 ← getitem values j;
        seen ← get_neighbors muni1;
        if decide (code muni2 ∈ seen) then gather values i muni1 js' closenessHeap
        else
          distance ← getDistanceBetweenMunicipalities muni1 muni2;
          closenessHeap' ← heappush candidate_lt closenessHeap (distance, j);
          gather values i muni1 js' closenessHeap'
  end.

(** The test of line 373; [true] is the [break]. *)
Definition gate_breaks (j : nat) (distance : float) : bool :=
  ((j <? 3)%nat && Float.ltb (Float.int_truediv MAX_DISTANCE (2 ^ Z.of_nat j)) distance)
  || ((3 <=? j)%nat && Float.ltb (Float.int_truediv MAX_DISTANCE (3 ^ Z.of_nat j)) distance).

(** Lines 375-381: the two edges and the two neighbour sets. *)
Definition link (values : list Municipality) (i k : nat) (distance : float)
    : result (list Municipality) :=
  muni1 ← getitem values i;
  muni2 ← getitem values k;
  let edgeToMuni2 :=
    {| fromMuniCode := code muni1; toMuniCode := code muni2; distance := distance |} in
  let edgeToMuni1 :=
    {| fromMuniCode := code muni2; toMuniCode := code muni1; distance := distance |} in
  seen1 ← get_neighbors muni1;
  let values :=
    <[i := set_neighbors (set_edges muni1 (edges muni1 ++ [edgeToMuni2]))
                         (Some (seen1 ∪ {[code muni2]}))]> values in
  muni2 ← getitem values k;
  seen2 ← get_neighbors muni2;
  Ok (<[k := set_neighbors (set_edges muni2 (edges muni2 ++ [edgeToMuni1]))
                           (Some (seen2 ∪ {[code muni1]}))]> values).

(** The [for j in range(MAX_EDGES)] loop. *)
Fixpoint accept (values : list Municipality) (i : nat) (js : list nat)
    (closenessHeap : list (float * nat)) : result (list Municipality) :=
  match js with
  | [] => Ok values
  | j :: js' =>
      match closenessHeap with
      | [] => Ok values
      | _ =>
          '((distance, k), closenessHeap') ← heappop candidate_lt closenessHeap;
          if gate_breaks j distance then Ok values
          else
            values' ← link values i k distance;
            accept values' i js' closenessHeap'
      end
  end.

(** One turn of the outer loop: the round of entity [i]. *)
Definition round (values : list Municipality) (i : nat) : result (list Municipality) :=
  muni1 ← getitem values i;
  closenessHeap ← gather values i muni1 (seq 0 (length values)) [];
  accept values i (seq 0 MAX_EDGES) closenessHeap.

Fixpoint rounds (values : list Municipality) (order : list nat) : result (list Municipality) :=
  match order with
  | [] => Ok values
  | i :: order' => values' ← round values i; rounds values' order'
  end.

(** The argument is [list(codeToMunicipality.values())], the entities in
    the order of the mapping; the result is the same list as the call
    leaves it, each entity under its key. *)
Definition addEdgesToMunicipalitiesV2 (codeToMunicipalityValues : list Municipality)
    : result (list Municipality) :=
  values ← rounds codeToMunicipalityValues (seq 0 (length codeToMunicipalityValues));
  json_dump values.

(** *** The edge-list driven builder, [addEdgesToMunicipalities] of test.py *)

Definition dict_getitem (d : gmap string Municipality) (k : string) : result Municipality :=
  match d !! k with Some m => Ok m | None => Raise KeyError end.

(** [Municipality("Ciudad de México", "Ciudad de México", "09001",
    19.4326, -99.1332, True)]; a string is the UTF-8 encoding of the
    Python [str], so the letter U+00E9 is the two bytes 195 and 169. *)
Definition mexicoCity : Municipality :=
  Municipality_init "Ciudad de México" "Ciudad de México" "09001"
    (Float.decimal 194326 4) (Float.opp (Float.decimal 991332 4)) true [].

Definition accountForMexicoCity (codeToMunicipality : gmap string Municipality)
    : gmap string Municipality :=
  <["09001" := mexicoCity]> codeToMunicipality.

(** [edges.sort(key=lambda x: x.distance, reverse=True)]: decreasing
    distances, edges of equal distance in their original order.  This
    is the one result of a stable sort when no distance is NaN; what
    [list.sort] leaves when a key is NaN depends on the comparisons its
    merge strategy makes and is not modelled. *)
Fixpoint insert_desc (e : MunicipalityEdge) (l : list MunicipalityEdge) : list MunicipalityEdge :=
  match l with
  | [] => [e]
  | x :: l' =>
      if Float.ltb (distance e) (distance x) then x :: insert_desc e l' else e :: l
  end.

Definition sort_desc (l : list MunicipalityEdge) : list MunicipalityEdge :=
  foldr insert_desc [] l.

Fixpoint addEdges_loop (codesToMunicipalities : gmap string Municipality)
    (edges : list MunicipalityEdge) : result (gmap string Municipality) :=
  match edges with
  | [] => Ok codesToMunicipalities
  | edge :: rest =>
      fromMuni ← dict_getitem codesToMunicipalities (fromMuniCode edge);
      toMuni ← dict_getitem codesToMunicipalities (toMuniCode edge);
      d ← getDistanceBetweenMunicipalities fromMuni toMuni;
      let edge := setEdgeDistance edge d in
      fromMuni' ← addEdge fromMuni edge;
      addEdges_loop (<[fromMuniCode edge := fromMuni']> codesToMunicipalities) rest
  end.

(** The arguments are what [getMunicipalityCodeToSuperchargerStatus] and
    [loadCleanIntermunicipal] read from their files. *)
Definition addEdgesToMunicipalities (codeToMunicipality : gmap string Municipality)
    (edges : list MunicipalityEdge) : result (gmap string Municipality) :=
  let codesToMunicipalities := accountForMexicoCity codeToMunicipality in
  addEdges_loop codesToMunicipalities (sort_desc edges).

End Builders.

(** ** Dictionaries

    A Python [dict] keeps its keys in insertion order, and the order of
    [codeToMunicipality.values()] is the order the selector visits the
    entities in: where that matters a dictionary is the list of its items,
    every key once. *)

Definition dict (V : Type) : Type := list (string * V).

Fixpoint dict_get {V} (d : dict V) (k : string) : option V :=
  match d with
  | [] => None
  | (k', v) :: d' => if decide (k' = k) then Some v else dict_get d' k
  end.

(** [d[k]] *)
Definition dict_item {V} (d : dict V) (k : string) : result V :=
  match dict_get d k with Some v => Ok v | None => Raise KeyError end.

(** [d[k] = v]: a key already there keeps its place. *)
Fixpoint dict_setitem {V} (d : dict V) (k : string) (v : V) : dict V :=
  match d with
  | [] => [(k, v)]
  | (k', v') :: d' =>
      if decide (k' = k) then (k, v) :: d' else (k', v') :: dict_setitem d' k v
  end.

Definition dict_keys {V} (d : dict V) : list string := d.*1.
Definition dict_values {V} (d : dict V) : list V := d.*2.

(** ** Cleaning the raw files *)

(** The loop of [getMunicipalities]: [del municipality['geo_shape']] on
    every object of the JSON array; an object is the finite map of its
    keys. *)
Fixpoint getMunicipalities {V} (municipalities : list (gmap string V))
    : result (list (gmap string V)) :=
  match municipalities with
  | [] => Ok []
  | municipality :: rest =>
      match municipality !! "geo_shape" with
      | None => Raise KeyError
      | Some _ =>
          rest' ← getMunicipalities rest;
          Ok (delete "geo_shape" municipality :: rest')
      end
  end.

(** *** csv

    A file as [csv.reader] reads it: the list of its rows, a row the list
    of its cells and [[]] for an empty line. *)

(** The values of the dictionary [csv.DictReader] makes of a row: a cell,
    [None] under a field name the row is too short for, and the list of
    the cells beyond the field names, which is filed under the key
    [None]. *)
Inductive field : Type :=
  | Cell (s : string)
  | NoCell
  | Rest (cells : list string).

#[export] Instance field_eq_dec : EqDecision field.
Proof. solve_decision. Defined.

(** A row of the reader: [Some key] is the field name [key], [None] the
    key [None]. *)
Abbreviation csv_row := (gmap (option string) field).

(** [dict(zip(fieldnames, row))], a later cell under the same name
    replacing an earlier one, then the cells left over or the names left
    over. *)
Definition DictReader_row (fieldnames row : list string) : csv_row :=
  let d := foldl (fun d item => <[Some item.1 := Cell item.2]> d) ∅ (zip fieldnames row) in
  let lf := length fieldnames in
  let lr := length row in
  if decide (lf < lr) then <[None := Rest (drop lf row)]> d
  else foldl (fun d key => <[Some key := NoCell]> d) d (drop lr fieldnames).

(** [reader.fieldnames]: the first row read, [None] for an empty file. *)
Definition DictReader_fieldnames (file : list (list string)) : option (list string) :=
  head file.

(** The rows [csv.DictReader(file)] yields: the rows after the first, the
    empty ones skipped. *)
Definition DictReader (file : list (list string)) : list csv_row :=
  match file with
  | [] => []
  | fieldnames :: rows => DictReader_row fieldnames <$> filter (fun row => row <> []) rows
  end.

(** [row[key]] *)
Definition row_item (row : csv_row) (key : string) : result field :=
  match row !! Some key with Some value => Ok value | None => Raise KeyError end.

(** The loop of [getMexicoSuperchargerLocations] over the rows of the
    reader. *)
Fixpoint mexico_rows (reader : list csv_row) : result (list csv_row) :=
  match reader with
  | [] => Ok []
  | row :: rest =>
      country ← row_item row "Country";
      mexicoSuperchargers ← mexico_rows rest;
      Ok (if decide (country = Cell "Mexico") then row :: mexicoSuperchargers
          else mexicoSuperchargers)
  end.

Definition getMexicoSuperchargerLocations (file : list (list string)) : result (list csv_row) :=
  mexico_rows (DictReader file).

(** [s.replace('.', '0')] *)
Fixpoint replace_dot (s : string) : string :=
  match s with
  | EmptyString => EmptyString
  | String c s' =>
      String (if decide (c = "."%char) then "0"%char else c) (replace_dot s')
  end.

(** [value.replace('.', '0')] on a value of a row: [None] has no such
    attribute. *)
Definition field_replace_dot (value : field) : result string :=
  match value with
  | Cell s => Ok (replace_dot s)
  | NoCell | Rest _ => Raise AttributeError
  end.

(** [csv.DictWriter.writerow]: ValueError for a row with a key that is no
    field name; the row written has the values in the order of the field
    names, the empty string for a name that is no key and for [None]. *)
Definition DictWriter_writerow (fieldnames : list string) (rowdict : csv_row)
    : result (list string) :=
  if decide (dom rowdict ⊆ list_to_set (Some <$> fieldnames)) then
    Ok ((fun key => match rowdict !! Some key with Some (Cell s) => s | _ => "" end)
          <$> fieldnames)
  else Raise ValueError.

(** The body of the loop of [cleanIntramunicipal], the result being the
    row written. *)
Definition cleanIntramunicipal_row (headers : list string) (row : csv_row)
    : result (list string) :=
  from ← row_item row "from";
  from ← field_replace_dot from;
  let row := <[Some "from" := Cell from]> row in
  to ← row_item row "to";
  to ← field_replace_dot to;
  let row := <[Some "to" := Cell to]> row in
  let row := delete (Some "date") row in
  DictWriter_writerow headers row.

Fixpoint cleanIntramunicipal_rows (headers : list string) (reader : list csv_row)
    : result (list (list string)) :=
  match reader with
  | [] => Ok []
  | row :: rest =>
      written ← cleanIntramunicipal_row headers row;
      rest' ← cleanIntramunicipal_rows headers rest;
      Ok (written :: rest')
  end.

(** [cleanIntramunicipal], from the rows of the file read to the rows of
    the file written when the call returns; iterating over the field
    names of an empty file, which are [None], raises TypeError. *)
Definition cleanIntramunicipal (file : list (list string)) : result (list (list string)) :=
  match DictReader_fieldnames file with
  | None => Raise TypeError
  | Some fieldnames =>
      let headers := filter (fun field => field <> "date") fieldnames in
      rows ← cleanIntramunicipal_rows headers (DictReader file);
      Ok (headers :: rows)
  end.

(** ** Entities and superchargers *)

(** An object of cleanMunicipalities.json, with the keys the program
    reads. *)
Record MunicipalityRecord : Type := {
  sta_name : list string;
  mun_name : list string;
  mun_code : list string;
  geo_point_2d : float * float
}.

(** A row of the superchargers file, with the columns the program
    reads. *)
Record SuperchargerRow : Type := {
  State : string;
  row_Municipality : string
}.

Definition set_hasSupercharger (m : Municipality) (b : bool) : Municipality :=
  {| name := name m; state := state m; code := code m; lat := lat m; lon := lon m;
     hasSupercharger := b; _neighbors := _neighbors m; edges := edges m |}.

Section Superchargers.
(** [s.encode('utf-8').decode('unicode-escape')]; it raises
    UnicodeDecodeError, a ValueError, on a malformed escape. *)
Variable unicode_escape : string -> result string.

(** The first loop of [saveMunicipalityCodesAndSuperchargerStatus]: the
    entities under ["state_name"], those of one name in a list. *)
Fixpoint group_by_name (nameToMunicipality : dict (list Municipality))
    (municipalities : list MunicipalityRecord) : result (dict (list Municipality)) :=
  match municipalities with
  | [] => Ok nameToMunicipality
  | municipality :: rest =>
      sta ← getitem (sta_name municipality) 0;
      mun ← getitem (mun_name municipality) 0;
      let dictLookup := sta +:+ "_" +:+ mun in
      c ← getitem (mun_code municipality) 0;
      let made :=
        Municipality_init mun sta c (geo_point_2d municipality).1
          (geo_point_2d municipality).2 false [] in
      match dict_get nameToMunicipality dictLookup with
      | Some muniArr =>
          group_by_name (dict_setitem nameToMunicipality dictLookup (muniArr ++ [made])) rest
      | None =>
          group_by_name (dict_setitem nameToMunicipality dictLookup [made]) rest
      end
  end.

(** The second loop: every entity under the decoded name of a
    supercharger is marked; a name that is no key is skipped. *)
Fixpoint mark_superchargers (nameToMunicipality : dict (list Municipality))
    (superchargers : list SuperchargerRow) : result (dict (list Municipality)) :=
  match superchargers with
  | [] => Ok nameToMunicipality
  | supercharger :: rest =>
      let escapedMunicipality := State supercharger +:+ "_" +:+ row_Municipality supercharger in
      decodedMunicipality ← unicode_escape escapedMunicipality;
      match dict_get nameToMunicipality decodedMunicipality with
      | None => mark_superchargers nameToMunicipality rest
      | Some muniArr =>
          let muniArr := (fun municipality => set_hasSupercharger municipality true) <$> muniArr in
          mark_superchargers (dict_setitem nameToMunicipality decodedMunicipality muniArr) rest
      end
  end.

(** The last loop: the entities under their codes. *)
Definition by_code (nameToMunicipality : dict (list Municipality)) : dict Municipality :=
  foldl (fun codeToMunicipality muniArr =>
           foldl (fun codeToMunicipality municipality =>
                    dict_setitem codeToMunicipality (code municipality) municipality)
                 codeToMunicipality muniArr)
        [] (dict_values nameToMunicipality).

(** The result is the content of the file written: every entity, as the
    serializer leaves it, under its code. *)
Definition saveMunicipalityCodesAndSuperchargerStatus
    (municipalities : list MunicipalityRecord) (superchargers : list SuperchargerRow)
    : result (dict Municipality) :=
  nameToMunicipality ← group_by_name [] municipalities;
  nameToMunicipality ← mark_superchargers nameToMunicipality superchargers;
  let codeToMunicipality := by_code nameToMunicipality in
  written ← json_dump (dict_values codeToMunicipality);
  Ok (zip (dict_keys codeToMunicipality) written).

End Superchargers.

(** The constructor called on the keys of an object read back from a
    file, as keyword arguments: they are the attributes the serializer
    wrote. *)
Definition Municipality_load (value : Municipality) : Municipality :=
  Municipality_init (name value) (state value) (code value) (lat value) (lon value)
    (hasSupercharger value) (edges value).

(** The comprehension over [obj.items()] that rebuilds every entity under
    its key, the body of [getMunicipalityCodeToSuperchargerStatus],
    [loadMunicipalitiesWithEdges] and [loadMunicipalitiesWithEdgesV2]. *)
Definition load_dict (obj : dict Municipality) : dict Municipality :=
  (fun item => (item.1, Municipality_load item.2)) <$> obj.

Definition getMunicipalityCodeToSuperchargerStatus := load_dict.
Definition loadMunicipalitiesWithEdges := load_dict.
Definition loadMunicipalitiesWithEdgesV2 := load_dict.

(** ** The map *)

(** What [testAndSaveToMap] adds to the folium map. *)
Inductive shape : Type :=
  | Marker (location : float * float) (popup : string)
  | PolyLine (a b : float * float).

(** [folium.utilities.validate_location], which [folium.Marker] calls on
    its location and [folium.PolyLine] on each of its points: a pair of
    floats is accepted unless one is NaN, which raises ValueError. *)
Definition validate_location (location : float * float) : result (float * float) :=
  if Float.is_nan location.1 || Float.is_nan location.2 then Raise ValueError
  else Ok location.

Definition totalEdges (munis : list Municipality) : nat :=
  foldl (fun totalEdges muni => totalEdges + length (edges muni)) 0 munis.

(** The inner loop: a line to every neighbour, [codeToMuni[edge.toMuniCode]]
    raising KeyError when the neighbour is no key. *)
Fixpoint draw_edges (codeToMuni : dict Municipality) (muni : Municipality)
    (es : list MunicipalityEdge) : result (list shape) :=
  match es with
  | [] => Ok []
  | edge :: es' =>
      neighbor ← dict_item codeToMuni (toMuniCode edge);
      a ← validate_location (lat muni, lon muni);
      b ← validate_location (lat neighbor, lon neighbor);
      lines ← draw_edges codeToMuni muni es';
      Ok (PolyLine a b :: lines)
  end.

(** The outer loop: the marker of the entity, then its lines. *)
Fixpoint draw_munis (codeToMuni : dict Municipality) (munis : list Municipality)
    : result (list shape) :=
  match munis with
  | [] => Ok []
  | muni :: rest =>
      location ← validate_location (lat muni, lon muni);
      lines ← draw_edges codeToMuni muni (edges muni);
      shapes ← draw_munis codeToMuni rest;
      Ok (Marker location (name muni) :: lines ++ shapes)
  end.

(** The result is the total printed and the shapes added to the map, in
    order. *)
Definition testAndSaveToMap (codeToMuni : dict Municipality) : result (nat * list shape) :=
  let total := totalEdges (dict_values codeToMuni) in
  shapes ← draw_munis codeToMuni (dict_values codeToMuni);
  Ok (total, shapes).

Section MapV2.
Variable kernel : float -> float -> float -> float -> result float.

(** [makeAndSaveMapV2], from the object read from the file of the
    entities: the selector runs on the values of the mapping and leaves
    every entity under its key. *)
Definition makeAndSaveMapV2 (obj : dict Municipality) : result (nat * list shape) :=
  let codeToMunicipality := getMunicipalityCodeToSuperchargerStatus obj in
  values ← addEdgesToMunicipalitiesV2 kernel (dict_values codeToMunicipality);
  testAndSaveToMap (zip (dict_keys codeToMunicipality) values).

End MapV2.

(** ** The program of initialDataProcessing.py *)

Section Main.
Variable unicode_escape : string -> result string.
Variable kernel : float -> float -> float -> float -> result float.

(** [saveMunicipalityWithSuperchargers] is
    [saveMunicipalityCodesAndSuperchargerStatus] under another name and
    with other file names. *)
Definition saveMunicipalityWithSuperchargers :=
  saveMunicipalityCodesAndSuperchargerStatus unicode_escape.

(** [main]: the entities are saved, read back and linked, and the map is
    drawn.  The arguments are the contents of the two input files. *)
Definition main (municipalities : list MunicipalityRecord)
    (superchargers : list SuperchargerRow) : result (nat * list shape) :=
  file ← saveMunicipalityWithSuperchargers municipalities superchargers;
  let codeToMunicipality := getMunicipalityCodeToSuperchargerStatus file in
  codeToMuni ← addEdgesToMunicipalitiesV2 kernel (dict_values codeToMunicipality);
  testAndSaveToMap (zip (dict_keys codeToMunicipality) codeToMuni).

End Main.

(** * Predicates of the statements *)

(** ** Heaps *)

Section heap_predicates.
Context {A : Type} (lt : A -> A -> result bool).
Variable R : A -> A -> Prop.

(** Every comparison between two items of the list returns. *)
Definition comparable (l : list A) : Prop :=
forall x y, x ∈ l -> y ∈ l -> is_Ok (lt x y).

Definition child_of (p c : nat) : Prop := c = 2 * p + 1 \/ c = 2 * p + 2.

Definition heap_ordered (h : list A) : Prop :=
forall p c x y, child_of p c -> h !! p = Some x -> h !! c = Some y -> R x y.

(** Ordered but for the link from [pos] up to its parent. *)
Definition ordered_above (h : list A) (pos : nat) : Prop :=
(forall p c x y, child_of p c -> c <> pos ->
   h !! p = Some x -> h !! c = Some y -> R x y) /\
(forall g c x y, child_of g pos -> child_of pos c ->
   h !! g = Some x -> h !! c = Some y -> R x y).

(** Ordered but for the links of [pos], a hole. *)
Definition ordered_around (h : list A) (pos : nat) : Prop :=
(forall p c x y, child_of p c -> c <> pos -> p <> pos ->
   h !! p = Some x -> h !! c = Some y -> R x y) /\
(forall g c x y, child_of g pos -> child_of pos c ->
   h !! g = Some x -> h !! c = Some y -> R x y).

End heap_predicates.

(** ** The computation of [haversine], term by term *)

Section HaversineByTerms.
Variables math_sin math_cos : float -> option float.
Variable math_atan2 : float -> float -> float.
Variable float_pow : float -> float -> option float.

(** [sin²(x)] *)
Definition sin_squared (x : float) : result float :=
s ← or_raise ValueError (math_sin x);
or_raise OverflowError (float_pow s (Float.of_Z 2)).

(** [sin²(Δ/2)] for a difference [Δ] of two angles in degrees *)
Definition hav_term (delta_degrees : float) : result float :=
sin_squared (Float.div (math_radians delta_degrees) (Float.of_Z 2)).

(** [cos(lat1)·cos(lat2)] *)
Definition cos_cos (lat1 lat2 : float) : result float :=
c1 ← or_raise ValueError (math_cos (math_radians lat1));
c2 ← or_raise ValueError (math_cos (math_radians lat2));
Ok (Float.mul c1 c2).

(** [a = sin²(Δlat/2) + cos(lat1)·cos(lat2)·sin²(Δlon/2)] *)
Definition term_a (lat1 lon1 lat2 lon2 : float) : result float :=
hLat ← hav_term (Float.sub lat2 lat1);
cc ← cos_cos lat1 lat2;
hLon ← hav_term (Float.sub lon2 lon1);
Ok (Float.add hLat (Float.mul cc hLon)).

(** [c = 2·atan2(√a, √(1−a))] *)
Definition term_c (a : float) : result float :=
ra ← math_sqrt a;
rb ← math_sqrt (Float.sub (Float.of_Z 1) a);
Ok (Float.mul (Float.of_Z 2) (math_atan2 ra rb)).

(** [R·c] with [R = 6371], in kilometers, then miles: divided by 1.609 *)
Definition haversine_terms (lat1 lon1 lat2 lon2 : float) : result float :=
a ← term_a lat1 lon1 lat2 lon2;
c ← term_c a;
let kilometers := Float.mul (Float.of_Z 6371) c in
Ok (Float.div kilometers (Float.decimal 1609 3)).

End HaversineByTerms.

(** ** The haversine formula of the specification

    The formula in the words of the specification, over binary64 numbers:
    it has its own conversion of degrees to radians, its own square and
    its own square root, and takes the sine, the cosine and the arc
    tangent as total functions. *)

Section GreatCircle.
Variables sin cos : float -> float.
Variable atan2 : float -> float -> float.

(** π, the binary64 number nearest to it *)
Definition pi_binary64 : float := Float.decimal 3141592653589793 15.

(** An angle in degrees, in to_radians: [x·π/180] *)
Definition to_radians (degrees : float) : float :=
Float.mul degrees (Float.div pi_binary64 (Float.of_Z 180)).

Definition halved (x : float) : float := Float.div x (Float.of_Z 2).

Definition squared (x : float) : float := Float.mul x x.


(** [a = sin²(Δlat/2) + cos(lat1)·cos(lat2)·sin²(Δlon/2)] *)
Definition great_circle_a (lat1 lon1 lat2 lon2 : float) : float :=
Float.add
  (squared (sin (halved (to_radians (Float.sub lat2 lat1)))))
  (Float.mul (Float.mul (cos (to_radians lat1)) (cos (to_radians lat2)))
     (squared (sin (halved (to_radians (Float.sub lon2 lon1)))))).






End GreatCircle.



(** ** The selector *)

Definition mirror (e : MunicipalityEdge) : MunicipalityEdge :=
  {| fromMuniCode := toMuniCode e; toMuniCode := fromMuniCode e; distance := distance e |}.

Definition linked (m : Municipality) (other : string) (d : float) (seen : gset string)
    : Municipality :=
  set_neighbors
    (set_edges m (edges m ++ [{| fromMuniCode := code m; toMuniCode := other; distance := d |}]))
    (Some (seen ∪ {[other]})).

(** Entities keep their code and coordinates; adjacency lists only grow at
    the end. *)
Definition grows (m m' : Municipality) : Prop :=
  code m' = code m /\ lat m' = lat m /\ lon m' = lon m /\
  edges m `prefix_of` edges m'.

Definition extends (values values' : list Municipality) : Prop :=
  length values' = length values /\
  forall j m, values !! j = Some m -> exists m', values' !! j = Some m' /\ grows m m'.

Definition seen_ok (m : Municipality) : Prop :=
  exists s, _neighbors m = Some s /\ forall c, c ∈ s <-> c ∈ toMuniCode <$> edges m.

(** An edge of the entity at index [i] starts at it and has its mirror
    image at another entity, the one it leads to. *)
Definition edge_ok (values : list Municipality) (i : nat) (m : Municipality)
    (e : MunicipalityEdge) : Prop :=
  fromMuniCode e = code m /\
  exists k m', k <> i /\ values !! k = Some m' /\ code m' = toMuniCode e /\
    mirror e ∈ edges m'.

Definition wf (values : list Municipality) : Prop :=
  forall i m, values !! i = Some m ->
    seen_ok m /\ forall e, e ∈ edges m -> edge_ok values i m e.

(** What the acceptance loop of entity [i] leaves: the edges [own] it
    appended to entity [i], and for every other entity the mirror images
    appended to it. *)
Definition round_effect (i : nat) (values values' : list Municipality)
    (own : list MunicipalityEdge) : Prop :=
  (forall m, values !! i = Some m ->
     exists m', values' !! i = Some m' /\ edges m' = edges m ++ own) /\
  (forall k m m', k <> i -> values !! k = Some m -> values' !! k = Some m' ->
     exists extra, edges m' = edges m ++ extra /\ forall e, e ∈ extra -> mirror e ∈ own).

Definition heap_valid (i : nat) (h : list (float * nat)) : Prop :=
  forall x, x ∈ h -> x.2 <> i.

Definition finite_item (x : float * nat) : Prop := Float.is_nan x.1 = false.

Definition item_le (x y : float * nat) : Prop := Float.leb x.1 y.1 = true.

Definition candidates_ordered (h : list (float * nat)) : Prop :=
  heap_ordered item_le h /\ Forall finite_item h.

(** Nearest first. *)
Definition block_sorted (own : list MunicipalityEdge) : Prop :=
  forall n n' e e', n < n' -> own !! n = Some e -> own !! n' = Some e' ->
    Float.leb (distance e) (distance e') = true.

(** What the acceptance loop of entity [i] guarantees about the block
    [own] of edges it appends, from the ranks [js] and the heap [h]. *)
Definition block_ok (js : list nat) (h : list (float * nat))
    (own : list MunicipalityEdge) : Prop :=
  length own <= length js /\
  (forall n e, own !! n = Some e ->
     exists j, js !! n = Some j /\ gate_breaks j (distance e) = false) /\
  (candidates_ordered h ->
     block_sorted own /\ forall e, e ∈ own -> exists x, x ∈ h /\ x.1 = distance e).

(** [own i] is the block of edges entity [i] accepted in its own round;
    every other edge of an entity is the mirror image of an edge in the
    block of another entity. *)
Definition blocks (values : list Municipality) (own : nat -> list MunicipalityEdge) : Prop :=
  forall i m, values !! i = Some m ->
    exists pre post, edges m = pre ++ own i ++ post /\
      forall e, e ∈ pre ++ post -> exists k, k <> i /\ mirror e ∈ own k.

(** Every block holds at most [MAX_EDGES] edges, each within the gate of
    its rank, nearest first when the distances are numbers. *)
Definition gated (finite : Prop) (own : nat -> list MunicipalityEdge) : Prop :=
  forall i, length (own i) <= MAX_EDGES /\
    (forall n e, own i !! n = Some e -> gate_breaks n (distance e) = false) /\
    (finite -> block_sorted (own i)).

Section round_predicates.
Variable kernel : float -> float -> float -> float -> result float.

(** A candidate of entity [i]: another entity, not yet a neighbour,
  with its distance. *)
Definition candidate (values : list Municipality) (i : nat) (muni1 : Municipality)
  (s : gset string) (x : float * nat) : Prop :=
x.2 <> i /\ exists m2, values !! x.2 = Some m2 /\ (code m2 ∉ s) /\
  getDistanceBetweenMunicipalities kernel muni1 m2 = Ok x.1.

(** No distance between two of the entities is NaN. *)
Definition finite_distances (values : list Municipality) : Prop :=
forall m1 m2 d, m1 ∈ values -> m2 ∈ values ->
  getDistanceBetweenMunicipalities kernel m1 m2 = Ok d -> Float.is_nan d = false.

End round_predicates.

(** An entity as [getMunicipalityCodeToSuperchargerStatus] loads it: no
    edge, no neighbour seen. *)
Definition pristine (m : Municipality) : Prop :=
  _neighbors m = Some ∅ /\ edges m = [].

(** [MAX_DISTANCE / 2^j] below rank 3, [MAX_DISTANCE / 3^j] from rank 3 on *)
Definition threshold (j : nat) : float :=
  if (j <? 3)%nat then Float.int_truediv MAX_DISTANCE (2 ^ Z.of_nat j)
  else Float.int_truediv MAX_DISTANCE (3 ^ Z.of_nat j).

Definition nodup_edges (values : list Municipality) : Prop :=
  forall i m, values !! i = Some m -> NoDup (toMuniCode <$> edges m).

(** Entity [k] is not yet a neighbour of entity [i]. *)
Definition unseen (values : list Municipality) (i k : nat) : Prop :=
  forall m1 m2 s, values !! i = Some m1 -> values !! k = Some m2 ->
    _neighbors m1 = Some s -> code m2 ∉ s.

Definition has_seen (values : list Municipality) : Prop :=
  forall j m, values !! j = Some m -> is_Some (_neighbors m).

Section completion_predicates.
Variable kernel : float -> float -> float -> float -> result float.
Variable start : list Municipality.

(** The heap of the round of entity [i] holds distinct other entities,
  each with its distance from [i]. *)
Definition heap_of (i : nat) (h : list (float * nat)) : Prop :=
NoDup h.*2 /\
forall x, x ∈ h -> x.2 <> i /\
  exists m1 m2, start !! i = Some m1 /\ start !! x.2 = Some m2 /\
    getDistanceBetweenMunicipalities kernel m1 m2 = Ok x.1.

End completion_predicates.

(** ** [addEdge] *)

(** The rule of the specification: the distance is below [MAX_DISTANCE],
    or below twice that when either code starts with the prefix, and the
    list is under capacity or the edge is farther than the edge at the
    root of the heap. *)
Definition admission_rule (self : Municipality) (edge : MunicipalityEdge) : bool :=
  (Float.ltb (distance edge) (Float.of_Z MAX_DISTANCE)
   || ((String.prefix "09" (fromMuniCode edge) || String.prefix "09" (toMuniCode edge))
       && Float.ltb (distance edge) (Float.of_Z (2 * MAX_DISTANCE))))
  && (bool_decide (length (edges self) < MAX_EDGES)
      || match edges self with
         | smallest :: _ => Float.ltb (distance smallest) (distance edge)
         | [] => false
         end).

Definition finite_edge (e : MunicipalityEdge) : Prop := Float.is_nan (distance e) = false.

Definition edge_le (e e' : MunicipalityEdge) : Prop :=
  Float.leb (distance e) (distance e') = true.

Definition edge_heap (l : list MunicipalityEdge) : Prop :=
  heap_ordered edge_le l /\ Forall finite_edge l.

(** ** Two entities *)

Section pair_predicates.
Variables a b : Municipality.

Definition pair_linked (d : float) : list Municipality :=
[linked a (code b) d ∅; linked b (code a) d ∅].

End pair_predicates.

(** ** Entities on one meridian *)

Module Examples.

(** On a meridian the haversine formula gives [6371·Δlat·π/180/1.609],
  69.108 miles for each degree of latitude. *)
Definition miles_per_degree : float := Float.decimal 69108 3.

Definition meridian (lat1 lon1 lat2 lon2 : float) : result float :=
Ok (Float.mul (Float.abs (Float.sub lat2 lat1)) miles_per_degree).

(** An entity as loaded, at a latitude given in hundredths of a degree,
  on the meridian 99° W. *)
Definition entity (code : string) (latitude : Z) : Municipality :=
Municipality_init code "Hidalgo" code (Float.decimal latitude 2) (Float.of_Z (-99)) false [].

(** Eleven entities around a twelfth. *)
Definition hub : list Municipality :=
[entity "13001" 1785; entity "13002" 1726; entity "13003" 1818; entity "13004" 1779;
 entity "13005" 1775; entity "13006" 1823; entity "13007" 1767; entity "13008" 1836;
 entity "13009" 1731; entity "13010" 1845; entity "13011" 1760; entity "13012" 1792].

(** 62 and 69 miles between neighbours. *)
Definition three : list Municipality :=
[entity "A" 1900; entity "B" 1990; entity "C" 2090].

(** The same four entities in two orders. *)
Definition four : list Municipality :=
[entity "A" 2000; entity "B" 1910; entity "C" 2100; entity "D" 2115].
Definition four' : list Municipality :=
[entity "B" 1910; entity "A" 2000; entity "C" 2100; entity "D" 2115].

(** [P] has [X3] and [X4] at the same distance, six degrees north and
  south of it. *)
Definition tied : list Municipality :=
[entity "P" 2000; entity "X1" 2250; entity "X2" 2450; entity "X3" 2600; entity "X4" 1400].
Definition tied_three : list Municipality :=
[entity "P" 2000; entity "X3" 2600; entity "X4" 1400].

(** An edge list with one row. *)
Definition two_codes : gmap string Municipality :=
<["A" := entity "A" 1900]> (<["B" := entity "B" 1990]> ∅).
Definition one_row : list MunicipalityEdge :=
[{| fromMuniCode := "A"; toMuniCode := "B"; distance := Float.decimal 622 1 |}].

(** The result of a run that returns, and one of its entities. *)
Definition returned {A} (r : result (list A)) : list A :=
match r with Ok l => l | Raise _ => [] end.

Definition returned_map (r : result (gmap string Municipality))
  : gmap string Municipality :=
match r with Ok d => d | Raise _ => ∅ end.

Definition at_index (l : list Municipality) (i : nat) : Municipality :=
default (entity "" 0) (l !! i).

(** *** The C library at the points of two runs

  The values that [math.sin], [math.cos], [math.atan2] and [** 2] of
  CPython 3.11 over glibc return at the arguments the two runs below
  reach, as binary64 numbers; the tables hold nothing else, and a
  function read from a table raises outside of it. *)

Definition same_float (x y : float) : bool :=
match x, y with
| S754_zero s, S754_zero s' => Bool.eqb s s'
| S754_infinity s, S754_infinity s' => Bool.eqb s s'
| S754_nan, S754_nan => true
| S754_finite s m e, S754_finite s' m' e' =>
    Bool.eqb s s' && (m =? m')%positive && (e =? e')%Z
| _, _ => false
end.

Definition read_table (table : list (float * float)) (x : float) : option float :=
snd <$> find (fun row => same_float row.1 x) table.

Definition libm_sin : float -> option float :=
read_table
  [ (* sin(-0.13962634015954636) = -0.13917310096006544 *)
    (S754_finite true 5030569068109113 (-55), S754_finite true 5014239404989977 (-55));
    (* sin(1.5707963267948966) = 1.0 *)
    (S754_finite false 7074237752028440 (-52), S754_finite false 4503599627370496 (-52));
    (* sin(0.01070846762561121) = 0.01070826296783837 *)
    (S754_finite false 6173011303476693 (-59), S754_finite false 6172893326302997 (-59));
    (* sin(-0.03679503129054439) = -0.0367867292111879 *)
    (S754_finite true 5302722854693807 (-57), S754_finite true 5301526398965925 (-57)) ].

Definition libm_cos : float -> option float :=
read_table
  [ (* cos(0.13962634015954636) = cos(-0.13962634015954636)
       = 0.9902680687415704 *)
    (S754_finite false 5030569068109113 (-55), S754_finite false 8919541810762874 (-53));
    (S754_finite true 5030569068109113 (-55), S754_finite false 8919541810762874 (-53));
    (* cos(0.3391628522230501) = 0.9430335131246184 *)
    (S754_finite false 6109814779558572 (-54), S754_finite false 8494090756611842 (-53));
    (* cos(0.3605797874742725) = 0.9356924221989167 *)
    (S754_finite false 6495627986025865 (-54), S754_finite false 8427968087896876 (-53)) ].

Definition libm_pow (x y : float) : option float :=
if same_float y (Float.of_Z 2) then
  read_table
    [ (* (-0.13917310096006544) ** 2 = 0.019369152030840567 *)
      (S754_finite true 5014239404989977 (-55), S754_finite false 5582777975588868 (-58));
      (* 1.0 ** 2 = 1.0 *)
      (S754_finite false 4503599627370496 (-52), S754_finite false 4503599627370496 (-52));
      (* 0.01070826296783837 ** 2 = 0.00011466689578837862 *)
      (S754_finite false 6172893326302997 (-59), S754_finite false 8460923521339776 (-66));
      (* (-0.0367867292111879) ** 2 = 0.0013532634460572649 *)
      (S754_finite true 5301526398965925 (-57), S754_finite false 6240826113431154 (-62)) ]
    x
else None.

(** atan2(0.03617695533152148, 0.9993453997006946) = 0.0361848512142817 *)
Definition libm_atan2 (y x : float) : float :=
if same_float y (S754_finite false 5213648721614055 (-57)) &&
   same_float x (S754_finite false 9001303139412935 (-53))
then S754_finite false 5214786638243069 (-57)
else S754_nan.

(** The tables as total functions. *)
Definition libm_sin_value (x : float) : float := default S754_nan (libm_sin x).
Definition libm_cos_value (x : float) : float := default S754_nan (libm_cos x).

(** Guadalajara, at 20.6597° N and 103.3496° W. *)
Definition guadalajara : Municipality :=
Municipality_init "Guadalajara" "Jalisco" "14039"
  (Float.decimal 206597 4) (Float.opp (Float.decimal 1033496 4)) false [].

(** Two antipodal points, at 8° N on the meridian of Greenwich and at
  8° S on the meridian 180°. *)
Definition north : Municipality :=
Municipality_init "north" "" "N" (Float.of_Z 8) (Float.of_Z 0) false [].
Definition south : Municipality :=
Municipality_init "south" "" "S" (Float.of_Z (-8)) (Float.of_Z 180) false [].

End Examples.

(** ** The claims as the specification words them *)

(** Ranking the edges of an entity by increasing distance. *)
Fixpoint insert_by_distance (e : MunicipalityEdge) (l : list MunicipalityEdge)
    : list MunicipalityEdge :=
  match l with
  | [] => [e]
  | x :: l' =>
      if Float.leb (distance e) (distance x) then e :: l else x :: insert_by_distance e l'
  end.

Definition rank_by_distance (l : list MunicipalityEdge) : list MunicipalityEdge :=
  foldr insert_by_distance [] l.

(** Every edge of the entity, at its rank among all the edges of the
    entity, is within the gate of that rank. *)
Definition ranked_within_gate (m : Municipality) : Prop :=
  forall j e, rank_by_distance (edges m) !! j = Some e ->
    Float.leb (distance e) (threshold j) = true.

(** The final adjacency lists do not depend on the order of the entities. *)
Definition order_independent
    (kernel : float -> float -> float -> float -> result float) : Prop :=
  forall values values' out out',
    values ≡ₚ values' -> Forall pristine values ->
    addEdgesToMunicipalitiesV2 kernel values = Ok out ->
    addEdgesToMunicipalitiesV2 kernel values' = Ok out' ->
    forall m m', m ∈ out -> m' ∈ out' -> code m = code m' -> edges m = edges m'.

(** Two candidates of one entity at equal distances raise TypeError. *)
Definition ties_raise
    (kernel : float -> float -> float -> float -> result float) : Prop :=
  forall values i j k m1 m2 m3 d d',
    Forall pristine values ->
    values !! i = Some m1 -> values !! j = Some m2 -> values !! k = Some m3 ->
    i <> j -> i <> k -> j <> k ->
    getDistanceBetweenMunicipalities kernel m1 m2 = Ok d ->
    getDistanceBetweenMunicipalities kernel m1 m3 = Ok d' ->
    Float.eqb d d' = true ->
    addEdgesToMunicipalitiesV2 kernel values = Raise TypeError.

(** ** What the selector leaves alone, and what it records *)

(** The attributes the selector never assigns. *)
Definition same_identity (m m' : Municipality) : Prop :=
  name m' = name m /\ state m' = state m /\ code m' = code m /\
  lat m' = lat m /\ lon m' = lon m /\ hasSupercharger m' = hasSupercharger m.

Section measure_predicates.
Variable kernel : float -> float -> float -> float -> result float.

(** The heap of the round of entity [i]: every item is another entity
  with its distance from entity [i]. *)
Definition measured (start : list Municipality) (i : nat) (h : list (float * nat)) : Prop :=
forall x, x ∈ h -> x.2 <> i /\
  exists m1 m2, start !! i = Some m1 /\ start !! x.2 = Some m2 /\
    getDistanceBetweenMunicipalities kernel m1 m2 = Ok x.1.

(** The edge [e] of the entity at index [a] leads to another entity of
  the list, and its distance is what the distance function returns for
  the two, called in one order or the other. *)
Definition edge_measured (values : list Municipality) (a : nat) (e : MunicipalityEdge) : Prop :=
exists ma b mb, values !! a = Some ma /\ a <> b /\ values !! b = Some mb /\
  fromMuniCode e = code ma /\ toMuniCode e = code mb /\
  (getDistanceBetweenMunicipalities kernel ma mb = Ok (distance e) \/
   getDistanceBetweenMunicipalities kernel mb ma = Ok (distance e)).

Definition distances_measured (values : list Municipality) : Prop :=
forall a m e, values !! a = Some m -> e ∈ edges m -> edge_measured values a e.

End measure_predicates.

(** ** The edge-list driven builder *)

(** Decreasing distances. *)
Definition farthest_first (l : list MunicipalityEdge) : Prop :=
  StronglySorted (fun x y => edge_le y x) l.

Section old_builder_predicates.
Variable kernel : float -> float -> float -> float -> result float.

(** The edge [e], kept by the entity [m] under the key [k], is a row of
  the file read with its distance filled in where the row has a zero,
  the distance being the one from [m] to the entity under the row's
  second code. *)
Definition row_edge (d0 : gmap string Municipality) (rows : list MunicipalityEdge)
  (k : string) (m : Municipality) (e : MunicipalityEdge) : Prop :=
fromMuniCode e = k /\
exists row x toMuni, row ∈ rows /\ e = setEdgeDistance row x /\
  d0 !! toMuniCode e = Some toMuni /\
  getDistanceBetweenMunicipalities kernel m toMuni = Ok x.

(** What the loop over the rows keeps true of the mapping [d], started
  from [d0]: the same keys, every entity as it was but for its edges,
  at most [MAX_EDGES] of them, each a row leaving the entity. *)
Definition loop_inv (d0 : gmap string Municipality) (rows : list MunicipalityEdge)
  (d : gmap string Municipality) : Prop :=
dom d = dom d0 /\
forall k m', d !! k = Some m' ->
  exists m, d0 !! k = Some m /\ set_edges m' (edges m) = m /\
    length (edges m') <= MAX_EDGES /\
    forall e, e ∈ edges m' -> e ∈ edges m \/ row_edge d0 rows k m e.

End old_builder_predicates.

(** ** Entities and superchargers *)

(** The key an entity is filed under by name. *)
Definition key_of (m : Municipality) : string := state m +:+ "_" +:+ name m.

Definition escaped (supercharger : SuperchargerRow) : string :=
  State supercharger +:+ "_" +:+ row_Municipality supercharger.

Definition entities (nameToMunicipality : dict (list Municipality)) : list Municipality :=
  mjoin (dict_values nameToMunicipality).

(** The entity [m] carries the first name, state and code and the point
    of the record. *)
Definition from_record (record : MunicipalityRecord) (m : Municipality) : Prop :=
  mun_name record !! 0 = Some (name m) /\ sta_name record !! 0 = Some (state m) /\
  mun_code record !! 0 = Some (code m) /\ geo_point_2d record = (lat m, lon m).

(** What the first two loops of [saveMunicipalityCodesAndSuperchargerStatus]
    keep true of [nameToMunicipality], the records [records] read and the
    names [names] of superchargers decoded so far. *)
Definition grouped (records : list MunicipalityRecord) (names : list string)
    (nameToMunicipality : dict (list Municipality)) : Prop :=
  NoDup (dict_keys nameToMunicipality) /\
  (forall k l m, (k, l) ∈ nameToMunicipality -> m ∈ l ->
     key_of m = k /\ pristine m /\ (hasSupercharger m = true <-> k ∈ names) /\
     exists record, record ∈ records /\ from_record record m) /\
  (forall record, record ∈ records ->
     exists m, m ∈ entities nameToMunicipality /\ from_record record m).

(** ** The map *)

(** Neither coordinate of the entity is NaN. *)
Definition located (m : Municipality) : Prop :=
  Float.is_nan (lat m) = false /\ Float.is_nan (lon m) = false.

#[export] Instance located_dec m : Decision (located m).
Proof. unfold located. apply _. Defined.

(** Neither coordinate of the point of the record is NaN. *)
Definition record_located (record : MunicipalityRecord) : Prop :=
  Float.is_nan (geo_point_2d record).1 = false /\
  Float.is_nan (geo_point_2d record).2 = false.

Fixpoint count_lines (shapes : list shape) : nat :=
  match shapes with
  | [] => 0
  | PolyLine _ _ :: rest => S (count_lines rest)
  | Marker _ _ :: rest => count_lines rest
  end.

Fixpoint count_markers (shapes : list shape) : nat :=
  match shapes with
  | [] => 0
  | Marker _ _ :: rest => S (count_markers rest)
  | PolyLine _ _ :: rest => count_markers rest
  end.

(** ** Cleaning *)

(** The value a row has in the column at index [i]: its cell there, and
    [None] when the row is too short. *)
Definition column_value (row : list string) (i : nat) : field :=
  match row !! i with Some cell => Cell cell | None => NoCell end.

(** The row of the reader as [cleanIntramunicipal] hands it to the
    writer, after the two assignments and the [pop]. *)
Definition popped (row : csv_row) (from to : string) : csv_row :=
  delete (Some "date") (<[Some "to" := Cell to]> (<[Some "from" := Cell from]> row)).

(** A row of the edge file cleaned: the cell of the column [date] is
    dropped, the dots of the cells of the columns [from] and [to] are
    replaced, the other cells are kept, in the order of the columns. *)
Definition cleaned_cells (fieldnames row : list string) : list string :=
  (fun item => if decide (item.1 = "from" \/ item.1 = "to") then replace_dot item.2
               else item.2)
    <$> filter (fun item => item.1 <> "date") (zip fieldnames row).

Fixpoint has_dot (s : string) : bool :=
  match s with
  | EmptyString => false
  | String c s' => bool_decide (c = "."%char) || has_dot s'
  end.

(** ** Exceptions *)

(** The result [r] raises nothing but the exceptions of [E]. *)
Definition raises_only {A} (E : exn -> Prop) (r : result A) : Prop :=
  forall e, r = Raise e -> E e.

(** ** Sample records *)

Module Samples.

Definition sample_records : list MunicipalityRecord :=
[{| sta_name := ["Hidalgo"]; mun_name := ["Pachuca de Soto"]; mun_code := ["13048"];
    geo_point_2d := (Float.decimal 2012 2, Float.opp (Float.decimal 9873 2)) |};
 {| sta_name := ["Hidalgo"]; mun_name := ["Tula de Allende"]; mun_code := ["13076"];
    geo_point_2d := (Float.decimal 2005 2, Float.opp (Float.decimal 9934 2)) |};
 {| sta_name := ["Hidalgo"]; mun_name := ["Pachuca de Soto"]; mun_code := ["13051"];
    geo_point_2d := (Float.decimal 2010 2, Float.opp (Float.decimal 9870 2)) |}].

Definition sample_superchargers : list SuperchargerRow :=
[{| State := "Hidalgo"; row_Municipality := "Pachuca de Soto" |};
 {| State := "Sonora"; row_Municipality := "Hermosillo" |}].

(** A decoder for names without escapes. *)
Definition plain (s : string) : result string := Ok s.

Definition written (r : result (dict Municipality)) : dict Municipality :=
match r with Ok file => file | Raise _ => [] end.

Definition sample_file : dict Municipality :=
written (saveMunicipalityCodesAndSuperchargerStatus plain sample_records sample_superchargers).

End Samples.

(** * Facts about the model *)

(** ** The error monad *)

Lemma bind_Ok {A B} (m : result A) (f : A -> result B) (b : B) :
  m ≫= f = Ok b -> exists a, m = Ok a /\ f a = Ok b.
Proof. destruct m as [a|e]; simpl; [eauto | discriminate]. Qed.

Lemma getitem_Ok {A} (l : list A) i x : getitem l i = Ok x <-> l !! i = Some x.
Proof. unfold getitem. destruct (l !! i); split; congruence. Qed.

Lemma getitem_lt {A} (l : list A) i :
  i < length l -> exists x, getitem l i = Ok x /\ l !! i = Some x.
Proof.
  intros H. destruct (lookup_lt_is_Some_2 l i H) as [x Hx].
  exists x. split; [by apply getitem_Ok | done].
Qed.

Tactic Notation "rsimpl" := cbn [mbind result_bind mret result_ret].
Tactic Notation "rsimpl" "in" hyp(H) := cbn [mbind result_bind mret result_ret] in H.

Ltac inv_bind H :=
  let a := fresh "a" in
  let Ha := fresh "Ha" in
  apply bind_Ok in H; destruct H as (a & Ha & H).

(** ** heapq keeps the items *)

Section heapq_facts.
Context {A : Type} (lt : A -> A -> result bool).

Lemma parent_lt pos : 0 < pos -> (pos - 1) / 2 < pos.
Proof.
  intros H. apply Nat.Div0.div_lt_upper_bound. lia.
Qed.

(** Moving the hole from [pos] to [p]. *)
Lemma hole_move (heap : list A) pos p (x y : A) :
  pos < length heap -> p <> pos -> heap !! p = Some y ->
  <[p := x]> (<[pos := y]> heap) ≡ₚ <[pos := x]> heap.
Proof.
  intros Hpos Hne Hp.
  rewrite <- (list_insert_insert_eq heap pos y x).
  apply Permutation_insert_swap.
  - by apply list_lookup_insert_eq.
  - by rewrite list_lookup_insert_ne.
Qed.

Lemma _siftdown_loop_S fuel heap startpos pos newitem :
  _siftdown_loop lt (S fuel) heap startpos pos newitem =
  if decide (startpos < pos) then
    parent ← getitem heap ((pos - 1) / 2);
    b ← lt newitem parent;
    if b : bool
    then _siftdown_loop lt fuel (<[pos := parent]> heap) startpos ((pos - 1) / 2) newitem
    else Ok (<[pos := newitem]> heap)
  else Ok (<[pos := newitem]> heap).
Proof. reflexivity. Qed.

Lemma _siftup_loop_S fuel heap endpos pos :
  _siftup_loop lt (S fuel) heap endpos pos =
  if decide (2 * pos + 1 < endpos) then
    childpos' ←
      (if decide (2 * pos + 1 + 1 < endpos) then
         c ← getitem heap (2 * pos + 1);
         r ← getitem heap (2 * pos + 1 + 1);
         b ← lt c r;
         Ok (if b : bool then 2 * pos + 1 else 2 * pos + 1 + 1)
       else Ok (2 * pos + 1));
    child ← getitem heap childpos';
    _siftup_loop lt fuel (<[pos := child]> heap) endpos childpos'
  else Ok (heap, pos).
Proof. reflexivity. Qed.

Lemma _siftdown_loop_perm fuel : forall heap startpos pos newitem heap',
  pos < length heap ->
  _siftdown_loop lt fuel heap startpos pos newitem = Ok heap' ->
  heap' ≡ₚ <[pos := newitem]> heap.
Proof.
  induction fuel as [|fuel IH]; intros heap startpos pos newitem heap' Hpos H.
  - by inversion H.
  - rewrite _siftdown_loop_S in H.
    destruct (decide (startpos < pos)) as [Hlt|]; [|by inversion H].
    inv_bind H. inv_bind H. apply getitem_Ok in Ha.
    assert ((pos - 1) / 2 < pos) as Hp by (apply parent_lt; lia).
    destruct a0; [|by inversion H].
    apply IH in H; [|rewrite length_insert; lia].
    rewrite H. apply hole_move; [done | lia | done].
Qed.

Lemma _siftdown_perm heap startpos pos heap' :
  _siftdown lt heap startpos pos = Ok heap' -> heap' ≡ₚ heap.
Proof.
  unfold _siftdown. intros H. inv_bind H. apply getitem_Ok in Ha.
  apply _siftdown_loop_perm in H; [|by eapply lookup_lt_Some].
  by rewrite H, list_insert_id.
Qed.

Lemma _siftup_loop_perm fuel : forall heap pos heap' pos',
  pos < length heap ->
  _siftup_loop lt fuel heap (length heap) pos = Ok (heap', pos') ->
  length heap' = length heap /\ pos' < length heap /\
  forall x, <[pos' := x]> heap' ≡ₚ <[pos := x]> heap.
Proof.
  induction fuel as [|fuel IH]; intros heap pos heap' pos' Hpos H.
  - inversion H; subst. done.
  - rewrite _siftup_loop_S in H.
    destruct (decide (2 * pos + 1 < length heap)) as [Hlt|]; [|by inversion H; subst].
    inv_bind H. inv_bind H. apply getitem_Ok in Ha0.
    assert (a <> pos /\ a < length heap) as [Hne Ha'].
    { destruct (decide (2 * pos + 1 + 1 < length heap)).
      - inv_bind Ha. inv_bind Ha. inv_bind Ha. inversion Ha; subst.
        destruct a3; lia.
      - inversion Ha; subst. lia. }
    specialize (IH (<[pos := a0]> heap) a heap' pos').
    rewrite length_insert in IH.
    destruct (IH Ha' H) as (Hlen & Hp' & Hperm).
    split; [done|]. split; [done|].
    intros x. rewrite Hperm. by apply hole_move.
Qed.

Lemma _siftup_perm heap pos heap' :
  _siftup lt heap pos = Ok heap' -> heap' ≡ₚ heap.
Proof.
  unfold _siftup. intros H. inv_bind H. apply getitem_Ok in Ha.
  inv_bind H. destruct a0 as [h p].
  apply _siftup_loop_perm in Ha0; [|by eapply lookup_lt_Some].
  destruct Ha0 as (_ & _ & Hperm).
  apply _siftdown_perm in H. rewrite H, Hperm.
  by rewrite list_insert_id.
Qed.

Lemma heappush_perm heap item heap' :
  heappush lt heap item = Ok heap' -> heap' ≡ₚ item :: heap.
Proof.
  unfold heappush. intros H. apply _siftdown_perm in H.
  rewrite H. by rewrite Permutation_app_comm.
Qed.

Lemma heappop_perm heap item heap' :
  heappop lt heap = Ok (item, heap') -> heap ≡ₚ item :: heap'.
Proof.
  unfold heappop. intros H. inv_bind H. apply getitem_Ok in Ha.
  assert (heap = take (length heap - 1) heap ++ [a]) as Hsplit.
  { rewrite <- (take_drop (length heap - 1) heap) at 1. f_equal.
    apply lookup_lt_Some in Ha as Hlen.
    rewrite (drop_S _ _ _ Ha).
    rewrite drop_ge by lia. done. }
  destruct (take (length heap - 1) heap) as [|returnitem rest] eqn:Htake.
  - injection H as <- <-. by rewrite Hsplit.
  - inv_bind H. injection H as <- <-. apply _siftup_perm in Ha0.
    rewrite Hsplit, Ha0. simpl.
    constructor. apply Permutation_app_comm.
Qed.

(** *** No exception without a failing comparison *)

Local Abbreviation comparable := (comparable lt).

Lemma elem_of_insert_inv (l : list A) i x y :
  y ∈ <[i := x]> l -> y = x \/ y ∈ l.
Proof.
  intros Hy. apply list_elem_of_lookup in Hy as [j Hj].
  destruct (decide (i = j)) as [->|Hne].
  - destruct (decide (j < length l)).
    + rewrite list_lookup_insert_eq in Hj by done. left. congruence.
    + rewrite list_insert_ge in Hj by lia. right. by eapply list_elem_of_lookup_2.
  - rewrite list_lookup_insert_ne in Hj by done. right. by eapply list_elem_of_lookup_2.
Qed.

Lemma _siftdown_loop_ok fuel : forall heap startpos pos newitem,
  pos < length heap ->
  (forall y, y ∈ heap -> is_Ok (lt newitem y)) ->
  is_Ok (_siftdown_loop lt fuel heap startpos pos newitem).
Proof.
  induction fuel as [|fuel IH]; intros heap startpos pos newitem Hpos Hcmp.
  - by eexists.
  - rewrite _siftdown_loop_S.
    destruct (decide (startpos < pos)) as [Hlt|]; [|by eexists].
    assert ((pos - 1) / 2 < pos) as Hp by (apply parent_lt; lia).
    destruct (getitem_lt heap ((pos - 1) / 2)) as (parent & -> & Hparent); [lia|].
    rsimpl. apply list_elem_of_lookup_2 in Hparent as Hin.
    destruct (Hcmp parent Hin) as [b ->]. rsimpl.
    destruct b; [|by eexists].
    apply IH; [rewrite length_insert; lia|].
    intros y Hy. apply elem_of_insert_inv in Hy as [->|Hy]; auto.
Qed.

Lemma _siftdown_ok heap startpos pos :
  pos < length heap -> comparable heap ->
  is_Ok (_siftdown lt heap startpos pos).
Proof.
  intros Hpos Hcmp. unfold _siftdown.
  destruct (getitem_lt heap pos Hpos) as (newitem & -> & Hnew). rsimpl.
  apply _siftdown_loop_ok; [done|].
  intros y Hy. apply Hcmp; [by eapply list_elem_of_lookup_2 | done].
Qed.

Lemma comparable_insert heap pos x :
  comparable heap -> x ∈ heap -> comparable (<[pos := x]> heap).
Proof.
  intros Hcmp Hx a b Ha Hb.
  apply elem_of_insert_inv in Ha as [->|Ha];
    apply elem_of_insert_inv in Hb as [->|Hb]; by apply Hcmp.
Qed.

Lemma _siftup_loop_ok fuel : forall heap pos,
  comparable heap ->
  is_Ok (_siftup_loop lt fuel heap (length heap) pos).
Proof.
  induction fuel as [|fuel IH]; intros heap pos Hcmp.
  - by eexists.
  - rewrite _siftup_loop_S.
    destruct (decide (2 * pos + 1 < length heap)) as [Hlt|]; [|by eexists].
    assert (exists childpos', childpos' < length heap /\
      (if decide (2 * pos + 1 + 1 < length heap) then
         c ← getitem heap (2 * pos + 1);
         r ← getitem heap (2 * pos + 1 + 1);
         b ← lt c r;
         Ok (if b : bool then 2 * pos + 1 else 2 * pos + 1 + 1)
       else Ok (2 * pos + 1)) = Ok childpos') as (childpos' & Hc & ->).
    { destruct (decide (2 * pos + 1 + 1 < length heap)) as [Hr|];
        [|eexists; split; [|reflexivity]; lia].
      destruct (getitem_lt heap (2 * pos + 1) Hlt) as (c & -> & Hc).
      destruct (getitem_lt heap (2 * pos + 1 + 1) Hr) as (r & -> & Hr').
      rsimpl.
      destruct (Hcmp c r) as [b ->]; [by eapply list_elem_of_lookup_2 ..|].
      rsimpl. destruct b; eexists; (split; [|reflexivity]); lia. }
    rsimpl. destruct (getitem_lt heap childpos' Hc) as (child & -> & Hchild).
    rsimpl. specialize (IH (<[pos := child]> heap) childpos').
    rewrite length_insert in IH. apply IH.
    apply comparable_insert; [done | by eapply list_elem_of_lookup_2].
Qed.

Lemma comparable_perm l l' : l ≡ₚ l' -> comparable l -> comparable l'.
Proof. intros Hp Hcmp x y Hx Hy. apply Hcmp; by rewrite Hp. Qed.

Lemma _siftup_ok heap pos :
  pos < length heap -> comparable heap -> is_Ok (_siftup lt heap pos).
Proof.
  intros Hpos Hcmp. unfold _siftup.
  destruct (getitem_lt heap pos Hpos) as (newitem & -> & Hnew). rsimpl.
  destruct (_siftup_loop_ok (length heap) heap pos Hcmp) as [[heap' pos'] Hloop].
  rewrite Hloop. rsimpl.
  apply _siftup_loop_perm in Hloop as (Hlen & Hp' & Hperm); [|done].
  apply _siftdown_ok; [rewrite length_insert; lia|].
  eapply comparable_perm; [|exact Hcmp].
  rewrite Hperm. by rewrite list_insert_id.
Qed.

Lemma heappush_ok heap item :
  comparable (item :: heap) -> is_Ok (heappush lt heap item).
Proof.
  intros Hcmp. unfold heappush. apply _siftdown_ok.
  - rewrite length_app. simpl. lia.
  - eapply comparable_perm; [|exact Hcmp]. by rewrite Permutation_app_comm.
Qed.

Lemma heappop_ok heap :
  heap <> [] -> comparable heap -> is_Ok (heappop lt heap).
Proof.
  intros Hne Hcmp. unfold heappop.
  assert (length heap - 1 < length heap) as Hlast
    by (destruct heap; [done | simpl; lia]).
  destruct (getitem_lt heap _ Hlast) as (lastelt & -> & Hl). rsimpl.
  destruct (take (length heap - 1) heap) as [|returnitem rest] eqn:Htake; [by eexists|].
  destruct (_siftup_ok (<[0 := lastelt]> (returnitem :: rest)) 0) as [h ->].
  - simpl. lia.
  - intros x y Hx Hy. apply Hcmp.
    + apply elem_of_insert_inv in Hx as [->|Hx]; [by eapply list_elem_of_lookup_2|].
      rewrite <- Htake in Hx. by eapply subseteq_take.
    + apply elem_of_insert_inv in Hy as [->|Hy]; [by eapply list_elem_of_lookup_2|].
      rewrite <- Htake in Hy. by eapply subseteq_take.
  - rsimpl. by eexists.
Qed.

(** *** The fuel of the two loops is never what stops them *)

Lemma _siftdown_loop_fuel fuel : forall fuel' heap startpos pos newitem,
  pos <= fuel -> pos <= fuel' ->
  _siftdown_loop lt fuel heap startpos pos newitem =
  _siftdown_loop lt fuel' heap startpos pos newitem.
Proof.
  induction fuel as [|fuel IH]; intros [|fuel'] heap startpos pos newitem H1 H2;
    try reflexivity.
  - rewrite _siftdown_loop_S. destruct (decide (startpos < pos)); [lia | done].
  - rewrite _siftdown_loop_S. destruct (decide (startpos < pos)); [lia | done].
  - rewrite !_siftdown_loop_S.
    destruct (decide (startpos < pos)) as [Hlt|]; [|done].
    assert ((pos - 1) / 2 < pos) as Hp by (apply parent_lt; lia).
    destruct (getitem heap ((pos - 1) / 2)); [|done]. rsimpl.
    destruct (lt newitem a) as [[]|]; rsimpl; try done.
    apply IH; lia.
Qed.

Lemma _siftup_loop_fuel fuel : forall fuel' heap endpos pos,
  endpos <= fuel + pos -> endpos <= fuel' + pos ->
  _siftup_loop lt fuel heap endpos pos = _siftup_loop lt fuel' heap endpos pos.
Proof.
  induction fuel as [|fuel IH]; intros [|fuel'] heap endpos pos H1 H2;
    try reflexivity.
  - rewrite _siftup_loop_S. destruct (decide (2 * pos + 1 < endpos)); [lia | done].
  - rewrite _siftup_loop_S. destruct (decide (2 * pos + 1 < endpos)); [lia | done].
  - rewrite !_siftup_loop_S.
    destruct (decide (2 * pos + 1 < endpos)) as [Hlt|]; [|done].
    destruct (decide (2 * pos + 1 + 1 < endpos)).
    + destruct (getitem heap (2 * pos + 1)); [|done]. rsimpl.
      destruct (getitem heap (2 * pos + 1 + 1)); [|done]. rsimpl.
      destruct (lt a a0) as [[]|]; rsimpl; try done.
      * destruct (getitem heap (2 * pos + 1)); [|done]. rsimpl. apply IH; lia.
      * destruct (getitem heap (2 * pos + 1 + 1)); [|done]. rsimpl. apply IH; lia.
    + rsimpl. destruct (getitem heap (2 * pos + 1)); [|done]. rsimpl. apply IH; lia.
Qed.

End heapq_facts.

(** ** heapq keeps the heap order *)

Section heap_order.
Context {A : Type} (lt : A -> A -> result bool).
(** [R x y]: [x] is not after [y]; [P]: the items [lt] orders. *)
Variable R : A -> A -> Prop.
Variable P : A -> Prop.
Hypothesis R_refl : forall x, P x -> R x x.
Hypothesis R_trans : forall x y z, R x y -> R y z -> R x z.
Hypothesis lt_true : forall x y, P x -> P y -> lt x y = Ok true -> R x y.
Hypothesis lt_false : forall x y, P x -> P y -> lt x y = Ok false -> R y x.

Lemma child_of_parent pos : 0 < pos -> child_of ((pos - 1) / 2) pos.
Proof.
  intros Hpos. unfold child_of.
  pose proof (Nat.div_mod_eq (pos - 1) 2) as Hdm.
  pose proof (Nat.mod_upper_bound (pos - 1) 2) as Hm.
  remember ((pos - 1) / 2) as q. remember ((pos - 1) mod 2) as r. lia.
Qed.

Local Abbreviation heap_ordered := (heap_ordered R).

Local Abbreviation ordered_above := (ordered_above R).

Local Abbreviation ordered_around := (ordered_around R).

Lemma list_lookup_insert_inv (h : list A) i j x y :
  <[i := x]> h !! j = Some y ->
  (j = i /\ y = x /\ i < length h) \/ (j <> i /\ h !! j = Some y).
Proof.
  intros H. destruct (decide (j = i)) as [->|Hne].
  - left. apply lookup_lt_Some in H as Hlt. rewrite length_insert in Hlt.
    rewrite list_lookup_insert_eq in H by done. split; [done|]. split; [congruence | done].
  - right. by rewrite list_lookup_insert_ne in H by done.
Qed.

Lemma Forall_insert_elem (h : list A) i x : Forall P h -> P x -> Forall P (<[i := x]> h).
Proof.
  intros Hall Hx. apply Forall_forall. intros y Hy.
  apply elem_of_insert_inv in Hy as [->|Hy]; [done|].
  by eapply Forall_forall in Hall.
Qed.

Lemma _siftdown_loop_ordered fuel : forall heap pos newitem heap',
  pos <= fuel -> pos < length heap -> Forall P heap -> P newitem ->
  ordered_above (<[pos := newitem]> heap) pos ->
  _siftdown_loop lt fuel heap 0 pos newitem = Ok heap' ->
  heap_ordered heap'.
Proof.
  assert (forall heap newitem, ordered_above (<[0 := newitem]> heap) 0 ->
    heap_ordered (<[0 := newitem]> heap)) as Hzero.
  { intros heap newitem [H1 _] p c x y Hc. apply H1; [done|]. destruct Hc; lia. }
  induction fuel as [|fuel IH]; intros heap pos newitem heap' Hfuel Hpos Hall Hnew Hord H.
  - injection H as <-. assert (pos = 0) as -> by lia. by apply Hzero.
  - rewrite _siftdown_loop_S in H.
    destruct (decide (0 < pos)) as [Hlt|];
      [|injection H as <-; assert (pos = 0) as -> by lia; by apply Hzero].
    pose proof (child_of_parent pos Hlt) as Hchild.
    remember ((pos - 1) / 2) as p eqn:Hp. clear Hp.
    assert (p < pos) as Hppos by (destruct Hchild; lia).
    inv_bind H. apply getitem_Ok in Ha. rename a into parent.
    assert (P parent) as Hparent
      by (eapply Forall_forall in Hall; [done | by eapply list_elem_of_lookup_2]).
    inv_bind H. destruct Hord as [Hord1 Hord2]. destruct a.
    + eapply (IH (<[pos := parent]> heap) p newitem);
        [lia | rewrite length_insert; lia | | done | | done].
      { apply Forall_insert_elem; done. }
      pose proof (lt_true _ _ Hnew Hparent Ha0) as Hnp.
      assert (forall j z, j <> p -> j <> pos ->
        <[p := newitem]> (<[pos := parent]> heap) !! j = Some z ->
        <[pos := newitem]> heap !! j = Some z) as Hsame.
      { intros j z Hjp Hjpos Hj. by rewrite !list_lookup_insert_ne in * by done. }
      assert (<[pos := newitem]> heap !! p = Some parent) as Hvp
        by (by rewrite list_lookup_insert_ne by lia).
      assert (forall z, <[p := newitem]> (<[pos := parent]> heap) !! pos = Some z ->
        z = parent) as Hatpos.
      { intros z Hz. rewrite list_lookup_insert_ne in Hz by lia.
        rewrite list_lookup_insert_eq in Hz by done. congruence. }
      assert (forall z, <[p := newitem]> (<[pos := parent]> heap) !! p = Some z ->
        z = newitem) as Hatp.
      { intros z Hz. rewrite list_lookup_insert_eq in Hz by (rewrite length_insert; lia).
        congruence. }
      split.
      * intros q c x y Hqc Hcp Hq Hcv.
        destruct (decide (c = pos)) as [->|Hcpos].
        { assert (q = p) as -> by (destruct Hqc, Hchild; lia).
          apply Hatp in Hq as ->. apply Hatpos in Hcv as ->. done. }
        destruct (decide (q = pos)) as [->|Hqpos].
        { apply Hatpos in Hq as ->. apply Hsame in Hcv; [|done..].
          by eapply (Hord2 p c). }
        destruct (decide (q = p)) as [->|Hqp].
        { apply Hatp in Hq as ->. apply Hsame in Hcv; [|done..].
          eapply R_trans; [exact Hnp|]. by eapply (Hord1 p c). }
        apply Hsame in Hq; [|done..]. apply Hsame in Hcv; [|done..].
        by eapply (Hord1 q c).
      * intros g c x y Hgp Hpc Hg Hcv.
        assert (g <> p /\ g <> pos) as [Hg1 Hg2] by (destruct Hgp; lia).
        apply Hsame in Hg; [|done..].
        assert (R x parent) as Hxp by (by eapply (Hord1 g p); [| lia | |]).
        destruct (decide (c = pos)) as [->|Hcpos].
        { apply Hatpos in Hcv as ->. done. }
        apply Hsame in Hcv; [|destruct Hpc; lia | done].
        eapply R_trans; [exact Hxp|]. by eapply (Hord1 p c).
    + injection H as <-. pose proof (lt_false _ _ Hnew Hparent Ha0) as Hpn.
      intros q c x y Hqc Hq Hcv.
      destruct (decide (c = pos)) as [->|Hcpos]; [|by eapply (Hord1 q c)].
      assert (q = p) as -> by (destruct Hqc, Hchild; lia).
      rewrite list_lookup_insert_ne in Hq by lia.
      rewrite list_lookup_insert_eq in Hcv by done. congruence.
Qed.

Lemma _siftdown_ordered heap pos heap' :
  pos < length heap -> Forall P heap -> ordered_above heap pos ->
  _siftdown lt heap 0 pos = Ok heap' -> heap_ordered heap'.
Proof.
  intros Hpos Hall Hord H. unfold _siftdown in H.
  inv_bind H. apply getitem_Ok in Ha.
  eapply _siftdown_loop_ordered; [| done | done | | | done]; [done | |].
  - eapply Forall_forall in Hall; [done | by eapply list_elem_of_lookup_2].
  - by rewrite list_insert_id.
Qed.

Lemma heappush_ordered heap item heap' :
  heap_ordered heap -> Forall P heap -> P item ->
  heappush lt heap item = Ok heap' -> heap_ordered heap'.
Proof.
  intros Hord Hall Hitem H. unfold heappush in H.
  rewrite length_app in H. simpl in H.
  replace (length heap + 1 - 1) with (length heap) in H by lia.
  eapply _siftdown_ordered; [| | | done].
  - rewrite length_app. simpl. lia.
  - apply Forall_app. split; [done | by constructor].
  - split.
    + intros p c x y Hpc Hc Hp Hcv.
      assert (c < length heap).
      { apply lookup_lt_Some in Hcv. rewrite length_app in Hcv. simpl in Hcv. lia. }
      rewrite lookup_app_l in Hcv by done.
      rewrite lookup_app_l in Hp by (destruct Hpc; lia).
      by eapply (Hord p c).
    + intros g c x y _ Hpc _ Hcv.
      apply lookup_lt_Some in Hcv. rewrite length_app in Hcv. simpl in Hcv.
      destruct Hpc; lia.
Qed.

Lemma _siftup_loop_ordered fuel : forall heap pos heap' pos',
  length heap <= fuel + pos -> Forall P heap ->
  ordered_around heap pos ->
  _siftup_loop lt fuel heap (length heap) pos = Ok (heap', pos') ->
  ordered_around heap' pos' /\ Forall P heap' /\
  (forall c, child_of pos' c -> length heap' <= c).
Proof.
  induction fuel as [|fuel IH]; intros heap pos heap' pos' Hfuel Hall Hord H.
  - injection H as <- <-. split; [done|]. split; [done|].
    intros c Hc. destruct Hc; simpl in *; lia.
  - rewrite _siftup_loop_S in H.
    destruct (decide (2 * pos + 1 < length heap)) as [Hlt|Hge].
    2:{ injection H as <- <-. split; [done|]. split; [done|].
        intros c Hc. destruct Hc; lia. }
    inv_bind H. rename a into c. inv_bind H. apply getitem_Ok in Ha0. rename a into child.
    assert (child_of pos c /\
      forall s y, child_of pos s -> s <> c -> heap !! s = Some y -> R child y) as [Hc Hsib].
    { destruct (decide (2 * pos + 1 + 1 < length heap)) as [Hr|Hr].
      - inv_bind Ha. apply getitem_Ok in Ha1. rename a into l.
        inv_bind Ha. apply getitem_Ok in Ha2. rename a into r.
        inv_bind Ha.
        assert (P l) by (eapply Forall_forall in Hall; [done | by eapply list_elem_of_lookup_2]).
        assert (P r) by (eapply Forall_forall in Hall; [done | by eapply list_elem_of_lookup_2]).
        destruct a.
        + assert (c = 2 * pos + 1) as -> by (injection Ha as Hx; symmetry; exact Hx).
          split; [by left|]. intros s y Hs Hsc Hy.
          assert (s = 2 * pos + 1 + 1) as -> by (destruct Hs; lia).
          assert (child = l) as -> by congruence. assert (y = r) as -> by congruence.
          by apply lt_true.
        + assert (c = 2 * pos + 1 + 1) as -> by (injection Ha as Hx; symmetry; exact Hx).
          split; [right; lia|]. intros s y Hs Hsc Hy.
          assert (s = 2 * pos + 1) as -> by (destruct Hs; lia).
          assert (child = r) as -> by congruence. assert (y = l) as -> by congruence.
          by apply lt_false.
      - injection Ha as <-. split; [by left|]. intros s y Hs Hsc Hy.
        apply lookup_lt_Some in Hy. destruct Hs; lia. }
    assert (pos < c) as Hposc by (destruct Hc; lia).
    assert (P child) as Hchild
      by (eapply Forall_forall in Hall; [done | by eapply list_elem_of_lookup_2]).
    specialize (IH (<[pos := child]> heap) c heap' pos').
    rewrite length_insert in IH. apply IH; [lia | by apply Forall_insert_elem | | done].
    destruct Hord as [Hord1 Hord2].
    assert (forall z, <[pos := child]> heap !! pos = Some z -> z = child) as Hatpos.
    { intros z Hz. apply lookup_lt_Some in Hz as Hl. rewrite length_insert in Hl.
      rewrite list_lookup_insert_eq in Hz by done. congruence. }
    split.
    + intros q k x y Hqk Hkc Hqc Hq Hk.
      destruct (decide (k = pos)) as [->|Hkpos].
      { apply Hatpos in Hk as ->.
        rewrite list_lookup_insert_ne in Hq by (destruct Hqk; lia).
        by eapply (Hord2 q c). }
      rewrite list_lookup_insert_ne in Hk by done.
      destruct (decide (q = pos)) as [->|Hqpos].
      { apply Hatpos in Hq as ->. by eapply (Hsib k). }
      rewrite list_lookup_insert_ne in Hq by done.
      by eapply (Hord1 q k).
    + intros g k x y Hgc Hck Hg Hk.
      assert (g = pos) as -> by (destruct Hgc, Hc; lia).
      apply Hatpos in Hg as ->.
      rewrite list_lookup_insert_ne in Hk by (destruct Hck; lia).
      eapply (Hord1 c k); [done | destruct Hck; lia | lia | done | done].
Qed.

Lemma _siftup_ordered heap heap' :
  0 < length heap -> Forall P heap -> ordered_around heap 0 ->
  _siftup lt heap 0 = Ok heap' -> heap_ordered heap'.
Proof.
  intros Hlen Hall Hord H. unfold _siftup in H.
  inv_bind H. apply getitem_Ok in Ha. rename a into newitem.
  assert (P newitem) as Hnew
    by (eapply Forall_forall in Hall; [done | by eapply list_elem_of_lookup_2]).
  inv_bind H. destruct a as [h pos].
  pose proof (_siftup_loop_perm lt _ _ _ _ _ Hlen Ha0) as (Hlenh & Hpos & _).
  apply _siftup_loop_ordered in Ha0 as ([Ho1 Ho2] & Hallh & Hleaf); [|lia | done | done].
  eapply _siftdown_ordered; [| | | done].
  - rewrite length_insert. lia.
  - by apply Forall_insert_elem.
  - split.
    + intros p c x y Hpc Hc Hp Hcv.
      rewrite list_lookup_insert_ne in Hcv by done.
      destruct (decide (p = pos)) as [->|Hppos].
      * apply lookup_lt_Some in Hcv. specialize (Hleaf c Hpc). lia.
      * rewrite list_lookup_insert_ne in Hp by done. by eapply (Ho1 p c).
    + intros g c x y _ Hpc _ Hcv.
      apply lookup_lt_Some in Hcv. rewrite length_insert in Hcv.
      specialize (Hleaf c Hpc). lia.
Qed.

Lemma heap_ordered_take n heap : heap_ordered heap -> heap_ordered (take n heap).
Proof.
  intros Hord p c x y Hpc Hp Hc.
  apply lookup_take_Some in Hp as [Hp _]. apply lookup_take_Some in Hc as [Hc _].
  by eapply (Hord p c).
Qed.

(** The root is not after any item. *)
Lemma root_first heap root :
  heap_ordered heap -> Forall P heap -> heap !! 0 = Some root ->
  forall y, y ∈ heap -> R root y.
Proof.
  intros Hord Hall Hroot y Hy. apply list_elem_of_lookup in Hy as [k Hk].
  revert y Hk. induction k as [k IH] using lt_wf_ind. intros y Hk.
  destruct (decide (k = 0)) as [->|Hnz].
  - assert (y = root) as -> by congruence. apply R_refl.
    eapply Forall_forall in Hall; [done | by eapply list_elem_of_lookup_2].
  - pose proof (child_of_parent k ltac:(lia)) as Hchild.
    remember ((k - 1) / 2) as p eqn:Hp. clear Hp.
    assert (p < k) as Hpk by (destruct Hchild; lia).
    destruct (lookup_lt_is_Some_2 heap p) as [z Hz];
      [apply lookup_lt_Some in Hk; lia|].
    eapply R_trans; [by apply (IH p Hpk z)|]. by eapply (Hord p k).
Qed.

Lemma heappop_ordered heap item heap' :
  heap_ordered heap -> Forall P heap ->
  heappop lt heap = Ok (item, heap') ->
  heap_ordered heap' /\ forall y, y ∈ heap' -> R item y.
Proof.
  intros Hord Hall H. pose proof (heappop_perm lt _ _ _ H) as Hperm.
  unfold heappop in H. inv_bind H. apply getitem_Ok in Ha. rename a into lastelt.
  destruct (take (length heap - 1) heap) as [|returnitem rest] eqn:Htake.
  - injection H as <- <-. split; [|intros y Hy; by apply elem_of_nil in Hy].
    intros p c x y _ Hp. by rewrite lookup_nil in Hp.
  - inv_bind H. injection H as <- <-.
    assert (heap !! 0 = Some returnitem) as Hroot.
    { apply (f_equal (fun l => l !! 0)) in Htake.
      apply lookup_lt_Some in Ha.
      destruct (decide (0 < length heap - 1)) as [Hl|Hl].
      - by rewrite lookup_take_lt in Htake by lia.
      - replace (length heap - 1) with 0 in Htake by lia. by rewrite take_0 in Htake. }
    split.
    + eapply _siftup_ordered; [| | | done].
      * simpl. lia.
      * apply Forall_insert_elem.
        -- rewrite <- Htake. by apply Forall_take.
        -- eapply Forall_forall in Hall; [done | by eapply list_elem_of_lookup_2].
      * pose proof (heap_ordered_take (length heap - 1) heap Hord) as Hord'.
        rewrite Htake in Hord'. split.
        -- intros p c x y Hpc Hc Hp Hpv Hcv.
           rewrite list_lookup_insert_ne in Hpv by done.
           rewrite list_lookup_insert_ne in Hcv by done.
           by eapply (Hord' p c).
        -- intros g c x y Hg. destruct Hg; lia.
    + intros y Hy. apply (root_first heap returnitem Hord Hall Hroot).
      rewrite Hperm. by right.
Qed.

End heap_order.

Module FloatFacts.
Import Float.

Lemma compare_cont_spec (p q : positive) :
  Pos.compare_cont Eq p q = (p ?= q)%positive.
Proof. reflexivity. Qed.

Lemma compare_swap (x y : float) :
  SFcompare x y = option_map CompOpp (SFcompare y x).
Proof.
  destruct x as [[]|[]| |[] mx ex], y as [[]|[]| |[] my ey]; simpl; try reflexivity.
  all: fold (Pos.compare mx my); fold (Pos.compare my mx).
  all: rewrite (Z.compare_antisym ex ey), (Pos.compare_antisym mx my).
  all: destruct (ex ?= ey)%Z; simpl; try reflexivity.
  all: destruct (mx ?= my)%positive; reflexivity.
Qed.

Lemma ltb_irrefl (x : float) : ltb x x = false.
Proof.
  unfold ltb, SFltb.
  destruct x as [[]|[]| |[] mx ex]; simpl; try reflexivity.
  all: fold (Pos.compare mx mx); rewrite Z.compare_refl, Pos.compare_refl; reflexivity.
Qed.

(** [not (y < x)] is [x <= y] unless one of them is NaN. *)
Lemma not_ltb_leb (x y : float) :
  is_nan x = false -> is_nan y = false -> ltb y x = false -> leb x y = true.
Proof.
  unfold ltb, leb, SFltb, SFleb. rewrite (compare_swap x y).
  destruct (SFcompare y x) as [[]|] eqn:Hc; simpl; try done.
  destruct x, y; simpl in *; try done; destruct s; try done; destruct s0; done.
Qed.

Lemma leb_not_ltb (x y : float) : leb x y = true -> ltb y x = false.
Proof.
  unfold ltb, leb, SFltb, SFleb. rewrite (compare_swap x y).
  destruct (SFcompare y x) as [[]|]; simpl; done.
Qed.

Lemma ltb_trans (x y z : float) :
  ltb x y = true -> ltb y z = true -> ltb x z = true.
Proof.
  unfold ltb, SFltb.
  destruct x as [[]|[]| |[] mx ex], y as [[]|[]| |[] my ey], z as [[]|[]| |[] mz ez];
    simpl; try done.
  all: fold (Pos.compare mx my); fold (Pos.compare my mz); fold (Pos.compare mx mz).
  all: destruct (Z.compare_spec ex ey), (Z.compare_spec ey ez), (Z.compare_spec ex ez);
    try done; try lia.
  all: subst; destruct (Pos.compare_spec mx my), (Pos.compare_spec my mz),
    (Pos.compare_spec mx mz); simpl; try done; try lia.
Qed.

Lemma leb_ltb_trans (x y z : float) :
  leb x y = true -> ltb y z = true -> ltb x z = true.
Proof.
  unfold ltb, leb, SFltb, SFleb.
  destruct x as [[]|[]| |[] mx ex], y as [[]|[]| |[] my ey], z as [[]|[]| |[] mz ez];
    simpl; try done.
  all: fold (Pos.compare mx my); fold (Pos.compare my mz); fold (Pos.compare mx mz).
  all: destruct (Z.compare_spec ex ey), (Z.compare_spec ey ez), (Z.compare_spec ex ez);
    try done; try lia.
  all: subst; destruct (Pos.compare_spec mx my), (Pos.compare_spec my mz),
    (Pos.compare_spec mx mz); simpl; try done; try lia.
Qed.

End FloatFacts.

Module FloatSym.
Import Float.

Lemma opp_involutive x : opp (opp x) = x.
Proof. destruct x as [[]|[]| |[] ? ?]; reflexivity. Qed.

Lemma binary_round_aux_opp s m e l :
  binary_round_aux prec emax (negb s) m e l = opp (binary_round_aux prec emax s m e l).
Proof.
  unfold binary_round_aux.
  destruct (shr_fexp prec emax m e l) as [mrs' e'].
  destruct (shr_fexp prec emax _ e' loc_Exact) as [mrs'' e''].
  destruct (shr_m mrs''); [reflexivity | | reflexivity].
  destruct (e'' <=? emax - prec)%Z; reflexivity.
Qed.

Lemma binary_round_opp s m e :
  binary_round prec emax (negb s) m e = opp (binary_round prec emax s m e).
Proof.
  unfold binary_round.
  destruct (shl_align m e _) as [mz ez]. apply binary_round_aux_opp.
Qed.

Lemma mul_opp_l x y : mul (opp x) y = opp (mul x y).
Proof.
  destruct x as [sx|sx| |sx mx ex], y as [sy|sy| |sy my ey]; simpl;
    rewrite <- ?negb_xorb_l; try reflexivity.
  apply binary_round_aux_opp.
Qed.

Lemma div_opp_l x y : div (opp x) y = opp (div x y).
Proof.
  destruct x as [sx|sx| |sx mx ex], y as [sy|sy| |sy my ey]; simpl;
    rewrite <- ?negb_xorb_l; try reflexivity.
  destruct (SFdiv_core_binary prec emax (Z.pos mx) ex (Z.pos my) ey) as [[mz ez] lz].
  apply binary_round_aux_opp.
Qed.

Lemma mul_comm x y : mul x y = mul y x.
Proof.
  destruct x as [sx|sx| |sx mx ex], y as [sy|sy| |sy my ey]; simpl;
    try (by rewrite (xorb_comm sx sy)); try reflexivity.
  by rewrite (xorb_comm sx sy), Pos.mul_comm, Z.add_comm.
Qed.

(** Swapping the operands of a subtraction negates the result, except
    that [x - x] is [+0.0] both ways. *)
Lemma sub_swap x y :
  sub y x = opp (sub x y) \/ sub x y = sub y x.
Proof.
  destruct x as [sx|sx| |sx mx ex], y as [sy|sy| |sy my ey];
    try (destruct sx; simpl; auto; destruct sy; simpl; auto; fail);
    try (destruct sy; simpl; auto; fail); try (simpl; auto; fail).
  unfold sub, SFsub. rewrite (Z.min_comm ey ex).
  set (a := cond_Zopp sx _). set (b := cond_Zopp sy _).
  replace (b - a)%Z with (- (a - b))%Z by lia.
  destruct (a - b)%Z as [|p|p]; simpl; auto; left.
  - apply (binary_round_opp false).
  - apply (binary_round_opp true).
Qed.

End FloatSym.

Module FloatOrder.
Import Float.

Lemma ltb_leb x y : ltb x y = true -> leb x y = true.
Proof. unfold ltb, leb, SFltb, SFleb. by destruct (SFcompare x y) as [[]|]. Qed.

Lemma eqb_leb_swap x y : eqb x y = true -> leb y x = true.
Proof.
  unfold eqb, leb, SFeqb, SFleb. rewrite (FloatFacts.compare_swap y x).
  by destruct (SFcompare x y) as [[]|].
Qed.

Lemma leb_refl x : is_nan x = false -> leb x x = true.
Proof.
  intros Hx. apply FloatFacts.not_ltb_leb; [done..|]. apply FloatFacts.ltb_irrefl.
Qed.

Lemma leb_not_nan x y : leb x y = true -> is_nan x = false /\ is_nan y = false.
Proof. unfold leb, SFleb. by destruct x, y. Qed.

Lemma leb_trans x y z : leb x y = true -> leb y z = true -> leb x z = true.
Proof.
  intros Hxy Hyz.
  destruct (leb_not_nan _ _ Hxy) as [Hx _], (leb_not_nan _ _ Hyz) as [_ Hz].
  apply FloatFacts.not_ltb_leb; [done..|].
  destruct (ltb z x) eqn:Hzx; [|done].
  pose proof (FloatFacts.leb_ltb_trans _ _ _ Hyz Hzx) as Hyx.
  by rewrite (FloatFacts.leb_not_ltb _ _ Hxy) in Hyx.
Qed.
End FloatOrder.

Tactic Notation "hsimpl" := cbn [mbind result_bind mret result_ret or_raise].

(** [haversine] is the composition of its terms, and every term is
    symmetric in the two points. *)
Section HaversineTerms.
Import FloatSym.
Variables math_sin math_cos : float -> option float.
Variable math_atan2 : float -> float -> float.
Variable float_pow : float -> float -> option float.

Local Abbreviation sin_squared := (sin_squared math_sin float_pow).

Local Abbreviation hav_term := (hav_term math_sin float_pow).

Local Abbreviation cos_cos := (cos_cos math_cos).

Local Abbreviation term_a := (term_a math_sin math_cos float_pow).

Local Abbreviation term_c := (term_c math_atan2).

Local Abbreviation haversine_terms :=
  (haversine_terms math_sin math_cos math_atan2 float_pow).

Lemma haversine_by_terms lat1 lon1 lat2 lon2 :
  haversine math_sin math_cos math_atan2 float_pow lat1 lon1 lat2 lon2 =
  haversine_terms lat1 lon1 lat2 lon2.
Proof.
  unfold haversine, haversine_terms, term_a, term_c, hav_term, sin_squared, cos_cos.
  destruct (math_sin (Float.div (math_radians (Float.sub lat2 lat1)) _)) as [s1|]; [|reflexivity].
  hsimpl. destruct (float_pow s1 _) as [p1|]; [|reflexivity].
  hsimpl. destruct (math_cos (math_radians lat1)) as [c1|]; [|reflexivity].
  hsimpl. destruct (math_cos (math_radians lat2)) as [c2|]; [|reflexivity].
  hsimpl. destruct (math_sin (Float.div (math_radians (Float.sub lon2 lon1)) _)) as [s2|]; [|reflexivity].
  hsimpl. destruct (float_pow s2 _) as [p2|]; [|reflexivity].
  hsimpl. destruct (math_sqrt (Float.add p1 _)) as [ra|]; [|reflexivity].
  hsimpl. destruct (math_sqrt _) as [rb|]; reflexivity.
Qed.

Hypothesis sin_odd : forall x, math_sin (Float.opp x) = Float.opp <$> math_sin x.
Hypothesis square_even : forall x,
  float_pow (Float.opp x) (Float.of_Z 2) = float_pow x (Float.of_Z 2).

Lemma hav_term_swap x y : hav_term (Float.sub y x) = hav_term (Float.sub x y).
Proof.
  destruct (sub_swap x y) as [H|H]; [|by rewrite H].
  unfold hav_term, sin_squared, math_radians.
  rewrite H, mul_opp_l, div_opp_l, sin_odd.
  destruct (math_sin _) as [s|]; [|done].
  cbn [fmap option_fmap option_map]. hsimpl. by rewrite square_even.
Qed.

Lemma cos_cos_swap x y : cos_cos x y = cos_cos y x.
Proof.
  unfold cos_cos.
  destruct (math_cos (math_radians x)) as [c1|], (math_cos (math_radians y)) as [c2|];
    hsimpl; try done.
  by rewrite mul_comm.
Qed.

Lemma haversine_swap lat1 lon1 lat2 lon2 :
  haversine math_sin math_cos math_atan2 float_pow lat1 lon1 lat2 lon2 =
  haversine math_sin math_cos math_atan2 float_pow lat2 lon2 lat1 lon1.
Proof.
  rewrite !haversine_by_terms. unfold haversine_terms, term_a.
  by rewrite (hav_term_swap lat1 lat2), (hav_term_swap lon1 lon2), (cos_cos_swap lat1 lat2).
Qed.
End HaversineTerms.

(** ** The selector: what one link does *)

Lemma get_neighbors_Ok m s : get_neighbors m = Ok s <-> _neighbors m = Some s.
Proof. unfold get_neighbors. destruct (_neighbors m); split; congruence. Qed.

Lemma link_inv values i k d values' :
  i <> k -> link values i k d = Ok values' ->
  exists m1 m2 s1 s2,
    values !! i = Some m1 /\ values !! k = Some m2 /\
    _neighbors m1 = Some s1 /\ _neighbors m2 = Some s2 /\
    values' = <[k := linked m2 (code m1) d s2]> (<[i := linked m1 (code m2) d s1]> values).
Proof.
  intros Hne H. unfold link in H.
  inv_bind H. apply getitem_Ok in Ha. rename a into m1.
  inv_bind H. apply getitem_Ok in Ha0. rename a into m2.
  inv_bind H. apply get_neighbors_Ok in Ha1. rename a into s1.
  inv_bind H. apply getitem_Ok in Ha2.
  rewrite list_lookup_insert_ne in Ha2 by done.
  assert (a = m2) as -> by congruence.
  inv_bind H. apply get_neighbors_Ok in Ha3. rename a into s2.
  injection H as <-. exists m1, m2, s1, s2. done.
Qed.

Lemma link_Ok values i k m1 m2 s1 s2 d :
  i <> k -> values !! i = Some m1 -> values !! k = Some m2 ->
  _neighbors m1 = Some s1 -> _neighbors m2 = Some s2 ->
  link values i k d =
    Ok (<[k := linked m2 (code m1) d s2]> (<[i := linked m1 (code m2) d s1]> values)).
Proof.
  intros Hne H1 H2 Hs1 Hs2. unfold link.
  apply getitem_Ok in H1 as ->. rsimpl.
  apply getitem_Ok in H2 as Hg. rewrite Hg. rsimpl.
  apply get_neighbors_Ok in Hs1 as ->. rsimpl.
  unfold getitem. rewrite list_lookup_insert_ne by done.
  unfold getitem in Hg. destruct (values !! k); [|done]. injection Hg as ->. rsimpl.
  apply get_neighbors_Ok in Hs2 as ->. done.
Qed.

(** ** Well-formed stores *)

Lemma grows_refl m : grows m m.
Proof. by repeat split. Qed.

Lemma grows_trans m1 m2 m3 : grows m1 m2 -> grows m2 m3 -> grows m1 m3.
Proof.
  intros (?&?&?&?) (?&?&?&?). repeat split; try congruence. by etrans.
Qed.

Lemma extends_refl values : extends values values.
Proof. split; [done|]. intros j m Hj. exists m. split; [done | apply grows_refl]. Qed.

Lemma extends_trans v1 v2 v3 : extends v1 v2 -> extends v2 v3 -> extends v1 v3.
Proof.
  intros [Hl1 H1] [Hl2 H2]. split; [congruence|].
  intros j m Hj. destruct (H1 j m Hj) as (m2 & Hj2 & Hg2).
  destruct (H2 j m2 Hj2) as (m3 & Hj3 & Hg3).
  exists m3. split; [done | by eapply grows_trans].
Qed.

Lemma extends_lookup_inv values values' j m' :
  extends values values' -> values' !! j = Some m' ->
  exists m, values !! j = Some m /\ grows m m'.
Proof.
  intros [Hlen H] Hj. apply lookup_lt_Some in Hj as Hlt. rewrite Hlen in Hlt.
  destruct (lookup_lt_is_Some_2 _ _ Hlt) as [m Hm].
  destruct (H j m Hm) as (m'' & Hj' & Hg). exists m. split; [done|]. congruence.
Qed.

Lemma grows_linked m other d s : grows m (linked m other d s).
Proof. repeat split. simpl. by apply prefix_app_r. Qed.

Lemma link_extends values i k d values' :
  i <> k -> link values i k d = Ok values' -> extends values values'.
Proof.
  intros Hne H. apply link_inv in H as (m1 & m2 & s1 & s2 & H1 & H2 & Hs1 & Hs2 & ->); [|done].
  apply lookup_lt_Some in H1 as Hi. apply lookup_lt_Some in H2 as Hk.
  split; [by rewrite !length_insert|].
  intros j m Hj. destruct (decide (j = k)) as [->|Hjk].
  - eexists. rewrite list_lookup_insert_eq by (by rewrite length_insert).
    split; [done|]. replace m with m2 by congruence. apply grows_linked.
  - rewrite list_lookup_insert_ne by done.
    destruct (decide (j = i)) as [->|Hji].
    + eexists. rewrite list_lookup_insert_eq by done.
      split; [done|]. replace m with m1 by congruence. apply grows_linked.
    + rewrite list_lookup_insert_ne by done. exists m. split; [done | apply grows_refl].
Qed.

Lemma edge_ok_extends values values' i m m' e :
  extends values values' -> code m' = code m ->
  edge_ok values i m e -> edge_ok values' i m' e.
Proof.
  intros [_ Hext] Hcode (Hfrom & k & mk & Hki & Hk & Hc & Hmir).
  split; [congruence|].
  destruct (Hext k mk Hk) as (mk' & Hk' & Hc' & _ & _ & Hpre).
  exists k, mk'. repeat split; try done; [congruence|].
  destruct Hpre as [extra ->]. apply elem_of_app. by left.
Qed.

Lemma seen_ok_linked m other d s :
  _neighbors m = Some s -> seen_ok m -> seen_ok (linked m other d s).
Proof.
  intros Hs (s' & Hs' & Hiff). assert (s' = s) as -> by congruence.
  exists (s ∪ {[other]}). split; [done|].
  intros c. simpl. rewrite fmap_app, elem_of_app, elem_of_union, Hiff. simpl.
  rewrite elem_of_singleton, list_elem_of_singleton. done.
Qed.

Lemma link_wf values i k d values' :
  i <> k -> wf values -> link values i k d = Ok values' -> wf values'.
Proof.
  intros Hne Hwf H. pose proof (link_extends _ _ _ _ _ Hne H) as Hext.
  apply link_inv in H as (m1 & m2 & s1 & s2 & H1 & H2 & Hs1 & Hs2 & ->); [|done].
  apply lookup_lt_Some in H1 as Hi. apply lookup_lt_Some in H2 as Hk.
  set (values' := <[k:=_]> _) in *.
  assert (values' !! k = Some (linked m2 (code m1) d s2)) as Hk'
    by (unfold values'; by rewrite list_lookup_insert_eq by (by rewrite length_insert)).
  assert (values' !! i = Some (linked m1 (code m2) d s1)) as Hi'.
  { unfold values'. rewrite list_lookup_insert_ne by done.
    by rewrite list_lookup_insert_eq by done. }
  intros j m Hj. destruct (decide (j = k)) as [->|Hjk]; [|destruct (decide (j = i)) as [->|Hji]].
  - assert (m = linked m2 (code m1) d s2) as -> by congruence.
    destruct (Hwf k m2 H2) as [Hseen Hedges]. split; [by apply seen_ok_linked|].
    intros e He. simpl in He. apply elem_of_app in He as [He|He].
    + eapply edge_ok_extends; [done | | by apply Hedges]. done.
    + apply list_elem_of_singleton in He as ->. split; [done|].
      exists i, (linked m1 (code m2) d s1). repeat split; try done.
      simpl. apply elem_of_app. right. by apply list_elem_of_singleton.
  - assert (m = linked m1 (code m2) d s1) as -> by congruence.
    destruct (Hwf i m1 H1) as [Hseen Hedges]. split; [by apply seen_ok_linked|].
    intros e He. simpl in He. apply elem_of_app in He as [He|He].
    + eapply edge_ok_extends; [done | | by apply Hedges]. done.
    + apply list_elem_of_singleton in He as ->. split; [done|].
      exists k, (linked m2 (code m1) d s2). repeat split; try done.
      simpl. apply elem_of_app. right. by apply list_elem_of_singleton.
  - unfold values' in Hj. rewrite !list_lookup_insert_ne in Hj by done.
    destruct (Hwf j m Hj) as [Hseen Hedges]. split; [done|].
    intros e He. eapply edge_ok_extends; [done | done | by apply Hedges].
Qed.

(** ** One round *)

Lemma accept_cons values i j js closenessHeap :
  accept values i (j :: js) closenessHeap =
  match closenessHeap with
  | [] => Ok values
  | _ =>
      '((distance, k), closenessHeap') ← heappop candidate_lt closenessHeap;
      if gate_breaks j distance then Ok values
      else values' ← link values i k distance; accept values' i js closenessHeap'
  end.
Proof. reflexivity. Qed.

Lemma link_effect values i k d values' m1 m2 :
  i <> k -> values !! i = Some m1 -> values !! k = Some m2 ->
  link values i k d = Ok values' ->
  round_effect i values values'
    [{| fromMuniCode := code m1; toMuniCode := code m2; distance := d |}].
Proof.
  intros Hne H1 H2 H.
  apply link_inv in H as (m1' & m2' & s1 & s2 & H1' & H2' & Hs1 & Hs2 & ->); [|done].
  assert (m1' = m1) as -> by congruence. assert (m2' = m2) as -> by congruence.
  apply lookup_lt_Some in H1 as Hi. apply lookup_lt_Some in H2 as Hk.
  split.
  - intros m Hm. assert (m = m1) as -> by congruence.
    eexists. rewrite list_lookup_insert_ne by done.
    rewrite list_lookup_insert_eq by done. done.
  - intros k' m m' Hk'i Hm Hm'. destruct (decide (k' = k)) as [->|Hk'k].
    + rewrite list_lookup_insert_eq in Hm' by (by rewrite length_insert).
      injection Hm' as <-. assert (m = m2) as -> by congruence.
      eexists. split; [done|]. intros e He.
      apply list_elem_of_singleton in He as ->. by apply list_elem_of_singleton.
    + rewrite !list_lookup_insert_ne in Hm' by done.
      assert (m' = m) as -> by congruence.
      exists []. split; [by rewrite app_nil_r|]. intros e He. by apply elem_of_nil in He.
Qed.

Lemma round_effect_id i values : round_effect i values values [].
Proof.
  split.
  - intros m Hm. exists m. by rewrite app_nil_r.
  - intros k m m' _ Hm Hm'. assert (m' = m) as -> by congruence.
    exists []. split; [by rewrite app_nil_r|]. intros e He. by apply elem_of_nil in He.
Qed.

Lemma round_effect_trans i v1 v2 v3 own1 own2 :
  extends v1 v2 ->
  round_effect i v1 v2 own1 -> round_effect i v2 v3 own2 ->
  round_effect i v1 v3 (own1 ++ own2).
Proof.
  intros Hext [Hi1 Hk1] [Hi2 Hk2]. split.
  - intros m Hm. destruct (Hi1 m Hm) as (m2 & Hm2 & He2).
    destruct (Hi2 m2 Hm2) as (m3 & Hm3 & He3).
    exists m3. split; [done|]. by rewrite He3, He2, app_assoc.
  - intros k m m3 Hki Hm Hm3.
    destruct Hext as [_ Hext]. destruct (Hext k m Hm) as (m2 & Hm2 & _).
    destruct (Hk1 k m m2 Hki Hm Hm2) as (x1 & He1 & Hx1).
    destruct (Hk2 k m2 m3 Hki Hm2 Hm3) as (x2 & He2 & Hx2).
    exists (x1 ++ x2). split; [by rewrite He2, He1, app_assoc|].
    intros e He. apply elem_of_app. apply elem_of_app in He as [He|He]; auto.
Qed.

Lemma heap_valid_pop i h x h' :
  heap_valid i h -> heappop candidate_lt h = Ok (x, h') ->
  x.2 <> i /\ heap_valid i h'.
Proof.
  intros Hv Hpop. apply heappop_perm in Hpop. split.
  - apply Hv. rewrite Hpop. by left.
  - intros y Hy. apply Hv. rewrite Hpop. by right.
Qed.

(** *** The order of the candidates *)

Lemma item_le_refl x : finite_item x -> item_le x x.
Proof. apply FloatOrder.leb_refl. Qed.

Lemma item_le_trans x y z : item_le x y -> item_le y z -> item_le x z.
Proof. apply FloatOrder.leb_trans. Qed.

Lemma candidate_lt_true x y :
  finite_item x -> finite_item y -> candidate_lt x y = Ok true -> item_le x y.
Proof.
  intros _ _. unfold candidate_lt, item_le.
  destruct (Float.eqb x.1 y.1); [by case_decide|].
  intros H. injection H as H. by apply FloatOrder.ltb_leb.
Qed.

Lemma candidate_lt_false x y :
  finite_item x -> finite_item y -> candidate_lt x y = Ok false -> item_le y x.
Proof.
  intros Hx Hy. unfold candidate_lt, item_le.
  destruct (Float.eqb x.1 y.1) eqn:Heq.
  - intros _. by apply FloatOrder.eqb_leb_swap.
  - intros H. injection H as H. by apply FloatFacts.not_ltb_leb.
Qed.

Lemma candidates_ordered_pop h x h' :
  candidates_ordered h -> heappop candidate_lt h = Ok (x, h') ->
  candidates_ordered h' /\ forall y, y ∈ h' -> item_le x y.
Proof.
  intros [Hord Hall] Hpop.
  destruct (heappop_ordered candidate_lt item_le finite_item item_le_refl item_le_trans
    candidate_lt_true candidate_lt_false h x h' Hord Hall Hpop) as [Hord' Hmin].
  split; [|done]. split; [done|].
  apply heappop_perm in Hpop. rewrite Hpop in Hall. by apply Forall_cons in Hall as [_ ?].
Qed.

Lemma candidates_ordered_push h x h' :
  candidates_ordered h -> finite_item x -> heappush candidate_lt h x = Ok h' ->
  candidates_ordered h'.
Proof.
  intros [Hord Hall] Hx Hpush. split.
  - by eapply (heappush_ordered candidate_lt item_le finite_item item_le_trans
      candidate_lt_true candidate_lt_false h x h').
  - apply heappush_perm in Hpush. rewrite Hpush. by constructor.
Qed.

Lemma block_ok_nil js h : block_ok js h [].
Proof.
  split; [simpl; lia|]. split; [intros n e Hn; by rewrite lookup_nil in Hn|].
  intros _. split; [intros n n' e e' _ Hn; by rewrite lookup_nil in Hn|].
  intros e He. by apply elem_of_nil in He.
Qed.

Lemma accept_spec i js : forall values h values',
  accept values i js h = Ok values' ->
  wf values -> heap_valid i h ->
  wf values' /\ extends values values' /\
  exists own,
    round_effect i values values' own /\ block_ok js h own /\
    (forall m e, values !! i = Some m -> e ∈ own -> fromMuniCode e = code m).
Proof.
  assert (forall values h js, wf values ->
    wf values /\ extends values values /\
    exists own, round_effect i values values own /\ block_ok js h own /\
      (forall m e, values !! i = Some m -> e ∈ own -> fromMuniCode e = code m)) as Hstop.
  { intros values h js' Hwf. split; [done|]. split; [apply extends_refl|].
    exists []. split; [apply round_effect_id|]. split; [apply block_ok_nil|].
    intros m e _ He. by apply elem_of_nil in He. }
  induction js as [|j js IH]; intros values h values' H Hwf Hv.
  - injection H as <-. by apply Hstop.
  - rewrite accept_cons in H. destruct h as [|x0 h0] eqn:Hh.
    { injection H as <-. by apply Hstop. }
    rewrite <- Hh in *. clear Hh x0 h0.
    inv_bind H. destruct a as [[d k] h'].
    destruct (heap_valid_pop _ _ _ _ Hv Ha) as [Hki Hv']. simpl in Hki.
    destruct (gate_breaks j d) eqn:Hgate.
    { injection H as <-. by apply Hstop. }
    inv_bind H. rename a into values1.
    assert (i <> k) as Hik by done.
    pose proof (link_wf _ _ _ _ _ Hik Hwf Ha0) as Hwf1.
    pose proof (link_extends _ _ _ _ _ Hik Ha0) as Hext1.
    destruct (IH values1 h' values' H Hwf1 Hv')
      as (Hwf' & Hext' & own' & Heff' & (Hlen' & Hgate' & Hsorted') & Hfrom').
    split; [done|]. split; [by eapply extends_trans|].
    pose proof Ha0 as Hlink.
    apply link_inv in Ha0 as (m1 & m2 & s1 & s2 & H1 & H2 & _); [|done].
    pose proof (link_effect _ _ _ _ _ _ _ Hik H1 H2 Hlink) as Heff1.
    eexists (_ :: own'). split; [|split; [split; [|split]|]].
    + by apply (round_effect_trans i values values1 values' [_] own').
    + simpl. lia.
    + intros [|n] e Hn; simpl in Hn.
      * injection Hn as <-. exists j. done.
      * by apply Hgate'.
    + intros Hord. destruct (candidates_ordered_pop _ _ _ Hord Ha) as [Hord' Hmin].
      destruct (Hsorted' Hord') as [Hs' Hfrom_heap].
      pose proof (heappop_perm _ _ _ _ Ha) as Hperm. split.
      * intros [|n] [|n'] e e' Hlt Hn Hn'; simpl in *; try lia.
        -- injection Hn as <-. simpl.
           destruct (Hfrom_heap e') as (x & Hx & <-); [by eapply list_elem_of_lookup_2|].
           by apply (Hmin x).
        -- eapply (Hs' n n'); [lia | done..].
      * intros e He. apply elem_of_cons in He as [->|He].
        -- exists (d, k). split; [rewrite Hperm; by left | done].
        -- destruct (Hfrom_heap e He) as (x & Hx & Hd). exists x.
           split; [rewrite Hperm; by right | done].
    + intros m e Hm He. assert (m = m1) as -> by congruence.
      apply elem_of_cons in He as [->|He]; [done|].
      destruct Hext1 as [_ Hext1]. destruct (Hext1 i m1 H1) as (m1' & Hm1' & Hc & _).
      rewrite <- Hc. by eapply Hfrom'.
Qed.

Section RoundFacts.
Variable kernel : float -> float -> float -> float -> result float.

Lemma gather_cons values i muni1 j js h :
  gather kernel values i muni1 (j :: js) h =
  if decide (i = j) then gather kernel values i muni1 js h
  else
    muni2 ← getitem values j;
    seen ← get_neighbors muni1;
    if decide (code muni2 ∈ seen) then gather kernel values i muni1 js h
    else
      distance ← getDistanceBetweenMunicipalities kernel muni1 muni2;
      closenessHeap' ← heappush candidate_lt h (distance, j);
      gather kernel values i muni1 js closenessHeap'.
Proof. reflexivity. Qed.

Local Abbreviation candidate := (candidate kernel).

Lemma gather_spec values i muni1 s js : forall h h',
  _neighbors muni1 = Some s ->
  gather kernel values i muni1 js h = Ok h' ->
  exists picked, h' ≡ₚ picked ++ h /\ (picked.*2) `sublist_of` js /\
    forall x, x ∈ picked -> candidate values i muni1 s x.
Proof.
  induction js as [|j js IH]; intros h h' Hs H.
  - injection H as <-. exists []. split; [done|]. split; [done|].
    intros x Hx. by apply elem_of_nil in Hx.
  - rewrite gather_cons in H.
    assert (forall h0, gather kernel values i muni1 js h0 = Ok h' -> h0 = h ->
      exists picked, h' ≡ₚ picked ++ h /\ (picked.*2) `sublist_of` (j :: js) /\
        forall x, x ∈ picked -> candidate values i muni1 s x) as Hskip.
    { intros h0 H0 ->. destruct (IH h h' Hs H0) as (picked & Hp & Hsub & Hc).
      exists picked. split; [done|]. split; [by apply sublist_cons | done]. }
    destruct (decide (i = j)) as [->|Hij]; [by eapply Hskip|].
    inv_bind H. apply getitem_Ok in Ha. rename a into muni2.
    inv_bind H. apply get_neighbors_Ok in Ha0.
    assert (a = s) as -> by congruence.
    destruct (decide (code muni2 ∈ s)) as [|Hnot]; [by eapply Hskip|].
    inv_bind H. rename a into d. inv_bind H. rename a into h1.
    apply heappush_perm in Ha2.
    destruct (IH h1 h' Hs H) as (picked & Hp & Hsub & Hc).
    exists ((d, j) :: picked). split; [|split].
    + rewrite Hp, Ha2. simpl. by rewrite Permutation_middle.
    + simpl. by apply sublist_skip.
    + intros x Hx. apply elem_of_cons in Hx as [->|Hx]; [|by apply Hc].
      split; [simpl; congruence|]. exists muni2. done.
Qed.

Lemma distance_grows m1 m2 m1' m2' :
  grows m1 m1' -> grows m2 m2' ->
  getDistanceBetweenMunicipalities kernel m1' m2' =
  getDistanceBetweenMunicipalities kernel m1 m2.
Proof.
  intros (_ & Hlat1 & Hlon1 & _) (_ & Hlat2 & Hlon2 & _).
  unfold getDistanceBetweenMunicipalities. by rewrite Hlat1, Hlon1, Hlat2, Hlon2.
Qed.

Local Abbreviation finite_distances := (finite_distances kernel).

Lemma finite_distances_extends values values' :
  extends values values' -> finite_distances values -> finite_distances values'.
Proof.
  intros Hext Hfin m1' m2' d H1 H2 Hd.
  apply list_elem_of_lookup in H1 as [i1 H1]. apply list_elem_of_lookup in H2 as [i2 H2].
  destruct (extends_lookup_inv _ _ _ _ Hext H1) as (m1 & Hm1 & Hg1).
  destruct (extends_lookup_inv _ _ _ _ Hext H2) as (m2 & Hm2 & Hg2).
  rewrite (distance_grows _ _ _ _ Hg1 Hg2) in Hd.
  eapply (Hfin m1 m2); [by eapply list_elem_of_lookup_2.. | done].
Qed.

Lemma gather_ordered values i muni1 js : forall h h',
  finite_distances values -> muni1 ∈ values ->
  candidates_ordered h ->
  gather kernel values i muni1 js h = Ok h' -> candidates_ordered h'.
Proof.
  induction js as [|j js IH]; intros h h' Hfin Hin Hord H.
  - by injection H as <-.
  - rewrite gather_cons in H.
    destruct (decide (i = j)) as [->|Hij]; [by eapply IH|].
    inv_bind H. apply getitem_Ok in Ha. rename a into muni2.
    inv_bind H. destruct (decide (code muni2 ∈ a)); [by eapply IH|].
    inv_bind H. rename a0 into d. inv_bind H.
    eapply (IH a0); [done.. | | done].
    eapply candidates_ordered_push; [done | | done].
    eapply (Hfin muni1 muni2); [done | by eapply list_elem_of_lookup_2 | done].
Qed.

Lemma round_spec values i values' :
  round kernel values i = Ok values' -> wf values ->
  wf values' /\ extends values values' /\
  exists own,
    round_effect i values values' own /\
    length own <= MAX_EDGES /\
    (forall n e, own !! n = Some e -> gate_breaks n (distance e) = false) /\
    (finite_distances values -> block_sorted own) /\
    (forall m e, values !! i = Some m -> e ∈ own -> fromMuniCode e = code m).
Proof.
  intros H Hwf. unfold round in H.
  inv_bind H. apply getitem_Ok in Ha. rename a into muni1.
  inv_bind H. rename a into h.
  destruct (Hwf i muni1 Ha) as [(s & Hs & _) _].
  destruct (gather_spec _ _ _ _ _ _ _ Hs Ha0) as (picked & Hp & _ & Hc).
  rewrite app_nil_r in Hp.
  assert (heap_valid i h) as Hv.
  { intros x Hx. rewrite Hp in Hx. by destruct (Hc x Hx). }
  destruct (accept_spec _ _ _ _ _ H Hwf Hv)
    as (Hwf' & Hext & own & Heff & (Hlen & Hgate & Hsorted) & Hfrom).
  split; [done|]. split; [done|]. exists own. split; [done|].
  split; [by rewrite length_seq in Hlen|]. split; [|split; [|done]].
  - intros n e Hn. destruct (Hgate n e Hn) as (j & Hj & Hg).
    apply lookup_seq in Hj as [-> _]. done.
  - intros Hfin. apply Hsorted.
    eapply (gather_ordered values i muni1 _ []); [done | | | done].
    + by eapply list_elem_of_lookup_2.
    + split; [|constructor]. intros p c x y _ Hp'. by rewrite lookup_nil in Hp'.
Qed.

(** *** All rounds *)

Lemma rounds_cons values i order :
  rounds kernel values (i :: order) =
  values' ← round kernel values i; rounds kernel values' order.
Proof. reflexivity. Qed.

Lemma rounds_spec (finite : Prop) order : forall values values' own,
  rounds kernel values order = Ok values' ->
  wf values -> NoDup order -> (finite -> finite_distances values) ->
  blocks values own -> gated finite own -> (forall i, i ∈ order -> own i = []) ->
  wf values' /\ extends values values' /\
  exists own', blocks values' own' /\ gated finite own'.
Proof.
  induction order as [|i order IH]; intros values values' own H Hwf Hnd Hfin Hb Hg Hempty.
  - injection H as <-. split; [done|]. split; [apply extends_refl|]. by exists own.
  - rewrite rounds_cons in H. inv_bind H. rename a into values1.
    apply NoDup_cons in Hnd as [Hi Hnd].
    destruct (round_spec _ _ _ Ha Hwf)
      as (Hwf1 & Hext1 & new & [Heffi Heffk] & Hlen & Hgate & Hsorted & _).
    set (own1 := fun k => if decide (k = i) then new else own k).
    assert (blocks values1 own1) as Hb1.
    { intros k m1 Hk.
      destruct (extends_lookup_inv _ _ _ _ Hext1 Hk) as (m & Hm & _).
      destruct (Hb k m Hm) as (pre & post & Hedges & Hmir).
      unfold own1. destruct (decide (k = i)) as [->|Hki].
      - destruct (Heffi m Hm) as (m1' & Hm1' & He1).
        assert (m1' = m1) as -> by congruence.
        rewrite (Hempty i) in Hedges by (by left). simpl in Hedges.
        exists (pre ++ post), []. split; [by rewrite app_nil_r, He1, Hedges|].
        rewrite app_nil_r. intros e He. destruct (Hmir e He) as (k & Hk' & Hin).
        exists k. split; [done|]. by destruct (decide (k = i)).
      - destruct (Heffk k m m1 Hki Hm Hk) as (extra & He1 & Hextra).
        exists pre, (post ++ extra). split; [by rewrite He1, Hedges, <- !app_assoc|].
        intros e He. rewrite app_assoc in He. apply elem_of_app in He as [He|He].
        + destruct (Hmir e He) as (k' & Hk' & Hin). exists k'. split; [done|].
          destruct (decide (k' = i)) as [->|]; [|done].
          rewrite (Hempty i) in Hin by (by left). by apply elem_of_nil in Hin.
        + exists i. split; [done|]. destruct (decide (i = i)); [|done]. by apply Hextra. }
    assert (gated finite own1) as Hg1.
    { intros k. unfold own1. destruct (decide (k = i)); [|apply Hg].
      split; [done|]. split; [done|]. intros Hf. by apply Hsorted, Hfin. }
    assert (forall k, k ∈ order -> own1 k = []) as Hempty1.
    { intros k Hk. unfold own1. destruct (decide (k = i)) as [->|]; [done|].
      apply Hempty. by right. }
    assert (finite -> finite_distances values1) as Hfin1.
    { intros Hf. eapply finite_distances_extends; [done | by apply Hfin]. }
    destruct (IH values1 values' own1 H Hwf1 Hnd Hfin1 Hb1 Hg1 Hempty1)
      as (Hwf' & Hext' & own' & Hb' & Hg').
    split; [done|]. split; [by eapply extends_trans|]. by exists own'.
Qed.

End RoundFacts.

Lemma gate_breaks_threshold j d : gate_breaks j d = Float.ltb (threshold j) d.
Proof.
  unfold gate_breaks, threshold.
  destruct (j <? 3)%nat eqn:Hj.
  - apply Nat.ltb_lt in Hj. replace (3 <=? j)%nat with false by (symmetry; apply Nat.leb_gt; lia).
    simpl. by rewrite orb_false_r.
  - apply Nat.ltb_ge in Hj. replace (3 <=? j)%nat with true by (symmetry; apply Nat.leb_le; lia).
    done.
Qed.

Lemma threshold_facts j :
  j < MAX_EDGES ->
  Float.is_nan (threshold j) = false /\
  Float.leb (threshold j) (Float.of_Z MAX_DISTANCE) = true.
Proof.
  unfold MAX_EDGES. intros Hj.
  do 10 (destruct j as [|j]; [by vm_compute|]). lia.
Qed.

Lemma gate_open_le j d :
  j < MAX_EDGES -> gate_breaks j d = false ->
  Float.ltb (Float.of_Z MAX_DISTANCE) d = false /\
  (Float.is_nan d = false -> Float.leb d (threshold j) = true).
Proof.
  intros Hj Hg. rewrite gate_breaks_threshold in Hg.
  destruct (threshold_facts j Hj) as [Hnan Hle]. split.
  - destruct (Float.ltb (Float.of_Z MAX_DISTANCE) d) eqn:Hlt; [|done].
    by rewrite (FloatFacts.leb_ltb_trans _ _ _ Hle Hlt) in Hg.
  - intros Hd. by apply FloatFacts.not_ltb_leb.
Qed.

(** ** The serializer *)

Lemma dump_edges_Ok es : dump_edges es = Ok ().
Proof. induction es as [|e es IH]; [done|]. simpl. apply IH. Qed.

Lemma json_dump_cons m rest :
  json_dump (m :: rest) =
  d ← municipalityDictSerializer (PyMunicipality m);
  match d with
  | PyMunicipality m' =>
      _ ← dump_edges (edges m'); rest' ← json_dump rest; Ok (m' :: rest')
  | _ => Raise TypeError
  end.
Proof. reflexivity. Qed.

Lemma json_dump_inv values : forall out,
  json_dump values = Ok out ->
  out = (fun m => set_neighbors m None) <$> values /\
  Forall (fun m => is_Some (_neighbors m)) values.
Proof.
  induction values as [|m rest IH]; intros out H.
  - injection H as <-. done.
  - rewrite json_dump_cons in H. unfold municipalityDictSerializer in H.
    destruct (_neighbors m) as [s|] eqn:Hs; [|done]. rsimpl in H.
    rewrite dump_edges_Ok in H. rsimpl in H.
    inv_bind H. injection H as <-. destruct (IH a Ha) as [-> Hall].
    split; [done|]. constructor; [by rewrite Hs | done].
Qed.

Lemma json_dump_Ok values :
  Forall (fun m => is_Some (_neighbors m)) values ->
  json_dump values = Ok ((fun m => set_neighbors m None) <$> values).
Proof.
  induction 1 as [|m rest [s Hs] _ IH]; [done|].
  rewrite json_dump_cons. unfold municipalityDictSerializer. rewrite Hs. rsimpl.
  rewrite dump_edges_Ok. rsimpl. by rewrite IH.
Qed.

(** ** The canonical selector as a whole *)

Section SelectorFacts.
Variable kernel : float -> float -> float -> float -> result float.

Lemma pristine_wf values : Forall pristine values -> wf values.
Proof.
  intros Hall i m Hi. destruct (Forall_lookup_1 _ _ _ _ Hall Hi) as [Hs He].
  split.
  - exists ∅. split; [done|]. intros c. rewrite He. simpl.
    split; [set_solver | intros H; by apply elem_of_nil in H].
  - intros e H. rewrite He in H. by apply elem_of_nil in H.
Qed.

Lemma pristine_blocks values : Forall pristine values -> blocks values (fun _ => []).
Proof.
  intros Hall i m Hi. destruct (Forall_lookup_1 _ _ _ _ Hall Hi) as [_ He].
  exists [], []. split; [done|]. intros e H. by apply elem_of_nil in H.
Qed.

Lemma selector_spec values out :
  Forall pristine values ->
  addEdgesToMunicipalitiesV2 kernel values = Ok out ->
  exists final own,
    rounds kernel values (seq 0 (length values)) = Ok final /\
    out = (fun m => set_neighbors m None) <$> final /\
    wf final /\ extends values final /\ blocks final own /\
    gated (finite_distances kernel values) own.
Proof.
  intros Hpristine H. unfold addEdgesToMunicipalitiesV2 in H.
  inv_bind H. rename a into final.
  apply json_dump_inv in H as [-> _].
  destruct (rounds_spec kernel (finite_distances kernel values) _ _ _ (fun _ => []) Ha)
    as (Hwf & Hext & own & Hb & Hg).
  - by apply pristine_wf.
  - apply NoDup_seq.
  - done.
  - by apply pristine_blocks.
  - intros i. split; [simpl; lia|].
    split; [intros n e Hn; by rewrite lookup_nil in Hn|].
    intros _ n n' e e' _ Hn. by rewrite lookup_nil in Hn.
  - done.
  - exists final, own. done.
Qed.

Lemma out_lookup (final out : list Municipality) i m :
  out = (fun m => set_neighbors m None) <$> final -> out !! i = Some m ->
  exists m0, final !! i = Some m0 /\ m = set_neighbors m0 None.
Proof.
  intros -> H. rewrite list_lookup_fmap in H.
  destruct (final !! i) as [m0|]; [|done]. injection H as <-. by exists m0.
Qed.

Lemma selector_mutual values out i m e :
  Forall pristine values ->
  addEdgesToMunicipalitiesV2 kernel values = Ok out ->
  out !! i = Some m -> e ∈ edges m ->
  fromMuniCode e = code m /\
  exists k m', k <> i /\ out !! k = Some m' /\ code m' = toMuniCode e /\ mirror e ∈ edges m'.
Proof.
  intros Hpristine H Hi He.
  destruct (selector_spec _ _ Hpristine H) as (final & own & _ & Hout & Hwf & _).
  destruct (out_lookup _ _ _ _ Hout Hi) as (m0 & Hm0 & ->).
  destruct (Hwf i m0 Hm0) as [_ Hedges].
  destruct (Hedges e He) as (Hfrom & k & mk & Hki & Hk & Hc & Hmir).
  split; [done|]. exists k, (set_neighbors mk None).
  split; [done|]. split; [|done]. subst out. by rewrite list_lookup_fmap, Hk.
Qed.

Lemma blocks_gate finite final own i m e :
  blocks final own -> gated finite own -> final !! i = Some m -> e ∈ edges m ->
  exists k n e', own k !! n = Some e' /\ n < MAX_EDGES /\
    distance e' = distance e /\ gate_breaks n (distance e') = false.
Proof.
  intros Hb Hg Hi He. destruct (Hb i m Hi) as (pre & post & Hedges & Hmir).
  assert (e ∈ own i \/ e ∈ pre ++ post) as [Hown|Hother].
  { rewrite Hedges in He. rewrite !elem_of_app in *. tauto. }
  - apply list_elem_of_lookup in Hown as [n Hn].
    destruct (Hg i) as (Hlen & Hgate & _). exists i, n, e.
    split; [done|]. split; [|split; [done | by eapply Hgate]].
    apply lookup_lt_Some in Hn. lia.
  - destruct (Hmir e Hother) as (k & _ & Hin).
    apply list_elem_of_lookup in Hin as [n Hn].
    destruct (Hg k) as (Hlen & Hgate & _). exists k, n, (mirror e).
    split; [done|]. split; [|split; [done | by eapply Hgate]].
    apply lookup_lt_Some in Hn. lia.
Qed.

Lemma selector_max_distance values out i m e :
  Forall pristine values ->
  addEdgesToMunicipalitiesV2 kernel values = Ok out ->
  out !! i = Some m -> e ∈ edges m ->
  Float.ltb (Float.of_Z MAX_DISTANCE) (distance e) = false.
Proof.
  intros Hpristine H Hi He.
  destruct (selector_spec _ _ Hpristine H) as (final & own & _ & Hout & _ & _ & Hb & Hg).
  destruct (out_lookup _ _ _ _ Hout Hi) as (m0 & Hm0 & ->).
  destruct (blocks_gate _ _ _ _ _ _ Hb Hg Hm0 He) as (k & n & e' & _ & Hn & Hd & Hgate).
  rewrite <- Hd. by apply (gate_open_le n).
Qed.

End SelectorFacts.

(** ** No neighbour twice *)

Lemma codes_inj (values : list Municipality) a b ma mb :
  NoDup (code <$> values) ->
  values !! a = Some ma -> values !! b = Some mb -> code ma = code mb -> a = b.
Proof.
  intros Hnd Ha Hb Hc.
  eapply (NoDup_lookup _ a b (code ma) Hnd).
  - by rewrite list_lookup_fmap, Ha.
  - by rewrite list_lookup_fmap, Hb, Hc.
Qed.

Lemma extends_codes values values' :
  extends values values' -> code <$> values' = code <$> values.
Proof.
  intros [Hlen Hext]. apply list_eq. intros j. rewrite !list_lookup_fmap.
  destruct (values !! j) as [m|] eqn:Hj.
  - destruct (Hext j m Hj) as (m' & -> & Hc & _). simpl. by rewrite Hc.
  - apply lookup_ge_None in Hj. rewrite (proj2 (lookup_ge_None values' j)) by lia. done.
Qed.

Lemma link_nodup values i k d values' :
  i <> k -> wf values -> NoDup (code <$> values) -> nodup_edges values ->
  unseen values i k ->
  link values i k d = Ok values' -> nodup_edges values'.
Proof.
  intros Hne Hwf Hcodes Hnd Hunseen H.
  apply link_inv in H as (m1 & m2 & s1 & s2 & H1 & H2 & Hs1 & Hs2 & ->); [|done].
  apply lookup_lt_Some in H1 as Hi. apply lookup_lt_Some in H2 as Hk.
  destruct (Hwf i m1 H1) as [(s1' & Hs1' & Hiff1) Hedges1].
  assert (s1' = s1) as -> by congruence.
  destruct (Hwf k m2 H2) as [_ Hedges2].
  pose proof (Hunseen m1 m2 s1 H1 H2 Hs1) as Hnot.
  intros j m Hj. destruct (decide (j = k)) as [->|Hjk]; [|destruct (decide (j = i)) as [->|Hji]].
  - rewrite list_lookup_insert_eq in Hj by (by rewrite length_insert).
    injection Hj as <-. simpl. rewrite fmap_app. apply NoDup_app.
    split; [by apply (Hnd k)|]. split; [|apply NoDup_singleton].
    intros c Hc Hc'. simpl in Hc'. apply list_elem_of_singleton in Hc' as ->.
    apply list_elem_of_fmap in Hc as (e & Hto & He).
    destruct (Hedges2 e He) as (Hfrom & k' & m' & Hk'k & Hk' & Hcode' & Hmir).
    assert (k' = i) as -> by (eapply codes_inj; [done..|congruence]).
    assert (m' = m1) as -> by congruence.
    apply Hnot, Hiff1. apply list_elem_of_fmap. exists (mirror e). done.
  - rewrite list_lookup_insert_ne in Hj by done.
    rewrite list_lookup_insert_eq in Hj by done.
    injection Hj as <-. simpl. rewrite fmap_app. apply NoDup_app.
    split; [by apply (Hnd i)|]. split; [|apply NoDup_singleton].
    intros c Hc Hc'. simpl in Hc'. apply list_elem_of_singleton in Hc' as ->.
    by apply Hnot, Hiff1.
  - rewrite !list_lookup_insert_ne in Hj by done. by apply (Hnd j).
Qed.

(** After linking [i] and [k], an entity that was not a neighbour of [i]
    and is not [k] is still not one. *)
Lemma link_unseen values i k d values' x :
  i <> k -> x <> k -> x <> i -> NoDup (code <$> values) ->
  unseen values i x ->
  link values i k d = Ok values' -> unseen values' i x.
Proof.
  intros Hne Hxk Hxi Hcodes Hunseen H.
  apply link_inv in H as (m1 & m2 & s1 & s2 & H1 & H2 & Hs1 & Hs2 & ->); [|done].
  apply lookup_lt_Some in H1 as Hi.
  intros m1' mx s Hi' Hx Hs.
  rewrite list_lookup_insert_ne in Hi' by done.
  rewrite list_lookup_insert_eq in Hi' by done. injection Hi' as <-.
  rewrite !list_lookup_insert_ne in Hx by done.
  simpl in Hs. injection Hs as <-.
  apply not_elem_of_union. split; [by eapply Hunseen|].
  rewrite elem_of_singleton. intros Hc.
  apply Hxk. by eapply codes_inj.
Qed.

Lemma accept_nodup i js : forall values h values',
  accept values i js h = Ok values' ->
  wf values -> NoDup (code <$> values) -> nodup_edges values ->
  NoDup h.*2 -> (forall x, x ∈ h -> x.2 <> i /\ unseen values i x.2) ->
  nodup_edges values'.
Proof.
  induction js as [|j js IH]; intros values h values' H Hwf Hcodes Hnd Hh Hcand.
  - by injection H as <-.
  - rewrite accept_cons in H. destruct h as [|x0 h0] eqn:Hheap; [by injection H as <-|].
    rewrite <- Hheap in *. clear Hheap x0 h0.
    inv_bind H. destruct a as [[d k] h'].
    apply heappop_perm in Ha.
    destruct (gate_breaks j d); [by injection H as <-|].
    inv_bind H. rename a into values1.
    rewrite Ha in Hh. simpl in Hh. apply NoDup_cons in Hh as [Hk Hh'].
    assert (forall x, x ∈ (d, k) :: h' -> x.2 <> i /\ unseen values i x.2) as Hcand'
      by (intros x Hx; apply Hcand; by rewrite Ha).
    clear Hcand. rename Hcand' into Hcand.
    destruct (Hcand (d, k)) as [Hki Hunseen]; [by left|]. simpl in Hki, Hunseen.
    assert (i <> k) as Hik by done.
    eapply (IH values1 h' values' H).
    + by eapply link_wf.
    + rewrite (extends_codes values values1); [done | by eapply link_extends].
    + by eapply link_nodup.
    + done.
    + intros x Hx. destruct (Hcand x) as [Hxi Hux]; [by right|].
      split; [done|].
      assert (x.2 <> k) as Hxk.
      { intros Heq. apply Hk. apply list_elem_of_fmap. by exists x. }
      by eapply (link_unseen values i k d values1).
Qed.

Section NoDupFacts.
Variable kernel : float -> float -> float -> float -> result float.

Lemma round_nodup values i values' :
  round kernel values i = Ok values' ->
  wf values -> NoDup (code <$> values) -> nodup_edges values ->
  nodup_edges values'.
Proof.
  intros H Hwf Hcodes Hnd. unfold round in H.
  inv_bind H. apply getitem_Ok in Ha. rename a into muni1.
  inv_bind H. rename a into h.
  destruct (Hwf i muni1 Ha) as [(s & Hs & _) _].
  destruct (gather_spec _ _ _ _ _ _ _ _ Hs Ha0) as (picked & Hp & Hsub & Hc).
  rewrite app_nil_r in Hp.
  eapply accept_nodup; try done.
  - rewrite Hp. eapply sublist_NoDup; [apply NoDup_seq | exact Hsub].
  - intros x Hx. rewrite Hp in Hx. destruct (Hc x Hx) as (Hxi & m2 & Hm2 & Hnot & _).
    split; [done|]. intros m1' m2' s' H1 H2 Hs'.
    assert (m1' = muni1) as -> by congruence. assert (m2' = m2) as -> by congruence.
    by assert (s' = s) as -> by congruence.
Qed.

Lemma rounds_nodup order : forall values values',
  rounds kernel values order = Ok values' ->
  wf values -> NoDup (code <$> values) -> nodup_edges values ->
  nodup_edges values'.
Proof.
  induction order as [|i order IH]; intros values values' H Hwf Hcodes Hnd.
  - by injection H as <-.
  - rewrite rounds_cons in H. inv_bind H. rename a into values1.
    destruct (round_spec _ _ _ _ Ha Hwf) as (Hwf1 & Hext1 & _).
    eapply (IH values1); try done.
    + by rewrite (extends_codes values values1).
    + by eapply round_nodup.
Qed.

Lemma selector_simple values out i m :
  Forall pristine values -> NoDup (code <$> values) ->
  addEdgesToMunicipalitiesV2 kernel values = Ok out ->
  out !! i = Some m ->
  (code m ∉ toMuniCode <$> edges m) /\ NoDup (toMuniCode <$> edges m).
Proof.
  intros Hpristine Hcodes H Hi.
  destruct (selector_spec _ _ _ Hpristine H) as (final & own & Hrun & Hout & Hwf & Hext & _).
  destruct (out_lookup _ _ _ _ Hout Hi) as (m0 & Hm0 & ->).
  simpl. split.
  - intros Hin. apply list_elem_of_fmap in Hin as (e & Hto & He).
    destruct (Hwf i m0 Hm0) as [_ Hedges].
    destruct (Hedges e He) as (_ & k & mk & Hki & Hk & Hc & _).
    apply Hki. eapply (codes_inj final); try done.
    + by rewrite (extends_codes values final).
    + congruence.
  - eapply (rounds_nodup _ values final Hrun); try done.
    + by apply pristine_wf.
    + intros j mj Hj. destruct (Forall_lookup_1 _ _ _ _ Hpristine Hj) as [_ ->]. constructor.
Qed.
End NoDupFacts.

(** ** When the selector completes *)

Lemma link_has_seen values i k d values' :
  i <> k -> has_seen values -> link values i k d = Ok values' -> has_seen values'.
Proof.
  intros Hne Hseen H.
  apply link_inv in H as (m1 & m2 & s1 & s2 & H1 & H2 & Hs1 & Hs2 & ->); [|done].
  apply lookup_lt_Some in H1 as Hi. apply lookup_lt_Some in H2 as Hk.
  intros j m Hj. destruct (decide (j = k)) as [->|Hjk]; [|destruct (decide (j = i)) as [->|Hji]].
  - rewrite list_lookup_insert_eq in Hj by (by rewrite length_insert). by injection Hj as <-.
  - rewrite list_lookup_insert_ne in Hj by done.
    rewrite list_lookup_insert_eq in Hj by done. by injection Hj as <-.
  - rewrite !list_lookup_insert_ne in Hj by done. by eapply Hseen.
Qed.

Lemma candidate_lt_Ok x y :
  (x.2 <> y.2 -> Float.eqb x.1 y.1 = false) -> is_Ok (candidate_lt x y).
Proof.
  intros H. unfold candidate_lt.
  destruct (decide (x.2 = y.2)) as [Heq|Hne].
  - destruct (Float.eqb x.1 y.1); eexists; reflexivity.
  - rewrite (H Hne). eexists; reflexivity.
Qed.

Section Completes.
Variable kernel : float -> float -> float -> float -> result float.
Variable start : list Municipality.

(** The distance function returns for every pair of entities, and no
    entity has two others at the same distance. *)
Hypothesis distances_defined : forall i j m1 m2,
  i <> j -> start !! i = Some m1 -> start !! j = Some m2 ->
  is_Ok (getDistanceBetweenMunicipalities kernel m1 m2).
Hypothesis distances_distinct : forall i j k m1 m2 m3 d2 d3,
  j <> k -> j <> i -> k <> i ->
  start !! i = Some m1 -> start !! j = Some m2 -> start !! k = Some m3 ->
  getDistanceBetweenMunicipalities kernel m1 m2 = Ok d2 ->
  getDistanceBetweenMunicipalities kernel m1 m3 = Ok d3 ->
  Float.eqb d2 d3 = false.

Local Abbreviation heap_of := (heap_of kernel start).

Lemma heap_of_perm i h h' : h ≡ₚ h' -> heap_of i h -> heap_of i h'.
Proof.
  intros Hp [Hnd Hall]. split; [by rewrite <- Hp|].
  intros x Hx. apply Hall. by rewrite Hp.
Qed.

Lemma heap_of_comparable i h : heap_of i h -> comparable candidate_lt h.
Proof.
  intros [Hnd Hall] x y Hx Hy. apply candidate_lt_Ok. intros Hne.
  destruct (Hall x Hx) as (Hxi & m1 & m2 & H1 & H2 & Hd).
  destruct (Hall y Hy) as (Hyi & m1' & m3 & H1' & H3 & Hd').
  assert (m1' = m1) as -> by congruence.
  by eapply (distances_distinct i x.2 y.2).
Qed.

Lemma gather_ok values i muni1 m1 :
  extends start values -> has_seen values ->
  start !! i = Some m1 -> values !! i = Some muni1 ->
  forall js h,
    NoDup js -> (forall j, j ∈ js -> j < length values /\ j ∉ h.*2) ->
    heap_of i h ->
    exists h', gather kernel values i muni1 js h = Ok h' /\ heap_of i h'.
Proof.
  intros Hext Hseen Hm1 Hmuni1.
  induction js as [|j js IH]; intros h Hnd Hjs Hh.
  - by exists h.
  - rewrite gather_cons. apply NoDup_cons in Hnd as [Hj Hnd].
    destruct (Hjs j) as [Hlt Hnew]; [by left|].
    assert (forall j', j' ∈ js -> j' < length values /\ j' ∉ h.*2) as Hjs'
      by (intros j' Hj'; apply Hjs; by right).
    destruct (decide (i = j)) as [->|Hij]; [by apply IH|].
    destruct (getitem_lt values j Hlt) as (muni2 & -> & Hmuni2). rsimpl.
    destruct (Hseen i muni1 Hmuni1) as [s Hs].
    apply get_neighbors_Ok in Hs as ->. rsimpl.
    destruct (decide (code muni2 ∈ s)); [by apply IH|].
    destruct (extends_lookup_inv _ _ _ _ Hext Hmuni2) as (m2 & Hm2 & Hg2).
    destruct (extends_lookup_inv _ _ _ _ Hext Hmuni1) as (m1' & Hm1' & Hg1).
    assert (m1' = m1) as -> by congruence.
    rewrite (distance_grows kernel _ _ _ _ Hg1 Hg2).
    destruct (distances_defined i j m1 m2 Hij Hm1 Hm2) as [d Hd]. rewrite Hd. rsimpl.
    assert (heap_of i ((d, j) :: h)) as Hh1.
    { destruct Hh as [Hhnd Hall]. split; [simpl; by apply NoDup_cons|].
      intros x Hx. apply elem_of_cons in Hx as [->|Hx]; [|by apply Hall].
      split; [simpl; congruence|]. by exists m1, m2. }
    destruct (heappush_ok candidate_lt h (d, j)) as [h1 Hpush];
      [by eapply heap_of_comparable|].
    rewrite Hpush. rsimpl. apply heappush_perm in Hpush as Hperm.
    apply IH; [done | | by eapply heap_of_perm].
    intros j' Hj'. destruct (Hjs' j' Hj') as [Hlt' Hnot']. split; [done|].
    rewrite Hperm. simpl. rewrite not_elem_of_cons. split; [|done].
    intros ->. done.
Qed.

Lemma accept_ok i js : forall values h,
  extends start values -> has_seen values -> i < length values ->
  heap_of i h ->
  exists values', accept values i js h = Ok values' /\
    extends start values' /\ has_seen values'.
Proof.
  induction js as [|j js IH]; intros values h Hext Hseen Hi Hh; [by exists values|].
  rewrite accept_cons. destruct h as [|x0 h0] eqn:Hheap; [by exists values|].
  rewrite <- Hheap in *.
  destruct (heappop_ok candidate_lt h) as [[[d k] h'] Hpop];
    [by rewrite Hheap | by eapply heap_of_comparable|].
  clear Hheap x0 h0. rewrite Hpop. rsimpl.
  destruct (gate_breaks j d); [by exists values|].
  apply heappop_perm in Hpop.
  apply (heap_of_perm _ _ _ Hpop) in Hh as Hh1. destruct Hh1 as [Hnd Hall].
  destruct (Hall (d, k)) as (Hki & m1 & m2 & Hm1 & Hm2 & _); [by left|]. simpl in *.
  assert (i <> k) as Hik by done.
  destruct Hext as [Hlen Hext'].
  destruct (Hext' i m1 Hm1) as (muni1 & Hmuni1 & _).
  destruct (Hext' k m2 Hm2) as (muni2 & Hmuni2 & _).
  destruct (Hseen i muni1 Hmuni1) as [s1 Hs1].
  destruct (Hseen k muni2 Hmuni2) as [s2 Hs2].
  pose proof (link_Ok values i k muni1 muni2 s1 s2 d Hik Hmuni1 Hmuni2 Hs1 Hs2) as Hlink.
  rewrite Hlink. rsimpl.
  pose proof (link_extends _ _ _ _ _ Hik Hlink) as Hext1.
  apply IH.
  - eapply extends_trans; [|done]. done.
  - by eapply link_has_seen.
  - destruct Hext1 as [-> _]. done.
  - split; [by apply NoDup_cons in Hnd as [_ ?]|].
    intros x Hx. apply Hall. by right.
Qed.

Lemma round_ok values i :
  extends start values -> has_seen values -> i < length values ->
  exists values', round kernel values i = Ok values' /\
    extends start values' /\ has_seen values'.
Proof.
  intros Hext Hseen Hi. unfold round.
  destruct (getitem_lt values i Hi) as (muni1 & -> & Hmuni1). rsimpl.
  destruct (extends_lookup_inv _ _ _ _ Hext Hmuni1) as (m1 & Hm1 & _).
  destruct (gather_ok values i muni1 m1 Hext Hseen Hm1 Hmuni1
    (seq 0 (length values)) []) as (h & -> & Hh).
  - apply NoDup_seq.
  - intros j Hj. apply elem_of_seq in Hj. split; [lia|]. simpl. apply not_elem_of_nil.
  - split; [constructor|]. intros x Hx. by apply elem_of_nil in Hx.
  - rsimpl. by apply accept_ok.
Qed.

Lemma rounds_ok order : forall values,
  extends start values -> has_seen values ->
  (forall i, i ∈ order -> i < length values) ->
  exists values', rounds kernel values order = Ok values' /\ has_seen values'.
Proof.
  induction order as [|i order IH]; intros values Hext Hseen Horder; [by exists values|].
  rewrite rounds_cons.
  destruct (round_ok values i Hext Hseen) as (values1 & -> & Hext1 & Hseen1);
    [apply Horder; by left|].
  rsimpl. apply IH; [done | done |].
  intros i' Hi'. destruct Hext as [Hl _], Hext1 as [Hl1 _].
  rewrite Hl1, <- Hl. apply Horder. by right.
Qed.

Lemma selector_completes :
  has_seen start -> is_Ok (addEdgesToMunicipalitiesV2 kernel start).
Proof.
  intros Hseen. unfold addEdgesToMunicipalitiesV2.
  destruct (rounds_ok (seq 0 (length start)) start) as (final & -> & Hfinal).
  - apply extends_refl.
  - done.
  - intros i Hi. apply elem_of_seq in Hi. lia.
  - rsimpl. rewrite json_dump_Ok; [by eexists|].
    apply Forall_lookup. intros j m Hj. by eapply Hfinal.
Qed.

End Completes.

(** ** The superseded edge heap *)

Lemma ltb_asym x y : Float.ltb x y = true -> Float.ltb y x = false.
Proof.
  unfold Float.ltb, SpecFloat.SFltb. rewrite (FloatFacts.compare_swap y x).
  destruct (SpecFloat.SFcompare x y) as [[]|]; done.
Qed.

Section root.
Context {A : Type} (lt : A -> A -> result bool).

(** Sifting an item that is not below the root leaves the root alone. *)
Lemma _siftdown_loop_root fuel : forall heap pos newitem root heap',
  heap !! 0 = Some root -> lt newitem root = Ok false -> 0 < pos ->
  _siftdown_loop lt fuel heap 0 pos newitem = Ok heap' ->
  heap' !! 0 = Some root.
Proof.
  induction fuel as [|fuel IH]; intros heap pos newitem root heap' Hroot Hlt Hpos H.
  - injection H as <-. by rewrite list_lookup_insert_ne by lia.
  - rewrite _siftdown_loop_S in H.
    destruct (decide (0 < pos)); [|lia].
    remember ((pos - 1) / 2) as p eqn:Hp. clear Hp.
    inv_bind H. apply getitem_Ok in Ha. rename a into parent.
    inv_bind H. destruct a.
    + destruct (decide (p = 0)) as [Hz|Hnz].
      * rewrite Hz in Ha. congruence.
      * eapply (IH _ p newitem root); [| done | lia | done].
        by rewrite list_lookup_insert_ne by lia.
    + injection H as <-. by rewrite list_lookup_insert_ne by lia.
Qed.

Lemma heappush_root heap item root heap' :
  heap !! 0 = Some root -> lt item root = Ok false ->
  heappush lt heap item = Ok heap' -> heap' !! 0 = Some root.
Proof.
  intros Hroot Hlt H. unfold heappush, _siftdown in H.
  inv_bind H. apply getitem_Ok in Ha.
  apply lookup_lt_Some in Hroot as Hlen.
  rewrite length_app in *. simpl in *.
  replace (length heap + 1 - 1) with (length heap) in * by lia.
  rewrite lookup_app_r, Nat.sub_diag in Ha by lia. injection Ha as <-.
  eapply (_siftdown_loop_root _ _ (length heap) item root); [| done | lia | done].
  by rewrite lookup_app_l by lia.
Qed.

Lemma heappop_root heap item heap' :
  heappop lt heap = Ok (item, heap') -> 2 <= length heap -> heap !! 0 = Some item.
Proof.
  intros H Hlen. unfold heappop in H. inv_bind H.
  destruct (take (length heap - 1) heap) as [|returnitem rest] eqn:Htake.
  - apply (f_equal length) in Htake. rewrite length_take in Htake. simpl in Htake. lia.
  - inv_bind H. injection H as <- <-.
    apply (f_equal (fun l => l !! 0)) in Htake.
    rewrite lookup_take_lt in Htake by lia. done.
Qed.
End root.

Lemma edges_comparable l : comparable MunicipalityEdge_lt l.
Proof. intros x y _ _. by eexists. Qed.

Lemma admission_rule_eq self edge :
  admission_rule self edge =
  isValidDistance edge
  && (bool_decide (length (edges self) < MAX_EDGES)
      || match edges self with
         | smallest :: _ => Float.ltb (distance smallest) (distance edge)
         | [] => false
         end).
Proof. reflexivity. Qed.

Lemma addEdge_rejects self edge :
  admission_rule self edge = false -> addEdge self edge = Ok self.
Proof.
  rewrite admission_rule_eq. unfold addEdge.
  intros H. destruct (isValidDistance edge); [|done]. simpl in H.
  destruct (decide (length (edges self) < MAX_EDGES)) as [Hlt|Hge].
  - by rewrite bool_decide_true in H.
  - rewrite bool_decide_false in H by done. simpl in H.
    destruct (edges self) as [|e0 rest]; [simpl in Hge; unfold MAX_EDGES in Hge; lia|].
    unfold getitem. simpl. by rewrite H.
Qed.

Lemma addEdge_accepts self edge :
  admission_rule self edge = true ->
  exists self', addEdge self edge = Ok self' /\
    edge ∈ edges self' /\
    length (edges self') =
      (if decide (length (edges self) < MAX_EDGES) then S (length (edges self))
       else length (edges self)) /\
    set_edges self' (edges self) = self.
Proof.
  rewrite admission_rule_eq. unfold addEdge.
  intros H. apply andb_true_iff in H as [Hvalid H]. rewrite Hvalid.
  destruct (heappush_ok MunicipalityEdge_lt (edges self) edge) as [h Hpush];
    [apply edges_comparable|].
  apply heappush_perm in Hpush as Hperm.
  assert (length h = S (length (edges self))) as Hlen by (by rewrite Hperm).
  assert (set_edges (set_edges self h) (edges self) = self) as Hself by (by destruct self).
  destruct (decide (length (edges self) < MAX_EDGES)) as [Hlt|Hge].
  - rsimpl. rewrite Hpush. rsimpl.
    destruct (decide (MAX_EDGES < length h)) as [|_]; [lia|].
    eexists. split; [done|]. simpl. split; [rewrite Hperm; by left|]. done.
  - rewrite bool_decide_false in H by done. simpl in H.
    destruct (edges self) as [|e0 rest] eqn:Hedges; [done|].
    unfold getitem. simpl. rsimpl. rewrite H, Hpush. rsimpl.
    destruct (decide (MAX_EDGES < length h)) as [_|]; [|simpl in *; lia].
    destruct (heappop_ok MunicipalityEdge_lt h) as [[popped h'] Hpop];
      [by destruct h | apply edges_comparable|].
    rewrite Hpop. rsimpl. eexists. split; [done|]. simpl.
    apply heappop_perm in Hpop as Hperm'.
    assert (h !! 0 = Some e0) as Hroot.
    { eapply (heappush_root MunicipalityEdge_lt (e0 :: rest)); [done | | done].
      unfold MunicipalityEdge_lt. by rewrite (ltb_asym _ _ H). }
    assert (popped = e0) as ->.
    { apply heappop_root in Hpop; [congruence | simpl in *; lia]. }
    split; [|split].
    + assert (edge ∈ e0 :: h') as Hin by (rewrite <- Hperm', Hperm; by left).
      apply elem_of_cons in Hin as [->|Hin]; [|done].
      by rewrite FloatFacts.ltb_irrefl in H.
    + apply (f_equal length) in Hedges. apply Permutation_length in Hperm'.
      simpl in *. lia.
    + destruct self; simpl in *. by rewrite Hedges.
Qed.

(** *** The root of the edge heap is its nearest edge *)

Lemma edge_le_refl e : finite_edge e -> edge_le e e.
Proof. apply FloatOrder.leb_refl. Qed.

Lemma edge_le_trans x y z : edge_le x y -> edge_le y z -> edge_le x z.
Proof. apply FloatOrder.leb_trans. Qed.

Lemma edge_lt_true x y :
  finite_edge x -> finite_edge y -> MunicipalityEdge_lt x y = Ok true -> edge_le x y.
Proof. intros _ _ H. injection H as H. by apply FloatOrder.ltb_leb. Qed.

Lemma edge_lt_false x y :
  finite_edge x -> finite_edge y -> MunicipalityEdge_lt x y = Ok false -> edge_le y x.
Proof. intros Hx Hy H. injection H as H. by apply FloatFacts.not_ltb_leb. Qed.

Lemma edge_heap_root smallest rest :
  edge_heap (smallest :: rest) -> forall e, e ∈ smallest :: rest -> edge_le smallest e.
Proof.
  intros [Hord Hall] e He.
  by apply (root_first edge_le finite_edge edge_le_refl edge_le_trans (smallest :: rest)).
Qed.

Lemma addEdge_edge_heap self edge self' :
  edge_heap (edges self) -> finite_edge edge ->
  addEdge self edge = Ok self' -> edge_heap (edges self').
Proof.
  intros [Hord Hall] Hedge H. unfold addEdge in H.
  inv_bind H. destruct a; [|by injection H as <-].
  inv_bind H. rename a into h.
  assert (edge_heap h) as [Hordh Hallh].
  { split.
    - by eapply (heappush_ordered MunicipalityEdge_lt edge_le finite_edge edge_le_trans
        edge_lt_true edge_lt_false (edges self) edge).
    - apply heappush_perm in Ha0. rewrite Ha0. by constructor. }
  destruct (decide (MAX_EDGES < length h)); [|by injection H as <-].
  inv_bind H. destruct a as [popped h']. injection H as <-. simpl.
  destruct (heappop_ordered MunicipalityEdge_lt edge_le finite_edge edge_le_refl
    edge_le_trans edge_lt_true edge_lt_false h popped h' Hordh Hallh Ha1) as [Hord' _].
  split; [done|]. apply heappop_perm in Ha1. rewrite Ha1 in Hallh.
  by apply Forall_cons in Hallh as [_ ?].
Qed.

(** ** Two entities *)

Section Pair.
Variable kernel : float -> float -> float -> float -> result float.
Variables a b : Municipality.
Hypothesis pristine_a : pristine a.
Hypothesis pristine_b : pristine b.

Lemma gather_pair_first :
  gather kernel [a; b] 0 a (seq 0 2) [] =
  d ← getDistanceBetweenMunicipalities kernel a b; Ok [(d, 1)].
Proof.
  destruct pristine_a as [Hs _].
  simpl seq. rewrite !gather_cons. simpl.
  unfold get_neighbors. rewrite Hs. rsimpl.
  destruct (decide (code b ∈ (∅ : gset string))) as [Hin|_]; [set_solver|].
  by destruct (getDistanceBetweenMunicipalities kernel a b).
Qed.

Lemma gather_pair_second :
  gather kernel [a; b] 1 b (seq 0 2) [] =
  d ← getDistanceBetweenMunicipalities kernel b a; Ok [(d, 0)].
Proof.
  destruct pristine_b as [Hs _].
  simpl seq. rewrite !gather_cons. simpl.
  unfold get_neighbors. rewrite Hs. rsimpl.
  destruct (decide (code a ∈ (∅ : gset string))) as [Hin|_]; [set_solver|].
  by destruct (getDistanceBetweenMunicipalities kernel b a).
Qed.

Lemma accept_single values i d k :
  accept values i (seq 0 MAX_EDGES) [(d, k)] =
  if gate_breaks 0 d then Ok values else link values i k d.
Proof.
  change (seq 0 MAX_EDGES) with (0 :: seq 1 9). rewrite accept_cons.
  change (heappop candidate_lt [(d, k)]) with (Ok (A := (float * nat) * list (float * nat)) ((d, k), [])).
  rsimpl. destruct (gate_breaks 0 d); [done|].
  by destruct (link values i k d).
Qed.

Lemma accept_none values i js : accept values i js [] = Ok values.
Proof. by destruct js. Qed.

Local Abbreviation pair_linked := (pair_linked a b).

Lemma round_pair_first :
  round kernel [a; b] 0 =
  d ← getDistanceBetweenMunicipalities kernel a b;
  Ok (if gate_breaks 0 d then [a; b] else pair_linked d).
Proof.
  unfold round. change (getitem [a; b] 0) with (Ok a). rsimpl.
  change (length [a; b]) with 2. rewrite gather_pair_first.
  destruct (getDistanceBetweenMunicipalities kernel a b) as [d|]; [|done]. rsimpl.
  rewrite accept_single. destruct (gate_breaks 0 d); [done|].
  destruct pristine_a as [Hsa _], pristine_b as [Hsb _].
  by rewrite (link_Ok [a; b] 0 1 a b ∅ ∅ d).
Qed.

Lemma round_pair_second_apart :
  round kernel [a; b] 1 =
  d ← getDistanceBetweenMunicipalities kernel b a;
  Ok (if gate_breaks 0 d then [a; b]
      else [linked a (code b) d ∅; linked b (code a) d ∅]).
Proof.
  unfold round. change (getitem [a; b] 1) with (Ok b). rsimpl.
  change (length [a; b]) with 2. rewrite gather_pair_second.
  destruct (getDistanceBetweenMunicipalities kernel b a) as [d|]; [|done]. rsimpl.
  rewrite accept_single. destruct (gate_breaks 0 d); [done|].
  unfold link. change (getitem [a; b] 1) with (Ok b).
  change (getitem [a; b] 0) with (Ok a). rsimpl.
  destruct pristine_a as [Hsa _], pristine_b as [Hsb _].
  unfold get_neighbors. rewrite Hsb. rsimpl. simpl. rewrite Hsa. done.
Qed.

Lemma seen_linked m other d :
  get_neighbors (linked m other d ∅) = Ok (∅ ∪ {[other]}).
Proof. reflexivity. Qed.

Lemma code_linked m other d seen : code (linked m other d seen) = code m.
Proof. reflexivity. Qed.

Lemma round_pair_second_linked d :
  round kernel (pair_linked d) 1 = Ok (pair_linked d).
Proof.
  unfold round, pair_linked. simpl length. simpl seq. rsimpl.
  change (getitem _ 1) with (Ok (linked b (code a) d ∅)). rsimpl.
  rewrite !gather_cons.
  destruct (decide (1 = 0)) as [?|_]; [lia|].
  destruct (decide (1 = 1)) as [_|?]; [|lia].
  change (getitem _ 0) with (Ok (linked a (code b) d ∅)). rsimpl.
  rewrite seen_linked. rsimpl. rewrite code_linked.
  rewrite decide_True by set_solver. reflexivity.
Qed.

Lemma round_pair_first_linked d :
  round kernel (pair_linked d) 0 = Ok (pair_linked d).
Proof.
  unfold round, pair_linked. simpl length. simpl seq. rsimpl.
  change (getitem _ 0) with (Ok (linked a (code b) d ∅)). rsimpl.
  rewrite !gather_cons.
  destruct (decide (0 = 0)) as [_|?]; [|lia].
  destruct (decide (0 = 1)) as [?|_]; [lia|].
  change (getitem _ 1) with (Ok (linked b (code a) d ∅)). rsimpl.
  rewrite seen_linked. rsimpl. rewrite code_linked.
  rewrite decide_True by set_solver. reflexivity.
Qed.
End Pair.

Section PairOrder.
Variable kernel : float -> float -> float -> float -> result float.

Lemma rounds_pair a b :
  pristine a -> pristine b ->
  getDistanceBetweenMunicipalities kernel a b =
    getDistanceBetweenMunicipalities kernel b a ->
  rounds kernel [a; b] (seq 0 2) =
  d ← getDistanceBetweenMunicipalities kernel a b;
  Ok (if gate_breaks 0 d then [a; b] else pair_linked a b d).
Proof.
  intros Ha Hb Hsym. simpl seq. rewrite rounds_cons.
  rewrite (round_pair_first kernel a b Ha Hb).
  destruct (getDistanceBetweenMunicipalities kernel a b) as [d|] eqn:Hd; [|done].
  rsimpl. destruct (gate_breaks 0 d) eqn:Hg; rewrite rounds_cons.
  - rewrite (round_pair_second_apart kernel a b Ha Hb), <- Hsym. rsimpl.
    by rewrite Hg.
  - by rewrite round_pair_second_linked.
Qed.

Lemma json_dump_pair x y sx sy :
  _neighbors x = Some sx -> _neighbors y = Some sy ->
  json_dump [x; y] = Ok [set_neighbors x None; set_neighbors y None].
Proof.
  intros Hx Hy. rewrite !json_dump_cons. unfold municipalityDictSerializer.
  rewrite Hx, Hy. rsimpl. by rewrite !dump_edges_Ok.
Qed.

Lemma selector_pair a b :
  pristine a -> pristine b ->
  getDistanceBetweenMunicipalities kernel a b =
    getDistanceBetweenMunicipalities kernel b a ->
  addEdgesToMunicipalitiesV2 kernel [b; a] =
  reverse <$> addEdgesToMunicipalitiesV2 kernel [a; b].
Proof.
  intros Ha Hb Hsym. unfold addEdgesToMunicipalitiesV2.
  change (length [b; a]) with 2. change (length [a; b]) with 2.
  rewrite (rounds_pair a b Ha Hb Hsym), (rounds_pair b a Hb Ha (eq_sym Hsym)), <- Hsym.
  destruct (getDistanceBetweenMunicipalities kernel a b) as [d|]; [|done].
  rsimpl. destruct Ha as [Hsa _], Hb as [Hsb _].
  destruct (gate_breaks 0 d).
  - by rewrite (json_dump_pair a b ∅ ∅), (json_dump_pair b a ∅ ∅).
  - unfold pair_linked.
    rewrite (json_dump_pair (linked a (code b) d ∅) (linked b (code a) d ∅)
               (∅ ∪ {[code b]}) (∅ ∪ {[code a]})) by reflexivity.
    rewrite (json_dump_pair (linked b (code a) d ∅) (linked a (code b) d ∅)
               (∅ ∪ {[code a]}) (∅ ∪ {[code b]})) by reflexivity.
    reflexivity.
Qed.
End PairOrder.

Import Examples.

Lemma pristine_entity c l : pristine (entity c l).
Proof. done. Qed.

Ltac run := vm_compute; reflexivity.

Lemma hub_run : addEdgesToMunicipalitiesV2 meridian hub =
  Ok (returned (addEdgesToMunicipalitiesV2 meridian hub)).
Proof. run. Qed.

Example hub_codes :
  (fun m => (code m, toMuniCode <$> edges m)) <$>
    returned (addEdgesToMunicipalitiesV2 meridian hub) =
  [("13001", ["13004"; "13012"; "13005"; "13007"; "13011"]);
   ("13002", ["13009"; "13011"; "13012"]);
   ("13003", ["13006"; "13008"; "13012"; "13010"]);
   ("13004", ["13001"; "13005"; "13007"; "13012"; "13011"]);
   ("13005", ["13001"; "13004"; "13007"; "13011"; "13012"]);
   ("13006", ["13003"; "13008"; "13010"; "13012"]);
   ("13007", ["13004"; "13005"; "13011"; "13001"; "13012"; "13009"]);
   ("13008", ["13003"; "13006"; "13010"; "13012"]);
   ("13009", ["13002"; "13011"; "13007"; "13012"]);
   ("13010", ["13006"; "13008"; "13003"; "13012"]);
   ("13011", ["13002"; "13005"; "13007"; "13009"; "13004"; "13001"; "13012"]);
   ("13012", ["13001"; "13003"; "13004"; "13005"; "13006"; "13007"; "13008";
              "13010"; "13011"; "13009"; "13002"])].
Proof. run. Qed.

(** ** C1 *)

(** C1: an adjacency list of the selector's output holds at most
    [MAX_EDGES] entries.  The selector breaks it: of twelve entities on a
    meridian, 3 to 46 miles from the twelfth, each accepts the twelfth in
    its own round, and the twelfth ends with eleven edges. *)
Theorem hub_exceeds_MAX_EDGES :
  exists out m,
    addEdgesToMunicipalitiesV2 meridian hub = Ok out /\
    out !! 11 = Some m /\ code m = "13012" /\
    length (edges m) = 11 /\ MAX_EDGES < length (edges m).
Proof.
  exists (returned (addEdgesToMunicipalitiesV2 meridian hub)).
  eexists. split; [run|]. split; [vm_compute; reflexivity|].
  split; [reflexivity|]. split; [reflexivity|]. vm_compute. lia.
Qed.

(** ** C2 *)

Lemma three_run : addEdgesToMunicipalitiesV2 meridian three =
  Ok (returned (addEdgesToMunicipalitiesV2 meridian three)).
Proof. run. Qed.

Lemma three_pristine : Forall pristine three.
Proof. repeat constructor. Qed.

(** C2 as stated fails: "B" accepts nobody in its own round beyond "C" at
    69 miles, rank 0 there, and has received "A" at 62 miles; ranked
    among the edges of "B" the edge to "C" has rank 1, whose gate is 50
    miles. *)
Lemma ranked_gate_fails :
  ~ (forall (kernel : float -> float -> float -> float -> result float) values out,
       Forall pristine values ->
       addEdgesToMunicipalitiesV2 kernel values = Ok out ->
       forall m, m ∈ out -> ranked_within_gate m).
Proof.
  intros H.
  assert (exists m, m ∈ returned (addEdgesToMunicipalitiesV2 meridian three) /\
                    ~ ranked_within_gate m) as (m & Hm & Hnot).
  { eexists. split.
    - apply list_elem_of_lookup. exists 1. vm_compute. reflexivity.
    - intros Hr. specialize (Hr 1 _ ltac:(vm_compute; reflexivity)).
      vm_compute in Hr. discriminate Hr. }
  apply Hnot. exact (H meridian three _ three_pristine three_run m Hm).
Qed.

Lemma gate_breaks_at_threshold j : gate_breaks j (threshold j) = false.
Proof. rewrite gate_breaks_threshold. apply FloatFacts.ltb_irrefl. Qed.

Lemma accept_break values i j js h d k h' :
  heappop candidate_lt h = Ok ((d, k), h') -> gate_breaks j d = true ->
  accept values i (j :: js) h = Ok values.
Proof.
  intros Hpop Hgate. rewrite accept_cons.
  destruct h as [|x h0] eqn:Hh; [done|]. rewrite <- Hh in *.
  rewrite Hpop. rsimpl. by rewrite Hgate.
Qed.

(** C2, amended: the edges of every entity of the output split into the
    block [own i] the entity accepted in its own round and the mirror
    images of edges in the blocks of other entities.  A block holds at
    most [MAX_EDGES] edges; its [j]-th edge is not beyond the threshold
    of rank [j], a distance equal to the threshold being accepted; the
    block is in increasing order of distance when no distance is NaN;
    and the first popped candidate that is beyond the threshold of its
    rank ends the round with nothing more accepted. *)
Theorem own_round_gate (kernel : float -> float -> float -> float -> result float)
    (values out : list Municipality) :
  Forall pristine values ->
  addEdgesToMunicipalitiesV2 kernel values = Ok out ->
  (exists own : nat -> list MunicipalityEdge,
     (forall i m, out !! i = Some m ->
        exists pre post, edges m = pre ++ own i ++ post /\
          forall e, e ∈ pre ++ post -> exists k, k <> i /\ mirror e ∈ own k) /\
     (forall i, length (own i) <= MAX_EDGES) /\
     (forall i j e, own i !! j = Some e ->
        Float.ltb (threshold j) (distance e) = false /\
        (Float.is_nan (distance e) = false ->
         Float.leb (distance e) (threshold j) = true)) /\
     (finite_distances kernel values -> forall i, block_sorted (own i))) /\
  (forall j, gate_breaks j (threshold j) = false) /\
  (forall vals i j js h d k h',
     heappop candidate_lt h = Ok ((d, k), h') -> gate_breaks j d = true ->
     accept vals i (j :: js) h = Ok vals).
Proof.
  intros Hpristine H. split; [|split; [apply gate_breaks_at_threshold | apply accept_break]].
  destruct (selector_spec _ _ _ Hpristine H) as (final & own & _ & Hout & _ & _ & Hb & Hg).
  exists own. split; [|split; [|split]].
  - intros i m Hi. destruct (out_lookup _ _ _ _ Hout Hi) as (m0 & Hm0 & ->).
    apply (Hb i m0 Hm0).
  - intros i. apply (Hg i).
  - intros i j e Hj. destruct (Hg i) as (Hlen & Hgate & _).
    assert (j < MAX_EDGES) as Hlt by (apply lookup_lt_Some in Hj; lia).
    pose proof (Hgate j e Hj) as Hopen. split.
    + by rewrite <- gate_breaks_threshold.
    + by apply (gate_open_le j).
  - intros Hfin i. by apply (Hg i).
Qed.

Ltac elem_cases H :=
  repeat (apply elem_of_cons in H as [->|H]); [..|by apply elem_of_nil in H].

Lemma three_finite : finite_distances meridian three.
Proof.
  intros m1 m2 d H1 H2 Hd. elem_cases H1; elem_cases H2;
    vm_compute in Hd; injection Hd as <-; reflexivity.
Qed.

Lemma own_round_gate_witness :
  (exists own : nat -> list MunicipalityEdge,
     (forall i m, returned (addEdgesToMunicipalitiesV2 meridian three) !! i = Some m ->
        exists pre post, edges m = pre ++ own i ++ post /\
          forall e, e ∈ pre ++ post -> exists k, k <> i /\ mirror e ∈ own k) /\
     (forall i, length (own i) <= MAX_EDGES) /\
     (forall i j e, own i !! j = Some e ->
        Float.ltb (threshold j) (distance e) = false /\
        (Float.is_nan (distance e) = false ->
         Float.leb (distance e) (threshold j) = true)) /\
     (finite_distances meridian three -> forall i, block_sorted (own i))) /\
  (forall j, gate_breaks j (threshold j) = false) /\
  (forall vals i j js h d k h',
     heappop candidate_lt h = Ok ((d, k), h') -> gate_breaks j d = true ->
     accept vals i (j :: js) h = Ok vals).
Proof.
  apply (own_round_gate meridian three).
  - repeat constructor.
  - vm_compute. reflexivity.
Defined.

(** ** C3 *)

Lemma four_run : addEdgesToMunicipalitiesV2 meridian four =
  Ok (returned (addEdgesToMunicipalitiesV2 meridian four)).
Proof. run. Qed.

Lemma four'_run : addEdgesToMunicipalitiesV2 meridian four' =
  Ok (returned (addEdgesToMunicipalitiesV2 meridian four')).
Proof. run. Qed.

(** C3 as stated fails.  "A" has "B" at 62 miles, "C" at 69 and "D" at 79;
    "C" and "D" are 10 miles apart.  Visited first, "A" accepts "B" and
    stops at "C", beyond the 50 miles of rank 1, and "C" in its round
    prefers "D" and stops at "A": no edge between "A" and "C".  Visited
    after "B", "A" skips "B" and accepts "C" at rank 0. *)
Lemma order_changes_edges : ~ order_independent meridian.
Proof.
  intros H.
  assert (four ≡ₚ four') as Hperm by apply perm_swap.
  assert (Forall pristine four) as Hp by repeat constructor.
  specialize (H four four' _ _ Hperm Hp four_run four'_run
    (at_index (returned (addEdgesToMunicipalitiesV2 meridian four)) 0)
    (at_index (returned (addEdgesToMunicipalitiesV2 meridian four')) 1)).
  assert (length (edges (at_index (returned (addEdgesToMunicipalitiesV2 meridian four)) 0)) <>
          length (edges (at_index (returned (addEdgesToMunicipalitiesV2 meridian four')) 1)))
    as Hne by (vm_compute; discriminate).
  apply Hne. f_equal. apply H.
  - apply list_elem_of_lookup. exists 0. vm_compute. reflexivity.
  - apply list_elem_of_lookup. exists 1. vm_compute. reflexivity.
  - vm_compute. reflexivity.
Qed.

(** C3, amended: with two entities both orders give the same adjacency
    lists, and the same exception when the distance function raises. *)
Theorem pair_order_independent (kernel : float -> float -> float -> float -> result float)
    (a b : Municipality) :
  pristine a -> pristine b ->
  getDistanceBetweenMunicipalities kernel a b =
    getDistanceBetweenMunicipalities kernel b a ->
  addEdgesToMunicipalitiesV2 kernel [b; a] =
  reverse <$> addEdgesToMunicipalitiesV2 kernel [a; b].
Proof. apply selector_pair. Qed.

Lemma pair_order_independent_witness :
  addEdgesToMunicipalitiesV2 meridian [entity "B" 1990; entity "A" 1900] =
  reverse <$> addEdgesToMunicipalitiesV2 meridian [entity "A" 1900; entity "B" 1990].
Proof.
  apply (pair_order_independent meridian (entity "A" 1900) (entity "B" 1990)).
  - split; reflexivity.
  - split; reflexivity.
  - vm_compute. reflexivity.
Defined.

(** ** C4 *)

(** C4: in the selector's output every edge of an entity starts at that
    entity and has its mirror image, with the same distance, in the list
    of the entity it leads to.  The edge-list driven builder gives no such
    pair: from the one row "A" -> "B" it leaves "A" with the edge and "B"
    with none. *)
Theorem mutual_edges (kernel : float -> float -> float -> float -> result float)
    (values out : list Municipality) (i : nat) (m : Municipality) (e : MunicipalityEdge) :
  Forall pristine values ->
  addEdgesToMunicipalitiesV2 kernel values = Ok out ->
  out !! i = Some m -> e ∈ edges m ->
  (fromMuniCode e = code m /\
   exists k m', k <> i /\ out !! k = Some m' /\ code m' = toMuniCode e /\
     mirror e ∈ edges m' /\ distance (mirror e) = distance e) /\
  (exists result mA mB e',
     addEdgesToMunicipalities meridian two_codes one_row = Ok result /\
     result !! "A" = Some mA /\ edges mA = [e'] /\
     result !! toMuniCode e' = Some mB /\ edges mB = []).
Proof.
  intros Hp H Hi He. split.
  - destruct (selector_mutual kernel values out i m e Hp H Hi He)
      as (Hfrom & k & m' & Hk & Hm' & Hc & Hmir).
    split; [done|]. by exists k, m'.
  - exists (returned_map (addEdgesToMunicipalities meridian two_codes one_row)).
    eexists. eexists. eexists.
    split; [vm_compute; reflexivity|]. split; [vm_compute; reflexivity|].
    split; [reflexivity|]. split; [vm_compute; reflexivity|]. reflexivity.
Qed.

Lemma mutual_edges_witness :
  let out := returned (addEdgesToMunicipalitiesV2 meridian three) in
  let e := {| fromMuniCode := "B"; toMuniCode := "C";
              distance := Float.mul (Float.abs (Float.sub (Float.decimal 2090 2)
                            (Float.decimal 1990 2))) miles_per_degree |} in
  (fromMuniCode e = code (at_index out 1) /\
   exists k m', k <> 1 /\ out !! k = Some m' /\
     code m' = toMuniCode e /\ mirror e ∈ edges m' /\ distance (mirror e) = distance e) /\
  (exists result mA mB e',
     addEdgesToMunicipalities meridian two_codes one_row = Ok result /\
     result !! "A" = Some mA /\ edges mA = [e'] /\
     result !! toMuniCode e' = Some mB /\ edges mB = []).
Proof.
  intros out e.
  apply (mutual_edges meridian three out 1 (at_index out 1) e).
  - repeat constructor.
  - vm_compute. reflexivity.
  - vm_compute. reflexivity.
  - apply list_elem_of_lookup. exists 1. vm_compute. reflexivity.
Defined.

(** ** C5 *)

(** C5: in the selector's output no entity has its own code among its
    neighbours and no code twice, the codes of the entities being distinct
    as the keys of a mapping are. *)
Theorem no_self_loop_no_duplicate
    (kernel : float -> float -> float -> float -> result float)
    (values out : list Municipality) (i : nat) (m : Municipality) :
  Forall pristine values -> NoDup (code <$> values) ->
  addEdgesToMunicipalitiesV2 kernel values = Ok out ->
  out !! i = Some m ->
  (code m ∉ toMuniCode <$> edges m) /\ NoDup (toMuniCode <$> edges m).
Proof. apply selector_simple. Qed.

Lemma no_self_loop_no_duplicate_witness :
  let m := at_index (returned (addEdgesToMunicipalitiesV2 meridian hub)) 11 in
  (code m ∉ toMuniCode <$> edges m) /\ NoDup (toMuniCode <$> edges m).
Proof.
  intros m.
  apply (no_self_loop_no_duplicate meridian hub
    (returned (addEdgesToMunicipalitiesV2 meridian hub)) 11 m).
  - repeat constructor.
  - apply (bool_decide_unpack (NoDup (code <$> hub))). vm_compute. reflexivity.
  - vm_compute. reflexivity.
  - vm_compute. reflexivity.
Defined.

(** ** C6 *)





(** The run of CPython between Mexico City and Guadalajara, number by
    number: 286.55523565716436 miles. *)
Example mexico_city_guadalajara :
  getDistanceBetweenMunicipalities (haversine libm_sin libm_cos libm_atan2 libm_pow)
    mexicoCity guadalajara = Ok (S754_finite false 5041133017682305 (-44)).
Proof. vm_compute. reflexivity. Qed.

(** Between the antipodal points the sum [a] comes out as [1 + 2^-52]:
    [1 - a] is [-2^-52] and [math.sqrt] raises. *)
Example antipodal_a :
  great_circle_a libm_sin_value libm_cos_value (lat north) (lon north) (lat south) (lon south) =
  S754_finite false 4503599627370497 (-52).
Proof. vm_compute. reflexivity. Qed.





(** ** C7 *)

(** C7: the distance function gives the same float, or raises the same
    exception, for both orders of its arguments, over a C library whose
    sine is odd and whose square does not depend on the sign. *)
Theorem distance_symmetric (math_sin math_cos : float -> option float)
    (math_atan2 : float -> float -> float) (float_pow : float -> float -> option float)
    (muni1 muni2 : Municipality) :
  (forall x, math_sin (Float.opp x) = Float.opp <$> math_sin x) ->
  (forall x, float_pow (Float.opp x) (Float.of_Z 2) = float_pow x (Float.of_Z 2)) ->
  getDistanceBetweenMunicipalities (haversine math_sin math_cos math_atan2 float_pow)
    muni1 muni2 =
  getDistanceBetweenMunicipalities (haversine math_sin math_cos math_atan2 float_pow)
    muni2 muni1.
Proof.
  intros Hsin Hpow. unfold getDistanceBetweenMunicipalities.
  by apply haversine_swap.
Qed.

Lemma distance_symmetric_witness :
  let sin := fun x : float => Some x in
  let cos := fun x : float => Some x in
  let atan2 := fun y x : float => Float.div y x in
  let pow := fun x _ : float => Some (Float.abs x) in
  getDistanceBetweenMunicipalities (haversine sin cos atan2 pow)
    (entity "A" 1900) (entity "B" 1990) =
  getDistanceBetweenMunicipalities (haversine sin cos atan2 pow)
    (entity "B" 1990) (entity "A" 1900).
Proof.
  intros sin cos atan2 pow.
  apply (distance_symmetric sin cos atan2 pow).
  - intros x. reflexivity.
  - intros x. unfold pow. destruct x; reflexivity.
Defined.

(** ** C8 *)

(** C8: [addEdge] pushes the edge exactly when the rule of the
    specification holds: the edge is then in the list, which grows by one
    under capacity and keeps its length at capacity; otherwise the entity
    is unchanged.  The edge at the root of a heap-ordered list is its
    nearest one, and [addEdge] keeps the list heap-ordered.  With the
    prefix an edge of 150 miles passes the rule, and the selector never
    returns an edge beyond [MAX_DISTANCE], whatever the codes. *)
Theorem addEdge_admission (self : Municipality) (edge : MunicipalityEdge) :
  (admission_rule self edge = true ->
   exists self', addEdge self edge = Ok self' /\ edge ∈ edges self' /\
     length (edges self') =
       (if decide (length (edges self) < MAX_EDGES) then S (length (edges self))
        else length (edges self)) /\
     set_edges self' (edges self) = self) /\
  (admission_rule self edge = false -> addEdge self edge = Ok self) /\
  (forall smallest rest, edge_heap (edges self) -> edges self = smallest :: rest ->
     forall e, e ∈ edges self -> Float.leb (distance smallest) (distance e) = true) /\
  (forall self', edge_heap (edges self) -> finite_edge edge ->
     addEdge self edge = Ok self' -> edge_heap (edges self')) /\
  admission_rule mexicoCity
    {| fromMuniCode := "09001"; toMuniCode := "15033"; distance := Float.of_Z 150 |} = true /\
  (forall (kernel : float -> float -> float -> float -> result float) values out i m e,
     Forall pristine values ->
     addEdgesToMunicipalitiesV2 kernel values = Ok out ->
     out !! i = Some m -> e ∈ edges m ->
     Float.ltb (Float.of_Z MAX_DISTANCE) (distance e) = false).
Proof.
  split; [apply addEdge_accepts|]. split; [apply addEdge_rejects|].
  split; [|split; [|split]].
  - intros smallest rest Hheap Hedges e He. rewrite Hedges in Hheap, He.
    by apply (edge_heap_root smallest rest).
  - intros self'. apply addEdge_edge_heap.
  - vm_compute. reflexivity.
  - intros kernel values out i m e. apply selector_max_distance.
Qed.

Lemma addEdge_admission_witness :
  let edge := {| fromMuniCode := "09001"; toMuniCode := "15033";
                 distance := Float.of_Z 150 |} in
  exists self', addEdge mexicoCity edge = Ok self' /\ edge ∈ edges self' /\
    length (edges self') =
      (if decide (length (edges mexicoCity) < MAX_EDGES) then S (length (edges mexicoCity))
       else length (edges mexicoCity)) /\
    set_edges self' (edges mexicoCity) = mexicoCity.
Proof.
  intros edge. apply (proj1 (addEdge_admission mexicoCity edge)).
  vm_compute. reflexivity.
Defined.

(** ** C9 *)

Lemma json_dump_again out :
  Forall (fun m => _neighbors m = None) out -> out <> [] ->
  json_dump out = Raise KeyError.
Proof.
  intros Hall Hne. destruct out as [|m rest]; [done|].
  apply Forall_cons in Hall as [Hm _].
  rewrite json_dump_cons. unfold municipalityDictSerializer. by rewrite Hm.
Qed.

(** C9: the serializer deletes [_neighbors] from the live entity and
    returns the attribute table it is left with, the other attributes
    untouched; every entity the selector returns has gone through it and
    carries no [_neighbors], so that serializing it again, alone or with
    the whole mapping, raises KeyError. *)
Theorem serializer_deletes_neighbors
    (kernel : float -> float -> float -> float -> result float)
    (values out : list Municipality) (m : Municipality) :
  addEdgesToMunicipalitiesV2 kernel values = Ok out -> m ∈ out ->
  (exists live seen,
     _neighbors live = Some seen /\
     municipalityDictSerializer (PyMunicipality live) = Ok (PyMunicipality m) /\
     m = set_neighbors live None) /\
  _neighbors m = None /\
  municipalityDictSerializer (PyMunicipality m) = Raise KeyError /\
  json_dump out = Raise KeyError.
Proof.
  intros H Hm. unfold addEdgesToMunicipalitiesV2 in H.
  inv_bind H. rename a into final.
  apply json_dump_inv in H as [-> Hall].
  pose proof Hm as Hm'.
  apply list_elem_of_fmap in Hm' as (live & -> & Hlive).
  eapply Forall_forall in Hall as [seen Hseen]; [|exact Hlive].
  split; [|split; [done|split; [done|]]].
  - exists live, seen. split; [done|]. split; [|done].
    unfold municipalityDictSerializer. by rewrite Hseen.
  - apply json_dump_again.
    + apply Forall_fmap. by apply Forall_true.
    + intros Hnil. rewrite Hnil in Hm. by apply elem_of_nil in Hm.
Qed.

Lemma serializer_deletes_neighbors_witness :
  let out := returned (addEdgesToMunicipalitiesV2 meridian three) in
  let m := at_index out 1 in
  (exists live seen,
     _neighbors live = Some seen /\
     municipalityDictSerializer (PyMunicipality live) = Ok (PyMunicipality m) /\
     m = set_neighbors live None) /\
  _neighbors m = None /\
  municipalityDictSerializer (PyMunicipality m) = Raise KeyError /\
  json_dump out = Raise KeyError.
Proof.
  intros out m.
  apply (serializer_deletes_neighbors meridian three out m).
  - vm_compute. reflexivity.
  - apply list_elem_of_lookup. exists 1. vm_compute. reflexivity.
Defined.

(** ** C10 *)

(** C10 as stated fails: "P" has "X3" and "X4" at the same distance, 415
    miles, and the run returns.  The two tuples sit in the two subtrees
    of the heap of "P"; the only pop of its round, which yields "X1" too
    far at 173 miles, compares neither with the other. *)
Lemma tie_without_TypeError : ~ ties_raise meridian.
Proof.
  intros H.
  specialize (H tied 0 3 4 (entity "P" 2000) (entity "X3" 2600) (entity "X4" 1400) _ _
    ltac:(repeat constructor) eq_refl eq_refl eq_refl
    ltac:(lia) ltac:(lia) ltac:(lia) eq_refl eq_refl ltac:(vm_compute; reflexivity)).
  vm_compute in H. discriminate H.
Qed.

(** C10, amended: when every entity carries [_neighbors], the distance
    function returns for every pair and no entity has two others at equal
    distances, the selector returns.  Equal distances raise TypeError
    when the heap compares the two tuples, as it does for an entity with
    two candidates only. *)
Theorem distinct_distances_complete
    (kernel : float -> float -> float -> float -> result float)
    (start : list Municipality) :
  has_seen start ->
  (forall i j m1 m2, i <> j -> start !! i = Some m1 -> start !! j = Some m2 ->
     is_Ok (getDistanceBetweenMunicipalities kernel m1 m2)) ->
  (forall i j k m1 m2 m3 d2 d3, j <> k -> j <> i -> k <> i ->
     start !! i = Some m1 -> start !! j = Some m2 -> start !! k = Some m3 ->
     getDistanceBetweenMunicipalities kernel m1 m2 = Ok d2 ->
     getDistanceBetweenMunicipalities kernel m1 m3 = Ok d3 ->
     Float.eqb d2 d3 = false) ->
  is_Ok (addEdgesToMunicipalitiesV2 kernel start) /\
  addEdgesToMunicipalitiesV2 meridian tied_three = Raise TypeError.
Proof.
  intros Hseen Hdef Hdistinct. split.
  - by apply selector_completes.
  - vm_compute. reflexivity.
Qed.

Lemma three_lookup i m :
  three !! i = Some m ->
  (i = 0 /\ m = entity "A" 1900) \/ (i = 1 /\ m = entity "B" 1990) \/
  (i = 2 /\ m = entity "C" 2090).
Proof.
  destruct i as [|[|[|i]]]; intros H; [| | |discriminate H];
    injection H as <-; auto.
Qed.

Lemma distinct_distances_complete_witness :
  is_Ok (addEdgesToMunicipalitiesV2 meridian three) /\
  addEdgesToMunicipalitiesV2 meridian tied_three = Raise TypeError.
Proof.
  apply (distinct_distances_complete meridian three).
  - intros j m Hj.
    apply three_lookup in Hj as [[_ ->]|[[_ ->]|[_ ->]]]; eexists; reflexivity.
  - intros i j m1 m2 _ _ _. eexists. reflexivity.
  - intros i j k m1 m2 m3 d2 d3 Hjk Hji Hki H1 H2 H3 Hd2 Hd3.
    apply three_lookup in H1 as [[-> ->]|[[-> ->]|[-> ->]]];
      apply three_lookup in H2 as [[-> ->]|[[-> ->]|[-> ->]]];
      apply three_lookup in H3 as [[-> ->]|[[-> ->]|[-> ->]]];
      try (exfalso; lia);
      vm_compute in Hd2, Hd3; injection Hd2 as <-; injection Hd3 as <-;
      vm_compute; reflexivity.
Defined.

(** ** Induction over the links of a run *)

Section LinkInduction.
Variable kernel : float -> float -> float -> float -> result float.
Variable I : list Municipality -> Prop.
Hypothesis I_link : forall values i k d values' m1 m2,
  i <> k -> values !! i = Some m1 -> values !! k = Some m2 ->
  getDistanceBetweenMunicipalities kernel m1 m2 = Ok d ->
  wf values -> I values -> link values i k d = Ok values' -> I values'.

Local Abbreviation measured := (measured kernel).

Lemma measured_pop start i h x h' :
  measured start i h -> heappop candidate_lt h = Ok (x, h') ->
  measured start i [x] /\ measured start i h'.
Proof.
  intros Hm Hpop. apply heappop_perm in Hpop.
  split; intros y Hy; apply Hm; rewrite Hpop.
  - apply list_elem_of_singleton in Hy as ->. by left.
  - by right.
Qed.

Lemma accept_link_ind start i js : forall cur h cur',
  measured start i h -> extends start cur -> wf cur -> I cur ->
  accept cur i js h = Ok cur' -> I cur'.
Proof.
  induction js as [|j js IH]; intros cur h cur' Hm Hext Hwf HI H.
  - simpl in H. by injection H as <-.
  - rewrite accept_cons in H. destruct h as [|x0 h0] eqn:Hh.
    { by injection H as <-. }
    rewrite <- Hh in *. clear Hh x0 h0.
    inv_bind H. destruct a as [[d k] h'].
    destruct (measured_pop _ _ _ _ _ Hm Ha) as [Hx Hm'].
    destruct (gate_breaks j d). { by injection H as <-. }
    inv_bind H. rename a into cur2.
    destruct (Hx (d, k)) as (Hki & m1 & m2 & H1 & H2 & Hd); [by left|].
    simpl in Hki, H2, Hd.
    destruct Hext as [Hlen Hgrow].
    destruct (Hgrow i m1 H1) as (m1' & H1' & Hg1).
    destruct (Hgrow k m2 H2) as (m2' & H2' & Hg2).
    assert (i <> k) as Hik by congruence.
    apply (IH cur2 h' cur'); [done | | | |done].
    + eapply extends_trans; [by split|]. by eapply link_extends.
    + by eapply link_wf.
    + eapply (I_link cur i k d cur2 m1' m2'); try done.
      rewrite (distance_grows kernel m1 m2 m1' m2'); done.
Qed.

Lemma round_link_ind values i values' :
  wf values -> I values -> round kernel values i = Ok values' -> I values'.
Proof.
  intros Hwf HI H. unfold round in H.
  inv_bind H. apply getitem_Ok in Ha. rename a into muni1.
  inv_bind H. rename a into h.
  destruct (Hwf i muni1 Ha) as [(s & Hs & _) _].
  destruct (gather_spec _ _ _ _ _ _ _ _ Hs Ha0) as (picked & Hp & _ & Hc).
  rewrite app_nil_r in Hp.
  apply (accept_link_ind values i (seq 0 MAX_EDGES) values h values'); try done.
  - intros x Hx. rewrite Hp in Hx. destruct (Hc x Hx) as (Hne & m2 & H2 & _ & Hd).
    split; [done|]. by exists muni1, m2.
  - apply extends_refl.
Qed.

Lemma rounds_link_ind order : forall values values',
  wf values -> I values -> rounds kernel values order = Ok values' -> I values'.
Proof.
  induction order as [|i order IH]; intros values values' Hwf HI H.
  - simpl in H. by injection H as <-.
  - rewrite rounds_cons in H. inv_bind H.
    destruct (round_spec _ _ _ _ Ha Hwf) as (Hwf' & _).
    apply (IH a values'); [done | | done].
    by apply (round_link_ind values i a).
Qed.

(** What holds of pristine entities and is kept by every link holds of
    the entities the selector leaves, before they are serialized. *)
Lemma selector_link_ind values out :
  Forall pristine values -> I values ->
  addEdgesToMunicipalitiesV2 kernel values = Ok out ->
  exists final, out = (fun m => set_neighbors m None) <$> final /\
    length final = length values /\ I final.
Proof.
  intros Hp HI H.
  destruct (selector_spec _ _ _ Hp H) as (final & own & Hr & Hout & _ & [Hlen _] & _).
  exists final. split; [done|]. split; [done|].
  apply (rounds_link_ind (seq 0 (length values)) values final); [|done|done].
  by apply pristine_wf.
Qed.
End LinkInduction.

(** ** The selector assigns [edges] and [_neighbors] only *)

Lemma same_identity_refl m : same_identity m m.
Proof. by repeat split. Qed.

Lemma same_identity_trans m1 m2 m3 :
  same_identity m1 m2 -> same_identity m2 m3 -> same_identity m1 m3.
Proof.
  intros (?&?&?&?&?&?) (?&?&?&?&?&?). repeat split; congruence.
Qed.

Lemma same_identity_linked m other d s : same_identity m (linked m other d s).
Proof. by repeat split. Qed.

Lemma Forall2_insert_r {A B} (P : A -> B -> Prop) (l : list A) (k : list B) i y :
  Forall2 P l k -> (forall x, l !! i = Some x -> P x y) -> Forall2 P l (<[i := y]> k).
Proof.
  intros HF Hy. destruct (l !! i) as [x|] eqn:Hx.
  - rewrite <- (list_insert_id l i x Hx). apply Forall2_insert; [done|]. by apply Hy.
  - apply lookup_ge_None in Hx. rewrite list_insert_ge; [done|].
    by rewrite <- (Forall2_length _ _ _ HF).
Qed.

Lemma link_same_identity start values i k d values' :
  i <> k -> Forall2 same_identity start values ->
  link values i k d = Ok values' -> Forall2 same_identity start values'.
Proof.
  intros Hik HF H.
  destruct (link_inv _ _ _ _ _ Hik H) as (m1 & m2 & s1 & s2 & H1 & H2 & _ & _ & ->).
  apply Forall2_insert_r; [apply Forall2_insert_r; [done|]|].
  - intros x Hx. destruct (Forall2_lookup_l _ _ _ _ _ HF Hx) as (y & Hy & Hxy).
    assert (y = m1) as -> by congruence.
    eapply same_identity_trans; [done|]. apply same_identity_linked.
  - intros x Hx. destruct (Forall2_lookup_l _ _ _ _ _ HF Hx) as (y & Hy & Hxy).
    assert (y = m2) as -> by congruence.
    eapply same_identity_trans; [done|]. apply same_identity_linked.
Qed.

(** ** The total of [testAndSaveToMap] *)

Lemma totalEdges_foldl munis acc :
  foldl (fun totalEdges muni => totalEdges + length (edges muni)) acc munis =
  acc + totalEdges munis.
Proof.
  unfold totalEdges. revert acc. induction munis as [|m munis IH]; intros acc; simpl.
  - lia.
  - rewrite IH, (IH (length (edges m))). lia.
Qed.

Lemma totalEdges_cons m munis :
  totalEdges (m :: munis) = length (edges m) + totalEdges munis.
Proof. unfold totalEdges at 1. simpl. by rewrite totalEdges_foldl. Qed.

Lemma totalEdges_insert munis : forall i m m',
  munis !! i = Some m ->
  totalEdges (<[i := m']> munis) + length (edges m) = totalEdges munis + length (edges m').
Proof.
  induction munis as [|x munis IH]; intros i m m' Hi; [done|].
  destruct i as [|i]; simpl in *.
  - injection Hi as ->. rewrite !totalEdges_cons. lia.
  - rewrite !totalEdges_cons. pose proof (IH i m m' Hi). lia.
Qed.

Lemma link_totalEdges values i k d values' :
  i <> k -> link values i k d = Ok values' ->
  totalEdges values' = totalEdges values + 2.
Proof.
  intros Hik H.
  destruct (link_inv _ _ _ _ _ Hik H) as (m1 & m2 & s1 & s2 & H1 & H2 & _ & _ & ->).
  pose proof (totalEdges_insert values i m1 (linked m1 (code m2) d s1) H1) as Ha.
  assert (<[i := linked m1 (code m2) d s1]> values !! k = Some m2) as H2'.
  { by rewrite list_lookup_insert_ne. }
  pose proof (totalEdges_insert _ k m2 (linked m2 (code m1) d s2) H2') as Hb.
  unfold linked in *. simpl in *. rewrite !length_app in *. simpl in *. lia.
Qed.

Lemma totalEdges_stripped final :
  totalEdges ((fun m => set_neighbors m None) <$> final) = totalEdges final.
Proof.
  induction final as [|m final IH]; [done|].
  rewrite fmap_cons, !totalEdges_cons, IH. done.
Qed.

(** ** Every distance recorded is a distance measured *)

Section Measured.
Variable kernel : float -> float -> float -> float -> result float.

Local Abbreviation edge_measured := (edge_measured kernel).
Local Abbreviation distances_measured := (distances_measured kernel).

Lemma edge_measured_extends values values' a e :
  extends values values' -> edge_measured values a e -> edge_measured values' a e.
Proof.
  intros [_ Hg] (ma & b & mb & Ha & Hab & Hb & Hfrom & Hto & Hd).
  destruct (Hg a ma Ha) as (ma' & Ha' & Hga).
  destruct (Hg b mb Hb) as (mb' & Hb' & Hgb).
  exists ma', b, mb'. split; [done|]. split; [done|]. split; [done|].
  destruct Hga as (Hca & _), Hgb as (Hcb & _).
  split; [congruence|]. split; [congruence|].
  rewrite (distance_grows kernel ma mb ma' mb'), (distance_grows kernel mb ma mb' ma');
    try done; [by destruct (Hg b mb Hb) as (? & ? & ?); simplify_eq
             | by destruct (Hg a ma Ha) as (? & ? & ?); simplify_eq
             | by destruct (Hg a ma Ha) as (? & ? & ?); simplify_eq
             | by destruct (Hg b mb Hb) as (? & ? & ?); simplify_eq].
Qed.

Lemma link_measured values i k d values' m1 m2 :
  i <> k -> values !! i = Some m1 -> values !! k = Some m2 ->
  getDistanceBetweenMunicipalities kernel m1 m2 = Ok d ->
  wf values -> distances_measured values ->
  link values i k d = Ok values' -> distances_measured values'.
Proof.
  intros Hik H1 H2 Hd _ HI H.
  pose proof (link_extends _ _ _ _ _ Hik H) as Hext.
  destruct (link_inv _ _ _ _ _ Hik H) as (m1' & m2' & s1 & s2 & H1' & H2' & _ & _ & Heq).
  assert (m1' = m1) as -> by congruence. assert (m2' = m2) as -> by congruence.
  assert (values' !! i = Some (linked m1 (code m2) d s1)) as Hi'.
  { rewrite Heq, list_lookup_insert_ne by done.
    apply list_lookup_insert_eq. by eapply lookup_lt_Some. }
  assert (values' !! k = Some (linked m2 (code m1) d s2)) as Hk'.
  { rewrite Heq. apply list_lookup_insert_eq. rewrite length_insert.
    by eapply lookup_lt_Some. }
  intros a m e Ha He.
  destruct (decide (a = i)) as [->|Hai]; [|destruct (decide (a = k)) as [->|Hak]].
  - assert (m = linked m1 (code m2) d s1) as -> by congruence.
    simpl in He. apply elem_of_app in He as [He|He].
    + apply (edge_measured_extends values); [done|]. by apply (HI i m1).
    + apply list_elem_of_singleton in He as ->.
      exists (linked m1 (code m2) d s1), k, (linked m2 (code m1) d s2).
      repeat (split; [done|]). left. done.
  - assert (m = linked m2 (code m1) d s2) as -> by congruence.
    simpl in He. apply elem_of_app in He as [He|He].
    + apply (edge_measured_extends values); [done|]. by apply (HI k m2).
    + apply list_elem_of_singleton in He as ->.
      exists (linked m2 (code m1) d s2), i, (linked m1 (code m2) d s1).
      split; [done|]. split; [done|]. repeat (split; [done|]). right. done.
  - assert (values !! a = Some m) as Ha0.
    { by rewrite Heq, !list_lookup_insert_ne in Ha. }
    apply (edge_measured_extends values); [done|]. by apply (HI a m).
Qed.

Lemma pristine_measured values : Forall pristine values -> distances_measured values.
Proof.
  intros Hp a m e Ha He.
  eapply Forall_lookup_1 in Hp as [_ Hnil]; [|done].
  rewrite Hnil in He. by apply elem_of_nil in He.
Qed.
End Measured.

(** X1: the selector returns the entities it was given, as many and in the
    same order, each with its name, state, code, coordinates and
    supercharger flag: it assigns [edges] and [_neighbors] only. *)
Theorem selector_keeps_identity
    (kernel : float -> float -> float -> float -> result float)
    (values out : list Municipality) :
  Forall pristine values ->
  addEdgesToMunicipalitiesV2 kernel values = Ok out ->
  Forall2 same_identity values out.
Proof.
  intros Hp H.
  destruct (selector_link_ind kernel (Forall2 same_identity values)) with values out
    as (final & -> & _ & HF); [|done| |done|].
  - intros cur i k d cur' m1 m2 Hik _ _ _ _ HF Hl.
    by eapply link_same_identity.
  - apply Forall_Forall2_diag. apply Forall_true. intros m. apply same_identity_refl.
  - apply Forall2_fmap_r. eapply Forall2_impl; [done|].
    intros m m' Hm. simpl. done.
Qed.

Lemma selector_keeps_identity_witness :
  Forall2 same_identity three (returned (addEdgesToMunicipalitiesV2 meridian three)).
Proof.
  apply (selector_keeps_identity meridian three).
  - repeat constructor.
  - vm_compute. reflexivity.
Defined.

Lemma selector_links_counted
    (kernel : float -> float -> float -> float -> result float)
    (values out : list Municipality) :
  Forall pristine values ->
  addEdgesToMunicipalitiesV2 kernel values = Ok out ->
  exists links, totalEdges out = 2 * links.
Proof.
  intros Hp H.
  destruct (selector_link_ind kernel (fun cur => exists n, totalEdges cur = 2 * n))
    with values out as (final & -> & _ & n & Hn); [|done| |done|].
  - intros cur i k d cur' m1 m2 Hik _ _ _ _ [n Hn] Hl.
    exists (S n). rewrite (link_totalEdges _ _ _ _ _ Hik Hl). lia.
  - exists 0. clear H. induction Hp as [|m l [_ Hm] _ IH]; [reflexivity|].
    rewrite totalEdges_cons, Hm, IH. reflexivity.
  - exists n. by rewrite totalEdges_stripped.
Qed.

(** X2: the total [testAndSaveToMap] counts over the selector's output is
    even: every link appends one edge to each of two entities. *)
Theorem selector_total_even
    (kernel : float -> float -> float -> float -> result float)
    (values out : list Municipality) :
  Forall pristine values ->
  addEdgesToMunicipalitiesV2 kernel values = Ok out ->
  exists links, totalEdges out = 2 * links.
Proof. apply selector_links_counted. Qed.

Lemma selector_total_even_witness :
  exists links, totalEdges (returned (addEdgesToMunicipalitiesV2 meridian hub)) = 2 * links.
Proof.
  apply (selector_total_even meridian hub).
  - repeat constructor.
  - vm_compute. reflexivity.
Defined.

(** X3: every edge of the selector's output leads to another entity of the
    output and records what the distance function returns for the two
    entities, called from one of them to the other. *)
Theorem selector_distances_measured
    (kernel : float -> float -> float -> float -> result float)
    (values out : list Municipality) (a : nat) (m : Municipality) (e : MunicipalityEdge) :
  Forall pristine values ->
  addEdgesToMunicipalitiesV2 kernel values = Ok out ->
  out !! a = Some m -> e ∈ edges m ->
  exists b mb, a <> b /\ out !! b = Some mb /\ toMuniCode e = code mb /\
    (getDistanceBetweenMunicipalities kernel m mb = Ok (distance e) \/
     getDistanceBetweenMunicipalities kernel mb m = Ok (distance e)).
Proof.
  intros Hp H Ha He.
  destruct (selector_link_ind kernel (distances_measured kernel)) with values out
    as (final & Hout & _ & HI); [|done| |done|].
  - intros cur i k d cur' m1 m2. apply link_measured.
  - by apply pristine_measured.
  - destruct (out_lookup _ _ _ _ Hout Ha) as (m0 & Ha0 & ->).
    destruct (HI a m0 e Ha0 He) as (ma & b & mb & Ha' & Hab & Hb & _ & Hto & Hd).
    assert (ma = m0) as -> by congruence.
    exists b, (set_neighbors mb None). split; [done|]. split; [|split; [done|done]].
    rewrite Hout, list_lookup_fmap, Hb. done.
Qed.

Lemma selector_distances_measured_witness :
  let out := returned (addEdgesToMunicipalitiesV2 meridian three) in
  let m := at_index out 1 in
  let e := {| fromMuniCode := "B"; toMuniCode := "C";
              distance := Float.mul (Float.abs (Float.sub (Float.decimal 2090 2)
                            (Float.decimal 1990 2))) miles_per_degree |} in
  exists b mb, 1 <> b /\ out !! b = Some mb /\ toMuniCode e = code mb /\
    (getDistanceBetweenMunicipalities meridian m mb = Ok (distance e) \/
     getDistanceBetweenMunicipalities meridian mb m = Ok (distance e)).
Proof.
  intros out m e.
  apply (selector_distances_measured meridian three out 1 m e).
  - repeat constructor.
  - vm_compute. reflexivity.
  - vm_compute. reflexivity.
  - apply list_elem_of_lookup. exists 1. vm_compute. reflexivity.
Defined.

(** ** Small mappings, and entities already serialized *)

Lemma selector_second_pass_raises
    (kernel : float -> float -> float -> float -> result float) m1 m2 rest :
  _neighbors m1 = None ->
  addEdgesToMunicipalitiesV2 kernel (m1 :: m2 :: rest) = Raise AttributeError.
Proof.
  intros Hn. unfold addEdgesToMunicipalitiesV2.
  change (length (m1 :: m2 :: rest)) with (S (S (length rest))).
  rewrite <- !cons_seq. rewrite rounds_cons.
  unfold round at 1. change (getitem (m1 :: m2 :: rest) 0) with (Ok m1). rsimpl.
  change (length (m1 :: m2 :: rest)) with (S (S (length rest))).
  rewrite <- !cons_seq. rewrite !(gather_cons kernel).
  destruct (decide (0 = 0)) as [_|?]; [|done].
  destruct (decide (0 = 1)) as [?|_]; [done|].
  change (getitem (m1 :: m2 :: rest) 1) with (Ok m2). rsimpl.
  unfold get_neighbors. rewrite Hn. reflexivity.
Qed.

(** X4: with no entity the selector returns the empty mapping, and with one
    it returns the entity without an edge and without calling the
    distance function.  Entities the selector has returned no longer
    carry [_neighbors]: a second pass over two or more of them raises
    AttributeError at the first candidate, and a second pass over one
    raises KeyError in the serializer. *)
Theorem selector_small_and_second_pass
    (kernel kernel' : float -> float -> float -> float -> result float)
    (values out : list Municipality) (m : Municipality) :
  addEdgesToMunicipalitiesV2 kernel values = Ok out ->
  addEdgesToMunicipalitiesV2 kernel [] = Ok [] /\
  (pristine m -> addEdgesToMunicipalitiesV2 kernel [m] = Ok [set_neighbors m None] /\
     addEdgesToMunicipalitiesV2 kernel [m] = addEdgesToMunicipalitiesV2 kernel' [m]) /\
  (2 <= length out -> addEdgesToMunicipalitiesV2 kernel out = Raise AttributeError) /\
  (length out = 1 -> addEdgesToMunicipalitiesV2 kernel out = Raise KeyError).
Proof.
  intros H. split; [reflexivity|]. split; [|split].
  - intros [Hs Hnil]. unfold addEdgesToMunicipalitiesV2, round. simpl.
    unfold municipalityDictSerializer. rewrite Hs. cbn. rewrite dump_edges_Ok. done.
  - intros Hlen. unfold addEdgesToMunicipalitiesV2 in H. inv_bind H.
    apply json_dump_inv in H as [-> _].
    destruct a as [|m1 [|m2 rest]]; simpl in Hlen; [lia|lia|].
    rewrite !fmap_cons. by apply selector_second_pass_raises.
  - intros Hlen. unfold addEdgesToMunicipalitiesV2 in H. inv_bind H.
    apply json_dump_inv in H as [-> _].
    destruct a as [|m1 [|m2 rest]]; simpl in Hlen; [lia| |lia].
    reflexivity.
Qed.

Lemma selector_small_and_second_pass_witness :
  let out := returned (addEdgesToMunicipalitiesV2 meridian three) in
  addEdgesToMunicipalitiesV2 meridian [] = Ok [] /\
  (pristine (entity "A" 1900) ->
     addEdgesToMunicipalitiesV2 meridian [entity "A" 1900] =
       Ok [set_neighbors (entity "A" 1900) None] /\
     addEdgesToMunicipalitiesV2 meridian [entity "A" 1900] =
       addEdgesToMunicipalitiesV2 meridian [entity "A" 1900]) /\
  (2 <= length out -> addEdgesToMunicipalitiesV2 meridian out = Raise AttributeError) /\
  (length out = 1 -> addEdgesToMunicipalitiesV2 meridian out = Raise KeyError).
Proof.
  intros out.
  apply (selector_small_and_second_pass meridian meridian three out (entity "A" 1900)).
  vm_compute. reflexivity.
Defined.

(** ** No entity with another one in reach is left without an edge *)

Lemma threshold_0 : threshold 0 = Float.of_Z MAX_DISTANCE.
Proof. vm_compute. reflexivity. Qed.

Lemma grows_edges m m' : grows m m' -> edges m <> [] -> edges m' <> [].
Proof.
  intros (_ & _ & _ & [k Hk]) Hne Hnil. rewrite Hk in Hnil.
  apply app_eq_nil in Hnil as [? _]. done.
Qed.

Section Reach.
Variable kernel : float -> float -> float -> float -> result float.

Lemma gather_keeps values i muni1 s js h h' x :
  _neighbors muni1 = Some s ->
  gather kernel values i muni1 js h = Ok h' -> x ∈ h -> x ∈ h'.
Proof.
  intros Hs H Hx.
  destruct (gather_spec kernel _ _ _ _ _ _ _ Hs H) as (picked & Hp & _).
  rewrite Hp. apply elem_of_app. by right.
Qed.

Lemma gather_complete values i muni1 s js : forall h h',
  _neighbors muni1 = Some s ->
  gather kernel values i muni1 js h = Ok h' ->
  forall j m2, j ∈ js -> j <> i -> values !! j = Some m2 -> code m2 ∉ s ->
    exists d, getDistanceBetweenMunicipalities kernel muni1 m2 = Ok d /\ (d, j) ∈ h'.
Proof.
  induction js as [|j0 js IH]; intros h h' Hs H j m2 Hj Hji H2 Hnot.
  - by apply elem_of_nil in Hj.
  - rewrite gather_cons in H.
    apply elem_of_cons in Hj as [->|Hj].
    + destruct (decide (i = j0)) as [?|_]; [congruence|].
      inv_bind H. apply getitem_Ok in Ha. assert (a = m2) as -> by congruence.
      inv_bind H. apply get_neighbors_Ok in Ha0. assert (a = s) as -> by congruence.
      destruct (decide (code m2 ∈ s)) as [?|_]; [done|].
      inv_bind H. rename a into d. inv_bind H. rename a into h1.
      exists d. split; [done|].
      apply (gather_keeps values i muni1 s js h1 h'); [done..|].
      apply heappush_perm in Ha2. rewrite Ha2. by left.
    + destruct (decide (i = j0)) as [?|_]; [by eapply IH|].
      inv_bind H. inv_bind H. apply get_neighbors_Ok in Ha0.
      assert (a0 = s) as -> by congruence.
      destruct (decide (code a ∈ s)) as [?|_]; [by eapply IH|].
      inv_bind H. inv_bind H. by eapply IH.
Qed.

Lemma rounds_wf_extends order : forall values values',
  rounds kernel values order = Ok values' -> wf values ->
  wf values' /\ extends values values'.
Proof.
  induction order as [|i order IH]; intros values values' H Hwf.
  - injection H as <-. split; [done | apply extends_refl].
  - rewrite rounds_cons in H. inv_bind H.
    destruct (round_spec _ _ _ _ Ha Hwf) as (Hwf1 & Hext1 & _).
    destruct (IH _ _ H Hwf1) as [Hwf' Hext'].
    split; [done|]. by eapply extends_trans.
Qed.

Lemma rounds_app l1 : forall l2 values,
  rounds kernel values (l1 ++ l2) =
  values1 ← rounds kernel values l1; rounds kernel values1 l2.
Proof.
  induction l1 as [|i l1 IH]; intros l2 values; [done|].
  simpl app. rewrite !rounds_cons.
  destruct (round kernel values i) as [v|]; [|done]. rsimpl. apply IH.
Qed.

(** The first candidate the round of entity [a] pops is its nearest one
    not yet a neighbour, gated at [MAX_DISTANCE]. *)
Lemma round_reaches values a b ma mb d values' :
  wf values -> finite_distances kernel values ->
  values !! a = Some ma -> values !! b = Some mb -> a <> b ->
  getDistanceBetweenMunicipalities kernel ma mb = Ok d ->
  Float.leb d (Float.of_Z MAX_DISTANCE) = true ->
  round kernel values a = Ok values' ->
  exists ma', values' !! a = Some ma' /\ edges ma' <> [].
Proof.
  intros Hwf Hfin Ha Hb Hab Hd Hle H.
  destruct (round_spec _ _ _ _ H Hwf) as (_ & [_ Hext] & _).
  destruct (Hext a ma Ha) as (ma' & Ha' & Hg).
  exists ma'. split; [done|].
  destruct (Hwf a ma Ha) as [(s & Hs & Hseen) _].
  destruct (decide (code mb ∈ s)) as [Hin|Hnot].
  { apply (grows_edges ma); [done|]. apply Hseen in Hin.
    intros Hnil. rewrite Hnil in Hin. by apply elem_of_nil in Hin. }
  unfold round in H. inv_bind H. apply getitem_Ok in Ha0.
  assert (a0 = ma) as -> by congruence.
  inv_bind H. rename a0 into h.
  destruct (gather_complete values a ma s _ _ _ Hs Ha1 b mb) as (d' & Hd' & Hin);
    [|done..|].
  { apply elem_of_seq. apply lookup_lt_Some in Hb. lia. }
  assert (d' = d) as -> by congruence.
  assert (candidates_ordered h) as Hord.
  { apply (gather_ordered kernel values a ma (seq 0 (length values)) []); [done| | |done].
    - by eapply list_elem_of_lookup_2.
    - split; [|constructor]. intros p c x y _ Hp. by rewrite lookup_nil in Hp. }
  change (seq 0 MAX_EDGES) with (0 :: seq 1 9) in H. rewrite accept_cons in H.
  destruct h as [|x0 h0] eqn:Hh; [by apply elem_of_nil in Hin|].
  rewrite <- Hh in *. clear Hh x0 h0.
  inv_bind H. destruct a0 as [[dx k] h'].
  destruct (candidates_ordered_pop _ _ _ Hord Ha2) as [Hord' Hmin].
  pose proof (heappop_perm _ _ _ _ Ha2) as Hperm.
  assert (finite_item (dx, k)) as Hfx.
  { destruct Hord as [_ Hall]. eapply Forall_forall in Hall; [done|].
    rewrite Hperm. by left. }
  assert (Float.leb dx d = true) as Hdx.
  { rewrite Hperm in Hin. apply elem_of_cons in Hin as [Heq|Hin].
    - injection Heq as <- _. by apply FloatOrder.leb_refl.
    - by apply (Hmin (d, b)). }
  assert (gate_breaks 0 dx = false) as Hgate.
  { rewrite gate_breaks_threshold, threshold_0.
    apply FloatFacts.leb_not_ltb. by eapply FloatOrder.leb_trans. }
  rewrite Hgate in H. inv_bind H. rename a0 into values1.
  assert (heap_valid a h) as Hv.
  { intros x Hx.
    destruct (gather_spec kernel _ _ _ _ _ _ _ Hs Ha1) as (picked & Hp & _ & Hc).
    rewrite app_nil_r in Hp. rewrite Hp in Hx. by destruct (Hc x Hx). }
  destruct (heap_valid_pop _ _ _ _ Hv Ha2) as [Hka Hv']. simpl in Hka.
  assert (a <> k) as Hak by done.
  pose proof (link_wf _ _ _ _ _ Hak Hwf Ha3) as Hwf1.
  destruct (accept_spec _ _ _ _ _ H Hwf1 Hv') as (_ & [_ Hext1] & _).
  apply link_inv in Ha3 as (m1 & m2 & s1 & s2 & H1 & H2 & _ & _ & ->); [|done].
  assert (<[k:=linked m2 (code m1) dx s2]> (<[a:=linked m1 (code m2) dx s1]> values) !! a
          = Some (linked m1 (code m2) dx s1)) as Hla.
  { rewrite list_lookup_insert_ne by done. apply list_lookup_insert_eq.
    by eapply lookup_lt_Some. }
  destruct (Hext1 _ _ Hla) as (mz & Hz & Hgz).
  assert (mz = ma') as -> by congruence.
  apply (grows_edges _ _ Hgz). simpl. intros Hnil.
  apply app_eq_nil in Hnil as [_ ?]. done.
Qed.
End Reach.

(** X5: when no distance is NaN, an entity with another entity within
    [MAX_DISTANCE] miles of it ends with at least one edge: in its round
    the other one is already a neighbour, or the nearest candidate is
    popped first and passes the gate of rank 0. *)
Theorem selector_reaches_the_near
    (kernel : float -> float -> float -> float -> result float)
    (values out : list Municipality) (a b : nat) (ma mb m : Municipality) (d : float) :
  Forall pristine values -> finite_distances kernel values ->
  addEdgesToMunicipalitiesV2 kernel values = Ok out ->
  values !! a = Some ma -> values !! b = Some mb -> a <> b ->
  getDistanceBetweenMunicipalities kernel ma mb = Ok d ->
  Float.leb d (Float.of_Z MAX_DISTANCE) = true ->
  out !! a = Some m -> edges m <> [].
Proof.
  intros Hp Hfin H Ha Hb Hab Hd Hle Hout.
  unfold addEdgesToMunicipalitiesV2 in H. inv_bind H. rename a0 into final.
  apply json_dump_inv in H as [-> _].
  rewrite list_lookup_fmap in Hout.
  destruct (final !! a) as [mf|] eqn:Hf; [|done]. injection Hout as <-. simpl.
  assert (a < length values) as Hlt by (by eapply lookup_lt_Some).
  assert (seq 0 (length values) = seq 0 a ++ a :: seq (S a) (length values - S a)) as Hseq.
  { rewrite cons_seq. change (a :: seq (S a) (length values - S a))
      with (seq a (S (length values - S a))).
    replace a with (0 + a) at 3 by lia. rewrite <- seq_app. f_equal. lia. }
  rewrite Hseq, rounds_app in Ha0. inv_bind Ha0. rename a0 into values1.
  rewrite rounds_cons in Ha0. inv_bind Ha0. rename a0 into values2.
  destruct (rounds_wf_extends kernel _ _ _ Ha1 (pristine_wf values Hp)) as [Hwf1 Hext1].
  pose proof Hext1 as [_ Hg1].
  destruct (Hg1 a ma Ha) as (ma1 & Ha1' & Hga). destruct (Hg1 b mb Hb) as (mb1 & Hb1' & Hgb).
  destruct (round_reaches kernel values1 a b ma1 mb1 d values2) as (ma2 & Ha2' & Hne);
    try done.
  - by eapply finite_distances_extends.
  - by rewrite (distance_grows kernel ma mb ma1 mb1).
  - destruct (round_spec kernel _ _ _ Ha2 Hwf1) as (Hwf2 & _).
    destruct (rounds_wf_extends kernel _ _ _ Ha0 Hwf2) as [_ [_ Hg2]].
    destruct (Hg2 a ma2 Ha2') as (mz & Hz & Hgz).
    assert (mz = mf) as -> by congruence.
    by apply (grows_edges ma2).
Qed.

Lemma selector_reaches_the_near_witness :
  edges (at_index (returned (addEdgesToMunicipalitiesV2 meridian three)) 0) <> [].
Proof.
  apply (selector_reaches_the_near meridian three
    (returned (addEdgesToMunicipalitiesV2 meridian three)) 0 1
    (entity "A" 1900) (entity "B" 1990) _
    (Float.mul (Float.abs (Float.sub (Float.decimal 1990 2) (Float.decimal 1900 2)))
       miles_per_degree)).
  - repeat constructor.
  - apply three_finite.
  - vm_compute. reflexivity.
  - reflexivity.
  - reflexivity.
  - lia.
  - reflexivity.
  - vm_compute. reflexivity.
  - vm_compute. reflexivity.
Defined.

(** ** [addEdge], case by case *)

(** The three ways [addEdge] ends: the edge is refused; it is pushed
    under capacity; or it is pushed at capacity and the root, which it is
    farther than, is popped. *)
Lemma addEdge_cases self edge :
  (admission_rule self edge = false /\ addEdge self edge = Ok self) \/
  (admission_rule self edge = true /\ length (edges self) < MAX_EDGES /\
   exists h, addEdge self edge = Ok (set_edges self h) /\ h ≡ₚ edge :: edges self) \/
  (admission_rule self edge = true /\ MAX_EDGES <= length (edges self) /\
   exists e0 rest h, edges self = e0 :: rest /\
     addEdge self edge = Ok (set_edges self h) /\ h ≡ₚ edge :: rest /\
     Float.ltb (distance e0) (distance edge) = true).
Proof.
  destruct (admission_rule self edge) eqn:Hrule.
  2:{ left. split; [done|]. by apply addEdge_rejects. }
  right. pose proof Hrule as H.
  rewrite admission_rule_eq in H. unfold addEdge.
  apply andb_true_iff in H as [Hvalid H]. rewrite Hvalid.
  destruct (heappush_ok MunicipalityEdge_lt (edges self) edge) as [h Hpush];
    [apply edges_comparable|].
  apply heappush_perm in Hpush as Hperm.
  assert (length h = S (length (edges self))) as Hlen by (by rewrite Hperm).
  destruct (decide (length (edges self) < MAX_EDGES)) as [Hlt|Hge].
  - left. split; [done|]. split; [done|]. rsimpl. rewrite Hpush. rsimpl.
    destruct (decide (MAX_EDGES < length h)) as [|_]; [lia|].
    exists h. done.
  - right. split; [done|]. split; [lia|].
    rewrite bool_decide_false in H by done. simpl in H.
    destruct (edges self) as [|e0 rest] eqn:Hedges; [done|].
    unfold getitem. simpl. rsimpl. rewrite H, Hpush. rsimpl.
    destruct (decide (MAX_EDGES < length h)) as [_|]; [|simpl in *; lia].
    destruct (heappop_ok MunicipalityEdge_lt h) as [[popped h'] Hpop];
      [by destruct h | apply edges_comparable|].
    rewrite Hpop. rsimpl.
    apply heappop_perm in Hpop as Hperm'.
    assert (h !! 0 = Some e0) as Hroot.
    { eapply (heappush_root MunicipalityEdge_lt (e0 :: rest)); [done | | done].
      unfold MunicipalityEdge_lt. by rewrite (ltb_asym _ _ H). }
    assert (popped = e0) as ->.
    { apply heappop_root in Hpop; [congruence | simpl in *; lia]. }
    exists e0, rest, h'. split; [done|]. split; [done|]. split; [|done].
    apply (Permutation_cons_inv (a := e0)). rewrite <- Hperm', Hperm. apply perm_swap.
Qed.

Lemma addEdge_returns self edge : is_Ok (addEdge self edge).
Proof.
  destruct (addEdge_cases self edge)
    as [[_ H]|[(_ & _ & h & H & _)|(_ & _ & e0 & rest & h & _ & H & _)]];
    rewrite H; by eexists.
Qed.

(** X6: [addEdge] never raises: [self.edges[0]] is read at capacity only, and
    the pop follows a push.  What it returns is the entity with another
    edge list, every other attribute as it was. *)
Theorem addEdge_never_raises (self : Municipality) (edge : MunicipalityEdge) :
  is_Ok (addEdge self edge) /\
  (forall kept, addEdge self edge = Ok kept -> set_edges kept (edges self) = self).
Proof.
  split; [apply addEdge_returns|]. intros kept H.
  destruct (addEdge_cases self edge)
    as [[_ H']|[(_ & _ & h & H' & _)|(_ & _ & e0 & rest & h & _ & H' & _)]];
    rewrite H' in H; injection H as <-; by destruct self.
Qed.

Lemma addEdge_never_raises_witness :
  is_Ok (addEdge mexicoCity
    {| fromMuniCode := "09001"; toMuniCode := "15033"; distance := Float.of_Z 150 |}).
Proof.
  apply (proj1 (addEdge_never_raises mexicoCity
    {| fromMuniCode := "09001"; toMuniCode := "15033"; distance := Float.of_Z 150 |})).
Defined.

(** X7: [addEdge] keeps an edge list within [MAX_EDGES].  At capacity an
    admitted edge takes the place of the root [self.edges[0]], the edge
    it was compared with and is farther than; in a heap-ordered list the
    root is the nearest edge, so the list drifts to the farthest edges
    offered, none of those kept being nearer than the one dropped. *)
Theorem addEdge_replaces_the_nearest (self self' : Municipality) (edge : MunicipalityEdge) :
  addEdge self edge = Ok self' ->
  (length (edges self) <= MAX_EDGES -> length (edges self') <= MAX_EDGES) /\
  (forall e, e ∈ edges self' -> e = edge \/ e ∈ edges self) /\
  (admission_rule self edge = true -> MAX_EDGES <= length (edges self) ->
   exists dropped rest,
     edges self = dropped :: rest /\ edges self' ≡ₚ edge :: rest /\
     Float.ltb (distance dropped) (distance edge) = true /\
     (edge_heap (edges self) -> forall e, e ∈ edges self' -> edge_le dropped e)).
Proof.
  intros H.
  destruct (addEdge_cases self edge)
    as [[Hr H']|[(Hr & Hlt & h & H' & Hp)|(Hr & Hge & e0 & rest & h & He & H' & Hp & Hfar)]];
    rewrite H' in H; injection H as <-; simpl.
  - split; [done|]. split; [by right|]. congruence.
  - split; [intros _; rewrite Hp; simpl; lia|].
    split; [intros e; rewrite Hp; intros He; by apply elem_of_cons in He|]. lia.
  - split; [rewrite Hp, He; simpl; lia|]. split.
    + intros e. rewrite Hp, He. intros Hin.
      apply elem_of_cons in Hin as [->|Hin]; [by left|]. right. by right.
    + intros _ _. exists e0, rest. split; [done|]. split; [done|]. split; [done|].
      intros Hheap e Hin. rewrite Hp in Hin. rewrite He in Hheap.
      apply elem_of_cons in Hin as [->|Hin].
      * by apply FloatOrder.ltb_leb.
      * apply (edge_heap_root e0 rest Hheap). by right.
Qed.

Lemma addEdge_replaces_the_nearest_witness :
  let far := {| fromMuniCode := "09001"; toMuniCode := "15033";
                distance := Float.of_Z 150 |} in
  let near n := {| fromMuniCode := "09001"; toMuniCode := "15001";
                   distance := Float.of_Z n |} in
  let self := set_edges mexicoCity (near <$> [1; 2; 3; 4; 5; 6; 7; 8; 9; 10]%Z) in
  let self' := match addEdge self far with Ok kept => kept | Raise _ => self end in
  (length (edges self) <= MAX_EDGES -> length (edges self') <= MAX_EDGES) /\
  (forall e, e ∈ edges self' -> e = far \/ e ∈ edges self) /\
  (admission_rule self far = true -> MAX_EDGES <= length (edges self) ->
   exists dropped rest,
     edges self = dropped :: rest /\ edges self' ≡ₚ far :: rest /\
     Float.ltb (distance dropped) (distance far) = true /\
     (edge_heap (edges self) -> forall e, e ∈ edges self' -> edge_le dropped e)).
Proof.
  intros far near self self'.
  apply (addEdge_replaces_the_nearest self self' far).
  vm_compute. reflexivity.
Defined.

(** ** [setEdgeDistance] *)

Lemma eqb_zero_truthy y : Float.eqb y (Float.of_Z 0) = negb (Float.truthy y).
Proof. destruct y as [[]|[]| |[] m x]; reflexivity. Qed.

Lemma setEdgeDistance_distance e d :
  distance (setEdgeDistance e d) =
  if Float.eqb (distance e) (Float.of_Z 0) then d else distance e.
Proof.
  unfold setEdgeDistance. rewrite eqb_zero_truthy.
  by destruct (Float.truthy (distance e)).
Qed.

(** X8: [setEdgeDistance] assigns the distance only where the edge holds a
    zero: any other distance, a NaN too, stays, and so does the first
    non-zero distance assigned.  The codes are never touched. *)
Theorem setEdgeDistance_fills_zero_only (e : MunicipalityEdge) (d d' : float) :
  fromMuniCode (setEdgeDistance e d) = fromMuniCode e /\
  toMuniCode (setEdgeDistance e d) = toMuniCode e /\
  distance (setEdgeDistance e d) =
    (if Float.eqb (distance e) (Float.of_Z 0) then d else distance e) /\
  (Float.eqb d (Float.of_Z 0) = false ->
   setEdgeDistance (setEdgeDistance e d) d' = setEdgeDistance e d).
Proof.
  split; [|split; [|split; [apply setEdgeDistance_distance|]]].
  - unfold setEdgeDistance. by destruct (negb (Float.truthy (distance e))).
  - unfold setEdgeDistance. by destruct (negb (Float.truthy (distance e))).
  - rewrite eqb_zero_truthy. intros Hd. apply negb_false_iff in Hd.
    unfold setEdgeDistance.
    destruct (Float.truthy (distance e)) eqn:Hx; simpl; rewrite ?Hx, ?Hd; done.
Qed.

Lemma setEdgeDistance_fills_zero_only_witness :
  let e := {| fromMuniCode := "A"; toMuniCode := "B"; distance := Float.of_Z 0 |} in
  fromMuniCode (setEdgeDistance e (Float.of_Z 7)) = fromMuniCode e /\
  toMuniCode (setEdgeDistance e (Float.of_Z 7)) = toMuniCode e /\
  distance (setEdgeDistance e (Float.of_Z 7)) =
    (if Float.eqb (distance e) (Float.of_Z 0) then Float.of_Z 7 else distance e) /\
  (Float.eqb (Float.of_Z 7) (Float.of_Z 0) = false ->
   setEdgeDistance (setEdgeDistance e (Float.of_Z 7)) (Float.of_Z 9) =
   setEdgeDistance e (Float.of_Z 7)).
Proof.
  intros e. apply (setEdgeDistance_fills_zero_only e (Float.of_Z 7) (Float.of_Z 9)).
Defined.

(** ** The sort of the rows *)

Lemma insert_desc_perm e l : insert_desc e l ≡ₚ e :: l.
Proof.
  induction l as [|x l IH]; [done|]. simpl.
  destruct (Float.ltb (distance e) (distance x)); [|done].
  rewrite IH. apply perm_swap.
Qed.

Lemma sort_desc_perm l : sort_desc l ≡ₚ l.
Proof.
  induction l as [|e l IH]; [done|].
  change (sort_desc (e :: l)) with (insert_desc e (sort_desc l)).
  by rewrite insert_desc_perm, IH.
Qed.

Lemma insert_desc_sorted e l :
  finite_edge e -> Forall finite_edge l ->
  farthest_first l -> farthest_first (insert_desc e l).
Proof.
  intros He Hl Hs. induction Hs as [|x l Hs IH Hx]; simpl.
  - repeat constructor.
  - apply Forall_cons in Hl as [Hfx Hl].
    destruct (Float.ltb (distance e) (distance x)) eqn:Hlt.
    + constructor; [by apply IH|].
      rewrite insert_desc_perm. constructor; [|done].
      by apply FloatOrder.ltb_leb.
    + assert (edge_le x e) as Hxe.
      { unfold edge_le. apply FloatFacts.not_ltb_leb; [exact Hfx | exact He | exact Hlt]. }
      constructor; [by constructor|]. constructor; [done|].
      eapply Forall_impl; [exact Hx|]. intros y Hy. simpl in Hy.
      by apply (edge_le_trans y x e).
Qed.

(** X9: [edges.sort(key=lambda x: x.distance, reverse=True)] keeps every
    row, and puts the rows in decreasing order of distance when no
    distance is NaN. *)
Theorem sort_desc_farthest_first (rows : list MunicipalityEdge) :
  sort_desc rows ≡ₚ rows /\
  (Forall finite_edge rows -> farthest_first (sort_desc rows)).
Proof.
  split; [apply sort_desc_perm|].
  induction rows as [|e l IH]; intros Hfin; [constructor|].
  apply Forall_cons in Hfin as [He Hl].
  change (sort_desc (e :: l)) with (insert_desc e (sort_desc l)).
  apply insert_desc_sorted; [done| |by apply IH].
  by rewrite sort_desc_perm.
Qed.

Lemma sort_desc_farthest_first_witness :
  let row (n : Z) := {| fromMuniCode := "A"; toMuniCode := "B"; distance := Float.of_Z n |} in
  let rows := row <$> [3; 9; 1; 9; 4]%Z in
  sort_desc rows ≡ₚ rows /\ farthest_first (sort_desc rows).
Proof.
  intros row rows.
  destruct (sort_desc_farthest_first rows) as [Hperm Hsorted].
  split; [done|]. apply Hsorted. repeat constructor.
Defined.

(** ** The loop over the rows *)

Lemma addEdge_kept self edge self' :
  addEdge self edge = Ok self' ->
  exists h, self' = set_edges self h /\
    (forall e, e ∈ h -> e = edge \/ e ∈ edges self) /\
    (length (edges self) <= MAX_EDGES -> length h <= MAX_EDGES).
Proof.
  intros H.
  destruct (addEdge_cases self edge)
    as [[Hr H']|[(Hr & Hlt & h & H' & Hp)|(Hr & Hge & e0 & rest & h & He & H' & Hp & Hfar)]];
    rewrite H' in H; injection H as <-.
  - exists (edges self). split; [by destruct self|]. split; [by right|done].
  - exists h. split; [done|]. split.
    + intros e. rewrite Hp. intros Hin. by apply elem_of_cons in Hin.
    + intros _. rewrite Hp. simpl. lia.
  - exists h. split; [done|]. split.
    + intros e. rewrite Hp, He. intros Hin.
      apply elem_of_cons in Hin as [->|Hin]; [by left|]. right. by right.
    + rewrite Hp, He. simpl. lia.
Qed.

Lemma setEdgeDistance_codes e d :
  fromMuniCode (setEdgeDistance e d) = fromMuniCode e /\
  toMuniCode (setEdgeDistance e d) = toMuniCode e.
Proof. unfold setEdgeDistance. by destruct (negb (Float.truthy (distance e))). Qed.

Lemma dict_getitem_Ok (d : gmap string Municipality) k m :
  dict_getitem d k = Ok m <-> d !! k = Some m.
Proof. unfold dict_getitem. destruct (d !! k); split; congruence. Qed.

Section Loop.
Variable kernel : float -> float -> float -> float -> result float.

Local Abbreviation loop_inv := (loop_inv kernel).
Local Abbreviation row_edge := (row_edge kernel).

Lemma addEdges_loop_cons d edge rest :
  addEdges_loop kernel d (edge :: rest) =
  fromMuni ← dict_getitem d (fromMuniCode edge);
  toMuni ← dict_getitem d (toMuniCode edge);
  x ← getDistanceBetweenMunicipalities kernel fromMuni toMuni;
  fromMuni' ← addEdge fromMuni (setEdgeDistance edge x);
  addEdges_loop kernel
    (<[fromMuniCode (setEdgeDistance edge x) := fromMuni']> d) rest.
Proof. reflexivity. Qed.

Lemma distance_same_coordinates m1 m2 m1' m2' :
  lat m1' = lat m1 -> lon m1' = lon m1 -> lat m2' = lat m2 -> lon m2' = lon m2 ->
  getDistanceBetweenMunicipalities kernel m1' m2' =
  getDistanceBetweenMunicipalities kernel m1 m2.
Proof.
  intros H1 H2 H3 H4. unfold getDistanceBetweenMunicipalities.
  by rewrite H1, H2, H3, H4.
Qed.

Lemma loop_inv_start d0 rows :
  (forall k m, d0 !! k = Some m -> edges m = []) -> loop_inv d0 rows d0.
Proof.
  intros Hnil. split; [done|]. intros k m Hk. exists m.
  split; [done|]. split; [by destruct m|].
  rewrite (Hnil k m Hk). split; [simpl; lia|]. intros e He. by left.
Qed.

Lemma addEdges_loop_inv d0 rows : forall todo d d',
  (forall row, row ∈ todo -> row ∈ rows) -> loop_inv d0 rows d ->
  addEdges_loop kernel d todo = Ok d' -> loop_inv d0 rows d'.
Proof.
  induction todo as [|row todo IH]; intros d d' Hsub Hinv H.
  - by injection H as <-.
  - rewrite addEdges_loop_cons in H.
    inv_bind H. rename a into fromMuni. apply dict_getitem_Ok in Ha.
    inv_bind H. rename a into toMuni. apply dict_getitem_Ok in Ha0.
    inv_bind H. rename a into x. inv_bind H. rename a into fromMuni'.
    destruct (setEdgeDistance_codes row x) as [Hfrom Hto]. rewrite Hfrom in H.
    apply (IH (<[fromMuniCode row:=fromMuni']> d) d');
      [intros r Hr; apply Hsub; by right| |done].
    destruct Hinv as [Hdom Hinv].
    destruct (addEdge_kept _ _ _ Ha2) as (h & -> & Hh & Hlen).
    destruct (Hinv _ _ Ha) as (m & Hm & Hsame & Hcap & Hedges).
    destruct (Hinv _ _ Ha0) as (mt & Hmt & Hsamet & _).
    split.
    + rewrite dom_insert_lookup_L; [done | by eexists].
    + intros k m' Hk. apply lookup_insert_Some in Hk as [[<- <-]|[Hne Hk]]; [|by apply Hinv].
      exists m. split; [done|]. split; [by destruct fromMuni|]. simpl.
      split; [by apply Hlen|]. intros e He.
      destruct (Hh e He) as [->|Hold]; [|by apply Hedges].
      right. split; [done|]. exists row, x, mt.
      split; [apply Hsub; by left|]. split; [done|]. rewrite Hto. split; [done|].
      rewrite <- Ha1. apply distance_same_coordinates.
      * by rewrite <- Hsame.
      * by rewrite <- Hsame.
      * by rewrite <- Hsamet.
      * by rewrite <- Hsamet.
Qed.

(** *** KeyError and nothing else *)

Hypothesis kernel_returns : forall lat1 lon1 lat2 lon2, is_Ok (kernel lat1 lon1 lat2 lon2).



End Loop.

(** ** The edge-list driven builder *)

Lemma accountForMexicoCity_no_edges d :
  (forall k m, d !! k = Some m -> edges m = []) ->
  forall k m, accountForMexicoCity d !! k = Some m -> edges m = [].
Proof.
  intros Hnil k m Hk. unfold accountForMexicoCity in Hk.
  apply lookup_insert_Some in Hk as [[_ <-]|[_ Hk]]; [done|]. by eapply Hnil.
Qed.

(** X10: the mapping [addEdgesToMunicipalities] of test.py returns has the
    keys it was given and ["09001"].  Every entity is as it was but for
    its edges: [_neighbors] is not updated.  It keeps at most
    [MAX_EDGES] edges, each of them a row of the file that starts at its
    key and leads to a key of the mapping, with the distance of the row
    unless that is zero, and then with the distance computed. *)
Theorem old_builder_keeps_rows
    (kernel : float -> float -> float -> float -> result float)
    (d d' : gmap string Municipality) (rows : list MunicipalityEdge) :
  (forall k m, d !! k = Some m -> edges m = []) ->
  addEdgesToMunicipalities kernel d rows = Ok d' ->
  dom d' = {["09001"]} ∪ dom d /\
  forall k m', d' !! k = Some m' ->
    length (edges m') <= MAX_EDGES /\
    accountForMexicoCity d !! k = Some (set_edges m' []) /\
    forall e, e ∈ edges m' ->
      fromMuniCode e = k /\
      exists row toMuni, row ∈ rows /\
        fromMuniCode row = fromMuniCode e /\ toMuniCode row = toMuniCode e /\
        d' !! toMuniCode e = Some toMuni /\
        if Float.eqb (distance row) (Float.of_Z 0)
        then getDistanceBetweenMunicipalities kernel m' toMuni = Ok (distance e)
        else distance e = distance row.
Proof.
  intros Hnil H. unfold addEdgesToMunicipalities in H.
  pose proof (accountForMexicoCity_no_edges d Hnil) as Hnil0.
  set (d0 := accountForMexicoCity d) in *.
  destruct (addEdges_loop_inv kernel d0 rows (sort_desc rows) d0 d') as [Hdom Hinv];
    [|by apply loop_inv_start|done|].
  { intros row. by rewrite sort_desc_perm. }
  split; [rewrite Hdom; unfold d0, accountForMexicoCity; by rewrite dom_insert_L|].
  intros k m' Hk.
  destruct (Hinv k m' Hk) as (m & Hm & Hsame & Hcap & Hedges).
  pose proof (Hnil0 k m Hm) as Hm_nil. rewrite Hm_nil in Hsame, Hedges.
  split; [done|]. split; [by rewrite Hsame|].
  intros e He. destruct (Hedges e He) as [Hin|[Hfrom Hrow]]; [by apply elem_of_nil in Hin|].
  split; [done|]. destruct Hrow as (row & x & toMuni & Hr & -> & Hto & Hx).
  destruct (setEdgeDistance_codes row x) as [Hf Ht].
  assert (is_Some (d' !! toMuniCode (setEdgeDistance row x))) as [toMuni' Hto'].
  { apply elem_of_dom. rewrite Hdom. apply elem_of_dom. by eexists. }
  destruct (Hinv _ _ Hto') as (mt & Hmt & Hsamet & _).
  assert (mt = toMuni) as -> by congruence.
  exists row, toMuni'. split; [done|]. split; [done|]. split; [done|]. split; [done|].
  rewrite setEdgeDistance_distance.
  destruct (Float.eqb (distance row) (Float.of_Z 0)); [|done].
  rewrite <- Hx. apply distance_same_coordinates.
  - by rewrite <- Hsame.
  - by rewrite <- Hsame.
  - by rewrite <- Hsamet.
  - by rewrite <- Hsamet.
Qed.

Lemma two_codes_no_edges k m : two_codes !! k = Some m -> edges m = [].
Proof.
  unfold two_codes. intros H.
  apply lookup_insert_Some in H as [[_ <-]|[_ H]]; [done|].
  apply lookup_insert_Some in H as [[_ <-]|[_ H]]; [done|].
  by rewrite lookup_empty in H.
Qed.

Lemma old_builder_keeps_rows_witness :
  let d' := returned_map (addEdgesToMunicipalities meridian two_codes one_row) in
  dom d' = {["09001"]} ∪ dom two_codes /\
  forall k m', d' !! k = Some m' ->
    length (edges m') <= MAX_EDGES /\
    accountForMexicoCity two_codes !! k = Some (set_edges m' []) /\
    forall e, e ∈ edges m' ->
      fromMuniCode e = k /\
      exists row toMuni, row ∈ one_row /\
        fromMuniCode row = fromMuniCode e /\ toMuniCode row = toMuniCode e /\
        d' !! toMuniCode e = Some toMuni /\
        if Float.eqb (distance row) (Float.of_Z 0)
        then getDistanceBetweenMunicipalities meridian m' toMuni = Ok (distance e)
        else distance e = distance row.
Proof.
  intros d'.
  apply (old_builder_keeps_rows meridian two_codes d' one_row).
  - apply two_codes_no_edges.
  - vm_compute. reflexivity.
Defined.



(** ** Dictionaries *)

Section dict_facts.
Context {V : Type}.
Implicit Types (d : dict V) (k : string) (v : V).

Lemma dict_get_None d k : dict_get d k = None <-> k ∉ dict_keys d.
Proof.
  unfold dict_keys. induction d as [|[k' v'] d IH]; simpl.
  - split; [intros _; apply not_elem_of_nil | done].
  - destruct (decide (k' = k)) as [->|Hne].
    + split; [done|]. intros Hn. exfalso. apply Hn. by left.
    + rewrite IH, not_elem_of_cons.
      split; [intros H; split; [congruence|done] | by intros [_ ?]].
Qed.

Lemma dict_get_Some d k v : dict_get d k = Some v -> (k, v) ∈ d.
Proof.
  induction d as [|[k' v'] d IH]; simpl; [done|].
  destruct (decide (k' = k)) as [->|Hne].
  - intros [= ->]. by left.
  - intros H. right. by apply IH.
Qed.

Lemma dict_get_elem d k v : NoDup (dict_keys d) -> (k, v) ∈ d -> dict_get d k = Some v.
Proof.
  unfold dict_keys. induction d as [|[k' v'] d IH]; simpl; intros Hnd Hin.
  - by apply elem_of_nil in Hin.
  - apply NoDup_cons in Hnd as [Hk' Hnd].
    apply elem_of_cons in Hin as [[= -> ->]|Hin].
    + by rewrite decide_True.
    + destruct (decide (k' = k)) as [->|Hne]; [|by apply IH].
      exfalso. apply Hk'. apply list_elem_of_fmap. by exists (k, v).
Qed.

Lemma dict_get_is_Some d k : k ∈ dict_keys d -> is_Some (dict_get d k).
Proof.
  intros Hin. destruct (dict_get d k) eqn:H; [by eexists|].
  by apply dict_get_None in H.
Qed.

(** Assigning to a new key appends the item. *)
Lemma dict_setitem_new d k v : dict_get d k = None -> dict_setitem d k v = d ++ [(k, v)].
Proof.
  induction d as [|[k' v'] d IH]; simpl; [done|].
  destruct (decide (k' = k)) as [->|Hne]; [done|]. intros H. by rewrite IH.
Qed.

(** Assigning to a key of the dictionary replaces the value in place. *)
Lemma dict_setitem_old d k v v0 :
  dict_get d k = Some v0 ->
  exists d1 d2, d = d1 ++ (k, v0) :: d2 /\ (k ∉ dict_keys d1) /\
    dict_setitem d k v = d1 ++ (k, v) :: d2.
Proof.
  unfold dict_keys. induction d as [|[k' v'] d IH]; simpl; [done|].
  destruct (decide (k' = k)) as [->|Hne].
  - intros [= ->]. exists [], d. split; [done|]. split; [apply not_elem_of_nil|done].
  - intros H. destruct (IH H) as (d1 & d2 & -> & Hk & ->).
    exists ((k', v') :: d1), d2. split; [done|]. split; [|done].
    simpl. rewrite not_elem_of_cons. done.
Qed.

Lemma dict_keys_setitem d k v :
  dict_keys (dict_setitem d k v) =
  if decide (k ∈ dict_keys d) then dict_keys d else dict_keys d ++ [k].
Proof.
  destruct (dict_get d k) as [v0|] eqn:H.
  - destruct (dict_setitem_old d k v v0 H) as (d1 & d2 & Hd & _ & ->).
    rewrite decide_True.
    + rewrite Hd. unfold dict_keys. by rewrite !fmap_app.
    + apply dict_get_Some in H. unfold dict_keys.
      apply list_elem_of_fmap. by exists (k, v0).
  - rewrite (dict_setitem_new d k v H). apply dict_get_None in H.
    rewrite decide_False by done. unfold dict_keys. by rewrite fmap_app.
Qed.

Lemma dict_setitem_NoDup d k v :
  NoDup (dict_keys d) -> NoDup (dict_keys (dict_setitem d k v)).
Proof.
  intros Hnd. rewrite dict_keys_setitem.
  destruct (decide (k ∈ dict_keys d)) as [|Hn]; [done|].
  apply NoDup_app. split; [done|]. split; [|apply NoDup_singleton].
  intros x Hx Hx'. apply list_elem_of_singleton in Hx' as ->. done.
Qed.

Lemma dict_setitem_elem d k v k' v' :
  NoDup (dict_keys d) ->
  (k', v') ∈ dict_setitem d k v <-> (k' = k /\ v' = v) \/ (k' <> k /\ (k', v') ∈ d).
Proof.
  intros Hnd. destruct (dict_get d k) as [v0|] eqn:H.
  - destruct (dict_setitem_old d k v v0 H) as (d1 & d2 & -> & Hk1 & ->).
    unfold dict_keys in *. rewrite fmap_app in Hnd. simpl in Hnd.
    apply NoDup_app in Hnd as (_ & Hdisj & Hnd2).
    apply NoDup_cons in Hnd2 as [Hk2 _].
    rewrite !elem_of_app, !elem_of_cons.
    assert (forall dd : dict V, k ∉ dd.*1 -> (k', v') ∈ dd -> k' <> k) as Hfar.
    { intros dd Hn Hin ->. apply Hn. apply list_elem_of_fmap. by exists (k, v'). }
    split.
    + intros [Hin|[[= -> ->]|Hin]]; [right|by left|right].
      * split; [by apply (Hfar d1)|]. by left.
      * split; [by apply (Hfar d2)|]. right. by right.
    + intros [[-> ->]|[Hne [Hin|[[= -> ->]|Hin]]]]; [right; by left|by left|done|].
      right. by right.
  - rewrite (dict_setitem_new d k v H). apply dict_get_None in H.
    rewrite elem_of_app, list_elem_of_singleton. split.
    + intros [Hin|[= -> ->]]; [right|by left]. split; [|done].
      intros ->. apply H. unfold dict_keys. apply list_elem_of_fmap. by exists (k, v').
    + intros [[-> ->]|[_ Hin]]; [by right|by left].
Qed.
End dict_facts.

(** ** From the raw records to the entities of the selector *)

Lemma elem_of_entities (n : dict (list Municipality)) m :
  m ∈ entities n <-> exists k l, (k, l) ∈ n /\ m ∈ l.
Proof.
  unfold entities, dict_values. rewrite list_elem_of_join. split.
  - intros (l & Hm & Hl). apply list_elem_of_fmap in Hl as ([k l'] & -> & Hin).
    by exists k, l'.
  - intros (k & l & Hin & Hm). exists l. split; [done|].
    apply list_elem_of_fmap. by exists (k, l).
Qed.

Lemma from_record_flag record m b :
  from_record record m -> from_record record (set_hasSupercharger m b).
Proof. done. Qed.

Section Pipeline.
Variable unicode_escape : string -> result string.

Lemma group_by_name_cons n record rest :
  group_by_name n (record :: rest) =
  sta ← getitem (sta_name record) 0;
  mun ← getitem (mun_name record) 0;
  c ← getitem (mun_code record) 0;
  let made := Municipality_init mun sta c (geo_point_2d record).1
                (geo_point_2d record).2 false [] in
  match dict_get n (sta +:+ "_" +:+ mun) with
  | Some muniArr => group_by_name (dict_setitem n (sta +:+ "_" +:+ mun) (muniArr ++ [made])) rest
  | None => group_by_name (dict_setitem n (sta +:+ "_" +:+ mun) [made]) rest
  end.
Proof. reflexivity. Qed.

Lemma grouped_step done n record made l0 :
  grouped done [] n ->
  from_record record made -> pristine made -> hasSupercharger made = false ->
  (dict_get n (key_of made) = Some l0 \/ (dict_get n (key_of made) = None /\ l0 = [])) ->
  grouped (done ++ [record]) [] (dict_setitem n (key_of made) (l0 ++ [made])).
Proof.
  intros (Hnd & Hent & Hcov) Hrec Hp Hflag Hget.
  assert (forall k l, (k, l) ∈ dict_setitem n (key_of made) (l0 ++ [made]) ->
            forall m, m ∈ l -> m = made \/ exists l', (k, l') ∈ n /\ m ∈ l') as Hfrom.
  { intros k l Hin m Hm. apply (dict_setitem_elem _ _ _ _ _ Hnd) in Hin as [[-> ->]|[Hne Hin]].
    - apply elem_of_app in Hm as [Hm|Hm]; [|left; by apply list_elem_of_singleton in Hm].
      destruct Hget as [Hget|[_ ->]]; [|by apply elem_of_nil in Hm].
      right. exists l0. split; [by apply dict_get_Some|done].
    - right. by exists l. }
  split; [by apply dict_setitem_NoDup|]. split.
  - intros k l m Hin Hm.
    assert (key_of m = k) as Hkey.
    { destruct (Hfrom k l Hin m Hm) as [->|(l' & Hin' & Hm')].
      - apply (dict_setitem_elem _ _ _ _ _ Hnd) in Hin as [[-> _]|[Hne Hin]]; [done|].
        destruct (Hent k l made Hin Hm) as [? _]. done.
      - by destruct (Hent k l' m Hin' Hm'). }
    split; [done|].
    destruct (Hfrom k l Hin m Hm) as [->|(l' & Hin' & Hm')].
    + split; [done|]. split.
      * rewrite Hflag. split; [done|]. intros Hk. by apply elem_of_nil in Hk.
      * exists record. split; [|done]. apply elem_of_app. right. by left.
    + destruct (Hent k l' m Hin' Hm') as (_ & ? & ? & rec & Hr & ?).
      split; [done|]. split; [done|]. exists rec. split; [|done].
      apply elem_of_app. by left.
  - intros rec Hr. apply elem_of_app in Hr as [Hr|Hr].
    + destruct (Hcov rec Hr) as (m & Hm & Hfr). exists m. split; [|done].
      apply elem_of_entities in Hm as (k & l & Hin & Hm).
      apply elem_of_entities.
      destruct (decide (k = key_of made)) as [->|Hne].
      * exists (key_of made), (l0 ++ [made]). split.
        -- apply dict_setitem_elem; [done|]. by left.
        -- apply elem_of_app. left.
           destruct Hget as [Hget|[Hget _]].
           ++ apply (dict_get_elem n _ l Hnd) in Hin. congruence.
           ++ apply (dict_get_elem n _ l Hnd) in Hin. congruence.
      * exists k, l. split; [|done]. apply dict_setitem_elem; [done|]. by right.
    + apply list_elem_of_singleton in Hr as ->. exists made. split; [|done].
      apply elem_of_entities. exists (key_of made), (l0 ++ [made]). split.
      * apply dict_setitem_elem; [done|]. by left.
      * apply elem_of_app. right. by left.
Qed.

Lemma group_by_name_grouped : forall todo done n n',
  grouped done [] n -> group_by_name n todo = Ok n' -> grouped (done ++ todo) [] n'.
Proof.
  induction todo as [|record todo IH]; intros done n n' Hg H.
  - injection H as <-. by rewrite app_nil_r.
  - rewrite group_by_name_cons in H.
    inv_bind H. rename a into sta. apply getitem_Ok in Ha.
    inv_bind H. rename a into mun. apply getitem_Ok in Ha0.
    inv_bind H. rename a into c. apply getitem_Ok in Ha1.
    set (made := Municipality_init mun sta c (geo_point_2d record).1
                   (geo_point_2d record).2 false []) in *.
    assert (from_record record made) as Hrec.
    { split; [done|]. split; [done|]. split; [done|]. simpl. by destruct (geo_point_2d record). }
    assert (pristine made) as Hp by done.
    change (sta +:+ "_" +:+ mun) with (key_of made) in H.
    replace (done ++ record :: todo) with ((done ++ [record]) ++ todo)
      by (by rewrite <- app_assoc).
    destruct (dict_get n (key_of made)) as [l0|] eqn:Hget.
    + apply (IH _ _ _ (grouped_step done n record made l0 Hg Hrec Hp eq_refl (or_introl Hget)) H).
    + apply (IH _ _ _ (grouped_step done n record made [] Hg Hrec Hp eq_refl
               (or_intror (conj Hget eq_refl))) H).
Qed.

Lemma mark_superchargers_cons n supercharger rest :
  mark_superchargers unicode_escape n (supercharger :: rest) =
  decodedMunicipality ← unicode_escape (escaped supercharger);
  match dict_get n decodedMunicipality with
  | None => mark_superchargers unicode_escape n rest
  | Some muniArr =>
      mark_superchargers unicode_escape
        (dict_setitem n decodedMunicipality
           ((fun municipality => set_hasSupercharger municipality true) <$> muniArr)) rest
  end.
Proof. reflexivity. Qed.

Lemma grouped_mark records names n k :
  grouped records names n ->
  grouped records (names ++ [k])
    (match dict_get n k with
     | None => n
     | Some l => dict_setitem n k ((fun m => set_hasSupercharger m true) <$> l)
     end).
Proof.
  intros (Hnd & Hent & Hcov).
  destruct (dict_get n k) as [l0|] eqn:Hget.
  - split; [by apply dict_setitem_NoDup|]. split.
    + intros k' l m Hin Hm.
      apply (dict_setitem_elem _ _ _ _ _ Hnd) in Hin as [[-> ->]|[Hne Hin]].
      * apply list_elem_of_fmap in Hm as (m0 & -> & Hm0).
        destruct (Hent k l0 m0 (dict_get_Some _ _ _ Hget) Hm0) as (Hk & Hp & _ & rec & Hr & Hfr).
        split; [done|]. split; [done|]. split.
        -- split; [|done]. intros _. apply elem_of_app. right. by left.
        -- by exists rec.
      * destruct (Hent k' l m Hin Hm) as (Hk & Hp & Hflag & Hrec).
        split; [done|]. split; [done|]. split; [|done].
        rewrite Hflag, elem_of_app, list_elem_of_singleton.
        split; [by left|]. intros [?|?]; [done|congruence].
    + intros rec Hr. destruct (Hcov rec Hr) as (m & Hm & Hfr).
      apply elem_of_entities in Hm as (k' & l & Hin & Hm).
      destruct (decide (k' = k)) as [->|Hne].
      * exists (set_hasSupercharger m true). split; [|done].
        apply elem_of_entities. exists k, ((fun m => set_hasSupercharger m true) <$> l0).
        split; [apply dict_setitem_elem; [done|by left]|].
        apply (dict_get_elem n _ l Hnd) in Hin. assert (l0 = l) as -> by congruence.
        apply list_elem_of_fmap. by exists m.
      * exists m. split; [|done]. apply elem_of_entities. exists k', l.
        split; [|done]. apply dict_setitem_elem; [done|]. by right.
  - split; [done|]. split; [|done].
    intros k' l m Hin Hm. destruct (Hent k' l m Hin Hm) as (Hk & Hp & Hflag & Hrec).
    split; [done|]. split; [done|]. split; [|done].
    rewrite Hflag, elem_of_app, list_elem_of_singleton.
    split; [by left|]. intros [? | ->]; [done|].
    apply dict_get_None in Hget. exfalso. apply Hget.
    unfold dict_keys. apply list_elem_of_fmap. by exists (k, l).
Qed.

Lemma mark_superchargers_grouped records : forall superchargers names n n',
  grouped records names n ->
  mark_superchargers unicode_escape n superchargers = Ok n' ->
  exists decoded,
    Forall2 (fun supercharger k => unicode_escape (escaped supercharger) = Ok k)
      superchargers decoded /\
    grouped records (names ++ decoded) n'.
Proof.
  induction superchargers as [|sc rest IH]; intros names n n' Hg H.
  - injection H as <-. exists []. split; [constructor|]. by rewrite app_nil_r.
  - rewrite mark_superchargers_cons in H. inv_bind H. rename a into k.
    pose proof (grouped_mark records names n k Hg) as Hg'.
    destruct (IH (names ++ [k]) _ n' Hg') as (decoded & Hdec & Hfinal).
    { by destruct (dict_get n k). }
    exists (k :: decoded). split; [by constructor|].
    by rewrite <- app_assoc in Hfinal.
Qed.

(** *** The entities under their codes *)

Lemma by_code_flat (n : dict (list Municipality)) :
  by_code n =
  foldl (fun d m => dict_setitem d (code m) m) [] (entities n).
Proof.
  unfold by_code, entities. generalize (@nil (string * Municipality)).
  induction (dict_values n) as [|l ls IH]; intros d; [done|].
  simpl. rewrite foldl_app. apply IH.
Qed.

Lemma foldl_by_code (P : Municipality -> Prop) : forall ms d,
  NoDup (dict_keys d) ->
  (forall k m, (k, m) ∈ d -> code m = k /\ P m) ->
  (forall m, m ∈ ms -> P m) ->
  let d' := foldl (fun d m => dict_setitem d (code m) m) d ms in
  NoDup (dict_keys d') /\
  (forall k m, (k, m) ∈ d' -> code m = k /\ P m) /\
  (forall m, m ∈ ms -> code m ∈ dict_keys d') /\
  (forall k, k ∈ dict_keys d -> k ∈ dict_keys d').
Proof.
  induction ms as [|m0 ms IH]; intros d Hnd Hd Hms; simpl.
  - split; [done|]. split; [done|]. split; [|done].
    intros m Hm. by apply elem_of_nil in Hm.
  - assert (forall k, k ∈ dict_keys d -> k ∈ dict_keys (dict_setitem d (code m0) m0)) as Hmono.
    { intros k Hk. rewrite dict_keys_setitem.
      destruct (decide (code m0 ∈ dict_keys d)); [done|]. apply elem_of_app. by left. }
    assert (code m0 ∈ dict_keys (dict_setitem d (code m0) m0)) as Hnew.
    { rewrite dict_keys_setitem.
      destruct (decide (code m0 ∈ dict_keys d)); [done|]. apply elem_of_app. right. by left. }
    destruct (IH (dict_setitem d (code m0) m0)) as (Hnd' & Hd' & Hms' & Hkeys').
    + by apply dict_setitem_NoDup.
    + intros k m Hin.
      apply (dict_setitem_elem _ _ _ _ _ Hnd) in Hin as [[-> ->]|[_ Hin]]; [|by apply Hd].
      split; [done|]. apply Hms. by left.
    + intros m Hm. apply Hms. by right.
    + split; [done|]. split; [done|]. split.
      * intros m Hm. apply elem_of_cons in Hm as [->|Hm]; [|by apply Hms'].
        by apply Hkeys'.
      * intros k Hk. by apply Hkeys', Hmono.
Qed.

Lemma zip_keys_values {V W} (d : dict V) (f : V -> W) :
  zip (dict_keys d) (f <$> dict_values d) = (fun item => (item.1, f item.2)) <$> d.
Proof.
  unfold dict_keys, dict_values. induction d as [|[k v] d IH]; [done|].
  rewrite !fmap_cons. simpl. f_equal. exact IH.
Qed.

(** What the file written holds. *)
Lemma save_inv municipalities superchargers file :
  saveMunicipalityCodesAndSuperchargerStatus unicode_escape municipalities superchargers
    = Ok file ->
  exists decoded n,
    Forall2 (fun supercharger k => unicode_escape (escaped supercharger) = Ok k)
      superchargers decoded /\
    grouped municipalities decoded n /\
    file = (fun item => (item.1, set_neighbors item.2 None)) <$> by_code n.
Proof.
  intros H. unfold saveMunicipalityCodesAndSuperchargerStatus in H.
  inv_bind H. rename a into n0. inv_bind H. rename a into n.
  inv_bind H. rename a into written. injection H as <-.
  apply json_dump_inv in Ha1 as [-> _].
  assert (grouped [] [] []) as Hstart.
  { split; [constructor|]. split.
    - intros k l m Hin. by apply elem_of_nil in Hin.
    - intros rec Hr. by apply elem_of_nil in Hr. }
  pose proof (group_by_name_grouped municipalities [] [] n0 Hstart Ha) as Hg0.
  destruct (mark_superchargers_grouped municipalities superchargers [] n0 n Hg0 Ha0)
    as (decoded & Hdec & Hg).
  exists decoded, n. split; [done|]. split; [done|].
  apply (zip_keys_values (by_code n) (fun m => set_neighbors m None)).
Qed.

Lemma by_code_spec records names n :
  grouped records names n ->
  NoDup (dict_keys (by_code n)) /\
  (forall c m, (c, m) ∈ by_code n -> code m = c /\ m ∈ entities n) /\
  (forall m, m ∈ entities n -> code m ∈ dict_keys (by_code n)).
Proof.
  intros Hg. rewrite by_code_flat.
  destruct (foldl_by_code (fun m => m ∈ entities n) (entities n) [])
    as (Hnd & Hd & Hms & _); [constructor| |done|done].
  intros k m Hin. by apply elem_of_nil in Hin.
Qed.
End Pipeline.

(** ** Reading the entities back *)

(** The constructor rebuilds [_neighbors] from the edges: an entity whose
    [_neighbors] are the codes of its edges is read back as it was
    before the serializer deleted the attribute. *)
Lemma load_stripped m : seen_ok m -> Municipality_load (set_neighbors m None) = m.
Proof.
  intros (s & Hs & Hiff). destruct m as [n st c la lo h nb es]. simpl in *.
  unfold Municipality_load, Municipality_init. simpl. f_equal.
  rewrite Hs. f_equal. apply set_eq. intros x.
  rewrite elem_of_list_to_set. symmetry. apply Hiff.
Qed.

Lemma pristine_seen_ok m : pristine m -> seen_ok m.
Proof.
  intros [Hs Hnil]. exists ∅. split; [done|]. intros c. rewrite Hnil.
  split; intros H; [by apply elem_of_empty in H | by apply elem_of_nil in H].
Qed.

Lemma load_pristine v : edges v = [] -> pristine (Municipality_load v).
Proof. intros H. unfold Municipality_load, Municipality_init. by rewrite H. Qed.

Lemma fmap_ext_elem {A B} (f g : A -> B) (l : list A) :
  (forall x, x ∈ l -> f x = g x) -> f <$> l = g <$> l.
Proof.
  intros H. apply list_fmap_ext. intros i x Hi. apply H. by eapply list_elem_of_lookup_2.
Qed.

Lemma load_dict_keys obj : dict_keys (load_dict obj) = dict_keys obj.
Proof.
  unfold load_dict, dict_keys. rewrite <- list_fmap_compose. by apply list_fmap_ext.
Qed.

Lemma load_dict_values obj : dict_values (load_dict obj) = Municipality_load <$> dict_values obj.
Proof.
  unfold load_dict, dict_values. rewrite <- !list_fmap_compose. by apply list_fmap_ext.
Qed.

Lemma dict_keys_zip {V} (keys : list string) (values : list V) :
  length keys = length values -> dict_keys (zip keys values) = keys.
Proof. intros H. unfold dict_keys. apply fst_zip. lia. Qed.

Lemma dict_values_zip {V} (keys : list string) (values : list V) :
  length keys = length values -> dict_values (zip keys values) = values.
Proof. intros H. unfold dict_values. apply snd_zip. lia. Qed.

(** X12: what [loadMunicipalitiesWithEdgesV2] reads from the file of the
    selector is the state the selector left before serializing it: the
    entities under the same keys, [_neighbors] restored. *)
Theorem load_restores_selector_state
    (kernel : float -> float -> float -> float -> result float)
    (keys : list string) (values out : list Municipality) :
  Forall pristine values -> length keys = length values ->
  addEdgesToMunicipalitiesV2 kernel values = Ok out ->
  exists final,
    rounds kernel values (seq 0 (length values)) = Ok final /\
    out = (fun m => set_neighbors m None) <$> final /\
    loadMunicipalitiesWithEdgesV2 (zip keys out) = zip keys final.
Proof.
  intros Hp Hlen H.
  destruct (selector_spec _ _ _ Hp H) as (final & own & Hr & -> & Hwf & [Hlen' _] & _).
  exists final. split; [done|]. split; [done|].
  unfold loadMunicipalitiesWithEdgesV2, load_dict.
  rewrite <- Hlen' in Hlen. clear -Hwf Hlen.
  assert (Forall seen_ok final) as Hseen.
  { apply Forall_lookup_2. intros i m Hi. by destruct (Hwf i m Hi). }
  clear Hwf. revert keys Hlen.
  induction Hseen as [|m final Hm _ IH]; intros [|k keys] Hlen; simpl in *; try done.
  f_equal; [f_equal; by apply load_stripped|]. apply IH. lia.
Qed.

Lemma load_restores_selector_state_witness :
  exists final,
    rounds meridian three (seq 0 (length three)) = Ok final /\
    returned (addEdgesToMunicipalitiesV2 meridian three) =
      (fun m => set_neighbors m None) <$> final /\
    loadMunicipalitiesWithEdgesV2
      (zip ["A"; "B"; "C"] (returned (addEdgesToMunicipalitiesV2 meridian three))) =
    zip ["A"; "B"; "C"] final.
Proof.
  apply (load_restores_selector_state meridian ["A"; "B"; "C"] three).
  - repeat constructor.
  - reflexivity.
  - vm_compute. reflexivity.
Defined.

(** ** What [saveMunicipalityCodesAndSuperchargerStatus] writes *)

Section Saved.
Variable unicode_escape : string -> result string.

Lemma save_load municipalities superchargers file :
  saveMunicipalityCodesAndSuperchargerStatus unicode_escape municipalities superchargers
    = Ok file ->
  exists decoded n,
    Forall2 (fun supercharger k => unicode_escape (escaped supercharger) = Ok k)
      superchargers decoded /\
    grouped municipalities decoded n /\
    dict_keys file = dict_keys (by_code n) /\
    getMunicipalityCodeToSuperchargerStatus file = by_code n.
Proof.
  intros H. destruct (save_inv _ _ _ _ H) as (decoded & n & Hdec & Hg & ->).
  exists decoded, n. split; [done|]. split; [done|].
  destruct (by_code_spec _ _ _ Hg) as (_ & Hcode & _).
  destruct Hg as (_ & Hent & _).
  split.
  - unfold dict_keys. rewrite <- list_fmap_compose. by apply list_fmap_ext.
  - unfold getMunicipalityCodeToSuperchargerStatus, load_dict.
    rewrite <- list_fmap_compose.
    rewrite <- (list_fmap_id (by_code n)) at 2.
    apply fmap_ext_elem. intros [c m] Hin. simpl. f_equal.
    destruct (Hcode c m Hin) as [_ Hm].
    apply elem_of_entities in Hm as (k & l & Hkl & Hml).
    destruct (Hent k l m Hkl Hml) as (_ & Hp & _).
    apply load_stripped. by apply pristine_seen_ok.
Qed.

(** X13: the entities [getMunicipalityCodeToSuperchargerStatus] reads from
    the file that [saveMunicipalityCodesAndSuperchargerStatus] wrote are
    what the selector expects: every key once, every entity under its
    own code, hence no code twice, and no entity with an edge or a
    neighbour. *)
Theorem saved_entities_are_pristine
    (municipalities : list MunicipalityRecord) (superchargers : list SuperchargerRow)
    (file : dict Municipality) :
  saveMunicipalityCodesAndSuperchargerStatus unicode_escape municipalities superchargers
    = Ok file ->
  let codeToMunicipality := getMunicipalityCodeToSuperchargerStatus file in
  NoDup (dict_keys codeToMunicipality) /\
  dict_keys codeToMunicipality = code <$> dict_values codeToMunicipality /\
  NoDup (code <$> dict_values codeToMunicipality) /\
  Forall pristine (dict_values codeToMunicipality).
Proof.
  intros H codeToMunicipality.
  destruct (save_load _ _ _ H) as (decoded & n & _ & Hg & _ & Hload).
  unfold codeToMunicipality. rewrite Hload.
  destruct (by_code_spec _ _ _ Hg) as (Hnd & Hcode & _).
  destruct Hg as (_ & Hent & _).
  assert (dict_keys (by_code n) = code <$> dict_values (by_code n)) as Hkeys.
  { unfold dict_keys, dict_values. rewrite <- list_fmap_compose.
    apply fmap_ext_elem. intros [c m] Hin. simpl.
    by destruct (Hcode c m Hin) as [-> _]. }
  split; [done|]. split; [done|]. split; [by rewrite <- Hkeys|].
  apply Forall_forall. intros m Hm.
  apply list_elem_of_fmap in Hm as ([c m'] & -> & Hin). simpl.
  destruct (Hcode c m' Hin) as [_ Hm'].
  apply elem_of_entities in Hm' as (k & l & Hkl & Hml).
  by destruct (Hent k l m' Hkl Hml) as (_ & Hp & _).
Qed.

(** X14: the first code of every record read is a key of the file written;
    every entity written carries the first name, state and code and the
    point of one of the records, and the supercharger flag exactly when
    the name of a supercharger decodes to its state and name joined by
    an underscore. *)
Theorem saved_entities_are_marked
    (municipalities : list MunicipalityRecord) (superchargers : list SuperchargerRow)
    (file : dict Municipality) :
  saveMunicipalityCodesAndSuperchargerStatus unicode_escape municipalities superchargers
    = Ok file ->
  (forall record, record ∈ municipalities ->
     exists c, mun_code record !! 0 = Some c /\ c ∈ dict_keys file) /\
  (forall c m, (c, m) ∈ getMunicipalityCodeToSuperchargerStatus file ->
     code m = c /\
     (exists record, record ∈ municipalities /\ from_record record m) /\
     (hasSupercharger m = true <->
      exists supercharger, supercharger ∈ superchargers /\
        unicode_escape (escaped supercharger) = Ok (key_of m))).
Proof.
  intros H.
  destruct (save_load _ _ _ H) as (decoded & n & Hdec & Hg & Hkeys & Hload).
  rewrite Hload, Hkeys.
  destruct (by_code_spec _ _ _ Hg) as (_ & Hcode & Hall).
  destruct Hg as (_ & Hent & Hcov).
  split.
  - intros record Hr. destruct (Hcov record Hr) as (m & Hm & _ & _ & Hc & _).
    exists (code m). split; [done|]. by apply Hall.
  - intros c m Hin. destruct (Hcode c m Hin) as [Hc Hm].
    apply elem_of_entities in Hm as (k & l & Hkl & Hml).
    destruct (Hent k l m Hkl Hml) as (Hk & _ & Hflag & Hrec).
    split; [done|]. split; [done|]. rewrite Hflag, Hk. split.
    + intros Hd. apply list_elem_of_lookup in Hd as [i Hi].
      destruct (Forall2_lookup_r _ _ _ _ _ Hdec Hi) as (sc & Hsc & Hesc).
      exists sc. split; [by eapply list_elem_of_lookup_2|done].
    + intros (sc & Hsc & Hesc). apply list_elem_of_lookup in Hsc as [i Hi].
      destruct (Forall2_lookup_l _ _ _ _ _ Hdec Hi) as (k' & Hk' & Hesc').
      assert (k' = k) as -> by congruence. by eapply list_elem_of_lookup_2.
Qed.
End Saved.

Import Samples.

Lemma saved_entities_are_pristine_witness :
  let codeToMunicipality := getMunicipalityCodeToSuperchargerStatus sample_file in
  NoDup (dict_keys codeToMunicipality) /\
  dict_keys codeToMunicipality = code <$> dict_values codeToMunicipality /\
  NoDup (code <$> dict_values codeToMunicipality) /\
  Forall pristine (dict_values codeToMunicipality).
Proof.
  apply (saved_entities_are_pristine plain sample_records sample_superchargers).
  vm_compute. reflexivity.
Defined.

Lemma saved_entities_are_marked_witness :
  (forall record, record ∈ sample_records ->
     exists c, mun_code record !! 0 = Some c /\ c ∈ dict_keys sample_file) /\
  (forall c m, (c, m) ∈ getMunicipalityCodeToSuperchargerStatus sample_file ->
     code m = c /\
     (exists record, record ∈ sample_records /\ from_record record m) /\
     (hasSupercharger m = true <->
      exists supercharger, supercharger ∈ sample_superchargers /\
        plain (escaped supercharger) = Ok (key_of m))).
Proof.
  apply (saved_entities_are_marked plain sample_records sample_superchargers).
  vm_compute. reflexivity.
Defined.

Example sample_file_flags :
  (fun item => (item.1, hasSupercharger item.2)) <$> sample_file =
  [("13048", true); ("13051", true); ("13076", false)].
Proof. vm_compute. reflexivity. Qed.

(** ** The map *)

Lemma count_lines_app l1 l2 : count_lines (l1 ++ l2) = count_lines l1 + count_lines l2.
Proof. induction l1 as [|[] l1 IH]; simpl; lia. Qed.

Lemma count_markers_app l1 l2 :
  count_markers (l1 ++ l2) = count_markers l1 + count_markers l2.
Proof. induction l1 as [|[] l1 IH]; simpl; lia. Qed.

Lemma validate_location_located m :
  located m -> validate_location (lat m, lon m) = Ok (lat m, lon m).
Proof. intros [Hlat Hlon]. unfold validate_location. simpl. by rewrite Hlat, Hlon. Qed.

Lemma validate_location_nan m :
  ~ located m -> validate_location (lat m, lon m) = Raise ValueError.
Proof.
  intros H. unfold validate_location. simpl.
  destruct (Float.is_nan (lat m)) eqn:Hlat; [done|].
  destruct (Float.is_nan (lon m)) eqn:Hlon; [done|]. by destruct H.
Qed.

Lemma draw_edges_cons d muni edge es :
  draw_edges d muni (edge :: es) =
  neighbor ← dict_item d (toMuniCode edge);
  a ← validate_location (lat muni, lon muni);
  b ← validate_location (lat neighbor, lon neighbor);
  lines ← draw_edges d muni es;
  Ok (PolyLine a b :: lines).
Proof. reflexivity. Qed.

Lemma draw_munis_cons d muni rest :
  draw_munis d (muni :: rest) =
  location ← validate_location (lat muni, lon muni);
  lines ← draw_edges d muni (edges muni);
  shapes ← draw_munis d rest;
  Ok (Marker location (name muni) :: lines ++ shapes).
Proof. reflexivity. Qed.

Lemma dict_item_value {V} (d : dict V) k v : dict_item d k = Ok v -> v ∈ dict_values d.
Proof.
  unfold dict_item. destruct (dict_get d k) as [v'|] eqn:H; [|done].
  intros [= <-]. apply dict_get_Some in H.
  apply list_elem_of_fmap. by exists (k, v').
Qed.

Lemma draw_edges_Ok d muni es :
  Forall located (dict_values d) -> located muni ->
  (forall e, e ∈ es -> toMuniCode e ∈ dict_keys d) ->
  exists lines, draw_edges d muni es = Ok lines /\
    count_lines lines = length es /\ count_markers lines = 0.
Proof.
  intros Hloc Hmuni. induction es as [|e es IH]; intros Hkeys.
  - by exists [].
  - destruct IH as (lines & Hl & Hc & Hm); [intros e' He'; apply Hkeys; by right|].
    destruct (dict_get_is_Some d (toMuniCode e)) as [neighbor Hn]; [apply Hkeys; by left|].
    assert (dict_item d (toMuniCode e) = Ok neighbor) as Hitem.
    { unfold dict_item. by rewrite Hn. }
    assert (located neighbor) as Hneighbor.
    { eapply Forall_forall; [exact Hloc|]. by eapply dict_item_value. }
    eexists. rewrite draw_edges_cons, Hitem. rsimpl.
    rewrite (validate_location_located _ Hmuni). rsimpl.
    rewrite (validate_location_located _ Hneighbor). rsimpl.
    rewrite Hl. rsimpl. split; [done|]. simpl. by rewrite Hc, Hm.
Qed.

Lemma draw_edges_KeyError d muni es :
  Forall located (dict_values d) -> located muni ->
  (exists e, e ∈ es /\ toMuniCode e ∉ dict_keys d) ->
  draw_edges d muni es = Raise KeyError.
Proof.
  intros Hloc Hmuni. induction es as [|e es IH]; intros (bad & Hin & Hbad).
  - by apply elem_of_nil in Hin.
  - rewrite draw_edges_cons.
    destruct (dict_item d (toMuniCode e)) as [neighbor|err] eqn:Hitem.
    + rsimpl. rewrite (validate_location_located _ Hmuni). rsimpl.
      rewrite validate_location_located.
      2:{ eapply Forall_forall; [exact Hloc|]. by eapply dict_item_value. }
      rsimpl. apply elem_of_cons in Hin as [->|Hin].
      * apply dict_get_None in Hbad. unfold dict_item in Hitem. by rewrite Hbad in Hitem.
      * rewrite IH; [done|]. by exists bad.
    + unfold dict_item in Hitem. by destruct (dict_get d (toMuniCode e)); simplify_eq.
Qed.

(** The inner loop raises nothing but KeyError and ValueError. *)
Lemma draw_edges_raises d muni es e :
  draw_edges d muni es = Raise e -> e = KeyError \/ e = ValueError.
Proof.
  induction es as [|edge es IH]; [done|]. rewrite draw_edges_cons.
  unfold dict_item. destruct (dict_get d (toMuniCode edge)) as [neighbor|].
  2:{ intros [= <-]. by left. }
  rsimpl. unfold validate_location.
  destruct (Float.is_nan (lat muni, lon muni).1 || Float.is_nan (lat muni, lon muni).2).
  { intros [= <-]. by right. }
  rsimpl.
  destruct (Float.is_nan (lat neighbor, lon neighbor).1
            || Float.is_nan (lat neighbor, lon neighbor).2).
  { intros [= <-]. by right. }
  rsimpl. destruct (draw_edges d muni es) as [lines|e']; [done|].
  intros [= <-]. by apply IH.
Qed.

Lemma draw_munis_Ok d munis :
  Forall located (dict_values d) -> Forall located munis ->
  (forall m e, m ∈ munis -> e ∈ edges m -> toMuniCode e ∈ dict_keys d) ->
  exists shapes, draw_munis d munis = Ok shapes /\
    count_lines shapes = totalEdges munis /\ count_markers shapes = length munis.
Proof.
  intros Hloc. induction munis as [|m munis IH]; intros Hmunis Hkeys.
  - by exists [].
  - apply Forall_cons in Hmunis as [Hm Hmunis].
    destruct IH as (shapes & Hs & Hc & Hk);
      [done|intros m' e Hm' He; eapply Hkeys; [by right|done]|].
    destruct (draw_edges_Ok d m (edges m) Hloc Hm) as (lines & Hl & Hcl & Hml).
    { intros e He. eapply Hkeys; [by left|done]. }
    eexists. rewrite draw_munis_cons, (validate_location_located _ Hm). rsimpl.
    rewrite Hl. rsimpl. rewrite Hs. rsimpl.
    split; [done|]. simpl. rewrite count_lines_app, count_markers_app, totalEdges_cons. lia.
Qed.

Lemma draw_munis_KeyError d munis :
  Forall located (dict_values d) -> Forall located munis ->
  (exists m e, m ∈ munis /\ e ∈ edges m /\ toMuniCode e ∉ dict_keys d) ->
  draw_munis d munis = Raise KeyError.
Proof.
  intros Hloc. induction munis as [|m munis IH]; intros Hmunis (bad & e & Hin & He & Hbad).
  - by apply elem_of_nil in Hin.
  - apply Forall_cons in Hmunis as [Hm Hmunis].
    rewrite draw_munis_cons, (validate_location_located _ Hm). rsimpl.
    destruct (decide (Exists (fun e' => toMuniCode e' ∉ dict_keys d) (edges m))) as [Hex|Hex].
    + rewrite draw_edges_KeyError; [done..|]. by apply Exists_exists in Hex.
    + rewrite Exists_exists in Hex.
      destruct (draw_edges_Ok d m (edges m) Hloc Hm) as (lines & Hl & _).
      { intros e' He'. destruct (decide (toMuniCode e' ∈ dict_keys d)); [done|].
        exfalso. apply Hex. by exists e'. }
      rewrite Hl. rsimpl.
      apply elem_of_cons in Hin as [->|Hin]; [exfalso; apply Hex; by exists e|].
      rewrite IH; [done..|]. by exists bad, e.
Qed.

(** One entity with a NaN coordinate and the outer loop raises: ValueError
    at its marker, or before it at a line to it or at a missing
    neighbour. *)
Lemma draw_munis_nan d munis :
  Exists (fun m => ~ located m) munis ->
  draw_munis d munis = Raise ValueError \/ draw_munis d munis = Raise KeyError.
Proof.
  induction munis as [|m munis IH]; intros Hex; [by apply Exists_nil in Hex|].
  rewrite draw_munis_cons.
  destruct (decide (located m)) as [Hm|Hm].
  2:{ rewrite (validate_location_nan _ Hm). by left. }
  rewrite (validate_location_located _ Hm). rsimpl.
  destruct (draw_edges d m (edges m)) as [lines|e] eqn:Hl.
  2:{ rsimpl. destruct (draw_edges_raises _ _ _ _ Hl) as [-> | ->]; auto. }
  rsimpl. apply Exists_cons in Hex as [Hex|Hex]; [done|].
  destruct (IH Hex) as [-> | ->]; auto.
Qed.

(** X15: [testAndSaveToMap] draws one marker for every entity and one line
    for every edge, as many as the total it prints, when no coordinate is
    NaN and the second code of every edge is a key of the mapping; with no
    NaN it raises KeyError when one is not a key.  A NaN coordinate, which
    folium refuses, makes it raise ValueError, or KeyError at a missing
    key met before. *)
Theorem testAndSaveToMap_draws_or_raises (codeToMuni : dict Municipality) :
  (Forall located (dict_values codeToMuni) ->
   (forall m e, m ∈ dict_values codeToMuni -> e ∈ edges m ->
      toMuniCode e ∈ dict_keys codeToMuni) ->
   exists shapes,
     testAndSaveToMap codeToMuni = Ok (totalEdges (dict_values codeToMuni), shapes) /\
     count_lines shapes = totalEdges (dict_values codeToMuni) /\
     count_markers shapes = length codeToMuni) /\
  (Forall located (dict_values codeToMuni) ->
   (exists m e, m ∈ dict_values codeToMuni /\ e ∈ edges m /\
      toMuniCode e ∉ dict_keys codeToMuni) ->
   testAndSaveToMap codeToMuni = Raise KeyError) /\
  (Exists (fun m => ~ located m) (dict_values codeToMuni) ->
   testAndSaveToMap codeToMuni = Raise ValueError \/
   testAndSaveToMap codeToMuni = Raise KeyError).
Proof.
  unfold testAndSaveToMap. split; [|split].
  - intros Hloc Hkeys.
    destruct (draw_munis_Ok codeToMuni (dict_values codeToMuni) Hloc Hloc Hkeys)
      as (shapes & Hs & Hc & Hm).
    exists shapes. rewrite Hs. split; [done|]. split; [done|].
    rewrite Hm. unfold dict_values. by rewrite length_fmap.
  - intros Hloc Hbad. by rewrite draw_munis_KeyError.
  - intros Hnan. destruct (draw_munis_nan codeToMuni _ Hnan) as [-> | ->]; auto.
Qed.

Lemma testAndSaveToMap_draws_or_raises_witness :
  let codeToMuni := zip ["A"; "B"; "C"] (returned (addEdgesToMunicipalitiesV2 meridian three)) in
  exists shapes,
    testAndSaveToMap codeToMuni = Ok (totalEdges (dict_values codeToMuni), shapes) /\
    count_lines shapes = totalEdges (dict_values codeToMuni) /\
    count_markers shapes = length codeToMuni.
Proof.
  intros codeToMuni.
  apply (proj1 (testAndSaveToMap_draws_or_raises codeToMuni)).
  - repeat constructor.
  - assert (Forall (fun m => Forall (fun e => toMuniCode e ∈ dict_keys codeToMuni) (edges m))
              (dict_values codeToMuni)) as Hall.
    { apply (bool_decide_unpack _). vm_compute. exact I. }
    intros m e Hm He.
    eapply Forall_forall in Hall; [|exact Hm].
    eapply Forall_forall in Hall; [|exact He]. exact Hall.
Defined.

Lemma located_load value : located value -> located (Municipality_load value).
Proof. done. Qed.

Lemma located_out values final :
  extends values final -> Forall located values ->
  Forall located ((fun m => set_neighbors m None) <$> final).
Proof.
  intros [Hlen Hext] Hloc. apply Forall_fmap, Forall_lookup. intros j m' Hj.
  destruct (values !! j) as [m|] eqn:Hm.
  - destruct (Hext j m Hm) as (m'' & Hj' & _ & Hlat & Hlon & _).
    rewrite Hj in Hj'. injection Hj' as <-.
    eapply Forall_lookup in Hloc; [|exact Hm]. destruct Hloc as [H1 H2].
    split; simpl; congruence.
  - apply lookup_ge_None in Hm. apply lookup_lt_Some in Hj. lia.
Qed.

Lemma makeAndSaveMapV2_drawn
    (kernel : float -> float -> float -> float -> result float)
    (obj : dict Municipality) (out : list Municipality) :
  dict_keys obj = code <$> dict_values obj ->
  Forall (fun value => edges value = []) (dict_values obj) ->
  Forall located (dict_values obj) ->
  addEdgesToMunicipalitiesV2 kernel
    (dict_values (getMunicipalityCodeToSuperchargerStatus obj)) = Ok out ->
  exists links shapes,
    makeAndSaveMapV2 kernel obj = Ok (2 * links, shapes) /\
    totalEdges out = 2 * links /\
    count_lines shapes = 2 * links /\ count_markers shapes = length obj.
Proof.
  intros Hkeys Hnil Hloc H.
  unfold makeAndSaveMapV2. rewrite H. rsimpl.
  unfold getMunicipalityCodeToSuperchargerStatus in *.
  rewrite load_dict_keys. rewrite load_dict_values in H.
  assert (Forall pristine (Municipality_load <$> dict_values obj)) as Hp.
  { apply Forall_fmap. eapply Forall_impl; [exact Hnil|]. intros v Hv. by apply load_pristine. }
  destruct (selector_spec _ _ _ Hp H) as (final & own & _ & Hout & _ & Hext & _).
  assert (code <$> out = dict_keys obj) as Hcodes.
  { rewrite Hkeys, Hout.
    transitivity (code <$> final); [rewrite <- list_fmap_compose; by apply list_fmap_ext|].
    rewrite (extends_codes _ _ Hext), <- list_fmap_compose. by apply list_fmap_ext. }
  assert (length (dict_keys obj) = length out) as Hlen.
  { by rewrite <- Hcodes, length_fmap. }
  unfold testAndSaveToMap. rewrite dict_values_zip by done.
  assert (Forall located out) as Hout_loc.
  { rewrite Hout. apply (located_out _ _ Hext).
    apply Forall_fmap. eapply Forall_impl; [exact Hloc|]. apply located_load. }
  destruct (draw_munis_Ok (zip (dict_keys obj) out) out) as (shapes & Hs & Hc & Hm).
  { by rewrite dict_values_zip. }
  { done. }
  { rewrite dict_keys_zip by done.
    intros m e Hin He. apply list_elem_of_lookup in Hin as [i Hi].
    destruct (selector_mutual _ _ _ _ _ _ Hp H Hi He) as (_ & k & m' & _ & Hk & <- & _).
    rewrite <- Hcodes. apply list_elem_of_fmap. exists m'.
    split; [done|]. by eapply list_elem_of_lookup_2. }
  destruct (selector_links_counted kernel _ _ Hp H) as [links Hlinks].
  exists links, shapes. rewrite Hs, Hc, Hm, Hlinks. rsimpl.
  split; [done|]. split; [done|]. split; [done|].
  rewrite <- Hlen. unfold dict_keys. by rewrite length_fmap.
Qed.

(** X16: when the selector returns, on entities read from a file that holds
    every entity under its own code, without an edge and without a NaN
    coordinate, [makeAndSaveMapV2] draws the map: no neighbour is missing
    from the mapping and folium accepts every point.  It prints the total
    of the edges, an even number, and draws as many lines, and a marker
    for every entity. *)
Theorem makeAndSaveMapV2_draws
    (kernel : float -> float -> float -> float -> result float)
    (obj : dict Municipality) (out : list Municipality) :
  dict_keys obj = code <$> dict_values obj ->
  Forall (fun value => edges value = []) (dict_values obj) ->
  Forall located (dict_values obj) ->
  addEdgesToMunicipalitiesV2 kernel
    (dict_values (getMunicipalityCodeToSuperchargerStatus obj)) = Ok out ->
  exists links shapes,
    makeAndSaveMapV2 kernel obj = Ok (2 * links, shapes) /\
    totalEdges out = 2 * links /\
    count_lines shapes = 2 * links /\ count_markers shapes = length obj.
Proof. apply makeAndSaveMapV2_drawn. Qed.

Lemma makeAndSaveMapV2_draws_witness :
  exists links shapes,
    makeAndSaveMapV2 meridian sample_file = Ok (2 * links, shapes) /\
    totalEdges (returned (addEdgesToMunicipalitiesV2 meridian
      (dict_values (getMunicipalityCodeToSuperchargerStatus sample_file)))) = 2 * links /\
    count_lines shapes = 2 * links /\ count_markers shapes = length sample_file.
Proof.
  apply (makeAndSaveMapV2_draws meridian sample_file).
  - vm_compute. reflexivity.
  - apply (bool_decide_unpack _). vm_compute. exact I.
  - repeat constructor.
  - vm_compute. reflexivity.
Defined.

(** ** The whole program *)

Section Program.
Variable unicode_escape : string -> result string.
Variable kernel : float -> float -> float -> float -> result float.

Lemma file_keys_codes municipalities superchargers file :
  saveMunicipalityCodesAndSuperchargerStatus unicode_escape municipalities superchargers
    = Ok file ->
  dict_keys file = code <$> dict_values file /\
  Forall (fun value => edges value = []) (dict_values file) /\
  (Forall record_located municipalities -> Forall located (dict_values file)).
Proof.
  intros H. destruct (save_inv _ _ _ _ H) as (decoded & n & _ & Hg & ->).
  destruct (by_code_spec _ _ _ Hg) as (_ & Hcode & _).
  destruct Hg as (_ & Hent & _).
  unfold dict_keys, dict_values. rewrite <- !list_fmap_compose. split; [|split].
  - apply fmap_ext_elem. intros [c m] Hin. simpl. by destruct (Hcode c m Hin) as [-> _].
  - apply Forall_fmap, Forall_forall. intros [c m] Hin. simpl.
    destruct (Hcode c m Hin) as [_ Hm].
    apply elem_of_entities in Hm as (k & l & Hkl & Hml).
    by destruct (Hent k l m Hkl Hml) as (_ & [_ Hnil] & _).
  - intros Hloc. apply Forall_fmap, Forall_forall. intros [c m] Hin. simpl.
    destruct (Hcode c m Hin) as [_ Hm].
    apply elem_of_entities in Hm as (k & l & Hkl & Hml).
    destruct (Hent k l m Hkl Hml) as (_ & _ & _ & record & Hrecord & _ & _ & _ & Hpoint).
    eapply Forall_forall in Hloc; [|exact Hrecord].
    unfold record_located in Hloc. rewrite Hpoint in Hloc. exact Hloc.
Qed.
End Program.

(** X17: [main] of initialDataProcessing.py returns whenever no record has a
    NaN coordinate, the entities are saved and the selector returns on
    them: the map is drawn with a marker for every code and a line for
    every edge, an even number of them, and in the graph drawn no entity
    is its own neighbour or twice the neighbour of another. *)
Theorem main_draws_the_graph
    (unicode_escape : string -> result string)
    (kernel : float -> float -> float -> float -> result float)
    (municipalities : list MunicipalityRecord) (superchargers : list SuperchargerRow)
    (file : dict Municipality) (codeToMuni : list Municipality) :
  Forall record_located municipalities ->
  saveMunicipalityWithSuperchargers unicode_escape municipalities superchargers = Ok file ->
  addEdgesToMunicipalitiesV2 kernel
    (dict_values (getMunicipalityCodeToSuperchargerStatus file)) = Ok codeToMuni ->
  (exists links shapes,
     main unicode_escape kernel municipalities superchargers = Ok (2 * links, shapes) /\
     count_lines shapes = 2 * links /\ count_markers shapes = length file) /\
  (forall i m, codeToMuni !! i = Some m ->
     (code m ∉ toMuniCode <$> edges m) /\ NoDup (toMuniCode <$> edges m)).
Proof.
  intros Hrecords Hsave H. unfold saveMunicipalityWithSuperchargers in Hsave. split.
  - destruct (file_keys_codes _ _ _ _ Hsave) as (Hkeys & Hnil & Hloc).
    destruct (makeAndSaveMapV2_drawn kernel file codeToMuni Hkeys Hnil (Hloc Hrecords) H)
      as (links & shapes & Hmap & _ & Hc & Hm).
    exists links, shapes. split; [|done].
    unfold main, saveMunicipalityWithSuperchargers. rewrite Hsave. rsimpl.
    unfold makeAndSaveMapV2 in Hmap. exact Hmap.
  - destruct (save_load _ _ _ _ Hsave) as (decoded & n & _ & Hg & _ & Hload).
    rewrite Hload in H.
    destruct (by_code_spec _ _ _ Hg) as (Hnd & Hcode & _).
    destruct Hg as (_ & Hent & _).
    intros i m Hi. apply (selector_simple kernel (dict_values (by_code n)) codeToMuni i m);
      [| |done|done].
    + apply Forall_forall. intros m' Hm'.
      apply list_elem_of_fmap in Hm' as ([c m0] & -> & Hin). simpl.
      destruct (Hcode c m0 Hin) as [_ Hm0].
      apply elem_of_entities in Hm0 as (k & l & Hkl & Hml).
      by destruct (Hent k l m0 Hkl Hml) as (_ & Hp & _).
    + replace (code <$> dict_values (by_code n)) with (dict_keys (by_code n)); [done|].
      unfold dict_keys, dict_values. rewrite <- list_fmap_compose.
      apply fmap_ext_elem. intros [c m0] Hin. simpl. by destruct (Hcode c m0 Hin) as [-> _].
Qed.

Lemma main_draws_the_graph_witness :
  let codeToMuni := returned (addEdgesToMunicipalitiesV2 meridian
    (dict_values (getMunicipalityCodeToSuperchargerStatus sample_file))) in
  (exists links shapes,
     main plain meridian sample_records sample_superchargers = Ok (2 * links, shapes) /\
     count_lines shapes = 2 * links /\ count_markers shapes = length sample_file) /\
  (forall i m, codeToMuni !! i = Some m ->
     (code m ∉ toMuniCode <$> edges m) /\ NoDup (toMuniCode <$> edges m)).
Proof.
  intros codeToMuni.
  apply (main_draws_the_graph plain meridian sample_records sample_superchargers
    sample_file codeToMuni).
  - repeat constructor.
  - vm_compute. reflexivity.
  - vm_compute. reflexivity.
Defined.

(** ** Cleaning the raw files *)

Lemma getMunicipalities_cons {V} (municipality : gmap string V) rest :
  getMunicipalities (municipality :: rest) =
  match municipality !! "geo_shape" with
  | None => Raise KeyError
  | Some _ => rest' ← getMunicipalities rest; Ok (delete "geo_shape" municipality :: rest')
  end.
Proof. reflexivity. Qed.

(** X18: [getMunicipalities] deletes [geo_shape] from every object and leaves
    the other keys alone, when every object has the key; one object
    without it and the call raises KeyError, whatever the others hold. *)
Theorem getMunicipalities_all_or_KeyError {V} (municipalities : list (gmap string V)) :
  (Forall (fun municipality => is_Some (municipality !! "geo_shape")) municipalities ->
   getMunicipalities municipalities = Ok (delete "geo_shape" <$> municipalities)) /\
  (Exists (fun municipality => municipality !! "geo_shape" = None) municipalities ->
   getMunicipalities municipalities = Raise KeyError) /\
  (forall cleaned i municipality key,
     getMunicipalities municipalities = Ok cleaned -> cleaned !! i = Some municipality ->
     municipality !! "geo_shape" = None /\
     (key <> "geo_shape" ->
      exists raw, municipalities !! i = Some raw /\ municipality !! key = raw !! key)).
Proof.
  assert (Forall (fun municipality => is_Some (municipality !! "geo_shape")) municipalities ->
          getMunicipalities municipalities = Ok (delete "geo_shape" <$> municipalities)) as Hall.
  { induction 1 as [|m ms [v Hv] _ IH]; [done|].
    by rewrite getMunicipalities_cons, Hv, IH. }
  assert (Exists (fun municipality => municipality !! "geo_shape" = None) municipalities ->
          getMunicipalities municipalities = Raise KeyError) as Hbad.
  { clear Hall. induction 1 as [m ms Hm|m ms _ IH]; rewrite getMunicipalities_cons.
    - by rewrite Hm.
    - destruct (m !! "geo_shape"); [|done]. by rewrite IH. }
  split; [done|]. split; [done|].
  intros cleaned i municipality key H Hi.
  destruct (decide (Exists (fun municipality : gmap string V =>
                              municipality !! "geo_shape" = None) municipalities)) as [He|He].
  { rewrite (Hbad He) in H. done. }
  apply not_Exists_Forall in He; [|intros m; apply _].
  rewrite Hall in H.
  2:{ eapply Forall_impl; [exact He|]. intros m Hm. simpl in Hm.
      by apply not_eq_None_Some. }
  injection H as <-. rewrite list_lookup_fmap in Hi.
  destruct (municipalities !! i) as [raw|]; [|done]. injection Hi as <-.
  split; [apply lookup_delete_eq|]. intros Hkey. exists raw. split; [done|].
  by apply lookup_delete_ne.
Qed.

Lemma getMunicipalities_all_or_KeyError_witness :
  getMunicipalities [({[ "mun_code" := 13048%Z; "geo_shape" := 0%Z ]} : gmap string Z)] =
  Ok (delete "geo_shape" <$> [({[ "mun_code" := 13048%Z; "geo_shape" := 0%Z ]} : gmap string Z)]).
Proof.
  apply (proj1 (getMunicipalities_all_or_KeyError _)).
  repeat constructor. vm_compute. by eexists.
Defined.

(** ** The exceptions of the selector *)

Lemma raises_only_Ok {A} (E : exn -> Prop) (a : A) : raises_only E (Ok a).
Proof. intros e H. discriminate H. Qed.

Lemma raises_only_bind {A B} (E : exn -> Prop) (m : result A) (f : A -> result B) :
  raises_only E m -> (forall a, m = Ok a -> raises_only E (f a)) ->
  raises_only E (m ≫= f).
Proof.
  intros Hm Hf. destruct m as [a|e0]; rsimpl.
  - by apply Hf.
  - intros e [= <-]. by apply Hm.
Qed.

Section heapq_exceptions.
Context {A : Type} (lt : A -> A -> result bool).
Variable E : exn -> Prop.
Hypothesis lt_raises : forall x y, raises_only E (lt x y).

Lemma _siftdown_loop_only fuel : forall heap startpos pos newitem,
  pos < length heap ->
  raises_only E (_siftdown_loop lt fuel heap startpos pos newitem).
Proof.
  induction fuel as [|fuel IH]; intros heap startpos pos newitem Hpos.
  - apply raises_only_Ok.
  - rewrite _siftdown_loop_S.
    destruct (decide (startpos < pos)) as [Hlt|]; [|apply raises_only_Ok].
    assert ((pos - 1) / 2 < pos) as Hp by (apply parent_lt; lia).
    destruct (getitem_lt heap ((pos - 1) / 2)) as (parent & -> & Hparent); [lia|].
    rsimpl. apply raises_only_bind; [apply lt_raises|].
    intros [] _; [|apply raises_only_Ok].
    apply IH. rewrite length_insert. lia.
Qed.

Lemma _siftdown_only heap startpos pos :
  pos < length heap -> raises_only E (_siftdown lt heap startpos pos).
Proof.
  intros Hpos. unfold _siftdown.
  destruct (getitem_lt heap pos Hpos) as (newitem & -> & Hnew). rsimpl.
  by apply _siftdown_loop_only.
Qed.

Lemma _siftup_loop_only fuel : forall heap pos,
  raises_only E (_siftup_loop lt fuel heap (length heap) pos).
Proof.
  induction fuel as [|fuel IH]; intros heap pos.
  - apply raises_only_Ok.
  - rewrite _siftup_loop_S.
    destruct (decide (2 * pos + 1 < length heap)) as [Hlt|]; [|apply raises_only_Ok].
    apply raises_only_bind.
    + destruct (decide (2 * pos + 1 + 1 < length heap)) as [Hr|]; [|apply raises_only_Ok].
      destruct (getitem_lt heap (2 * pos + 1) Hlt) as (c & -> & Hc).
      destruct (getitem_lt heap (2 * pos + 1 + 1) Hr) as (r & -> & Hr').
      rsimpl. apply raises_only_bind; [apply lt_raises|].
      intros b _. apply raises_only_Ok.
    + intros childpos' Hchild.
      assert (childpos' < length heap) as Hc.
      { destruct (decide (2 * pos + 1 + 1 < length heap)) as [Hr|].
        - inv_bind Hchild. inv_bind Hchild. inv_bind Hchild.
          injection Hchild as <-. destruct a1; lia.
        - injection Hchild as <-. lia. }
      destruct (getitem_lt heap childpos' Hc) as (child & -> & _). rsimpl.
      specialize (IH (<[pos := child]> heap) childpos').
      by rewrite length_insert in IH.
Qed.

Lemma _siftup_only heap pos :
  pos < length heap -> raises_only E (_siftup lt heap pos).
Proof.
  intros Hpos. unfold _siftup.
  destruct (getitem_lt heap pos Hpos) as (newitem & -> & Hnew). rsimpl.
  apply raises_only_bind; [apply _siftup_loop_only|].
  intros [heap' pos'] Hloop.
  apply _siftup_loop_perm in Hloop as (Hlen & Hp' & _); [|done].
  apply _siftdown_only. rewrite length_insert. lia.
Qed.

Lemma heappush_only heap item : raises_only E (heappush lt heap item).
Proof.
  unfold heappush. apply _siftdown_only. rewrite length_app. simpl. lia.
Qed.

Lemma heappop_only heap : heap <> [] -> raises_only E (heappop lt heap).
Proof.
  intros Hne. unfold heappop.
  assert (length heap - 1 < length heap) as Hlast
    by (destruct heap; [done | simpl; lia]).
  destruct (getitem_lt heap _ Hlast) as (lastelt & -> & Hl). rsimpl.
  destruct (take (length heap - 1) heap) as [|returnitem rest] eqn:Htake;
    [apply raises_only_Ok|].
  apply raises_only_bind.
  - apply _siftup_only. simpl. lia.
  - intros h _. apply raises_only_Ok.
Qed.
End heapq_exceptions.

Section SelectorExceptions.
Variable kernel : float -> float -> float -> float -> result float.
Variable E : exn -> Prop.
Hypothesis E_TypeError : E TypeError.
Hypothesis kernel_raises : forall lat1 lon1 lat2 lon2,
  raises_only E (kernel lat1 lon1 lat2 lon2).

Lemma candidate_lt_only x y : raises_only E (candidate_lt x y).
Proof.
  unfold candidate_lt. destruct (Float.eqb x.1 y.1); [|apply raises_only_Ok].
  destruct (decide (x.2 = y.2)); [apply raises_only_Ok|].
  intros e [= <-]. done.
Qed.

Lemma gather_only values i muni1 s js : forall h,
  _neighbors muni1 = Some s -> (forall j, j ∈ js -> j < length values) ->
  raises_only E (gather kernel values i muni1 js h).
Proof.
  induction js as [|j js IH]; intros h Hs Hjs; [apply raises_only_Ok|].
  rewrite gather_cons.
  assert (forall h0, raises_only E (gather kernel values i muni1 js h0)) as Hrest.
  { intros h0. apply IH; [done|]. intros j' Hj'. apply Hjs. by right. }
  destruct (decide (i = j)); [done|].
  destruct (getitem_lt values j) as (muni2 & -> & _); [apply Hjs; by left|]. rsimpl.
  unfold get_neighbors. rewrite Hs. rsimpl.
  destruct (decide (code muni2 ∈ s)); [done|].
  apply raises_only_bind; [apply kernel_raises|]. intros d _.
  apply raises_only_bind; [apply heappush_only, candidate_lt_only|]. intros h1 _. done.
Qed.

Lemma accept_only i js : forall values h,
  wf values -> i < length values ->
  (forall x, x ∈ h -> x.2 <> i /\ x.2 < length values) ->
  raises_only E (accept values i js h).
Proof.
  induction js as [|j js IH]; intros values h Hwf Hi Hh; [apply raises_only_Ok|].
  rewrite accept_cons. destruct h as [|x0 h0] eqn:Heq; [apply raises_only_Ok|].
  rewrite <- Heq in *. assert (h <> []) as Hne by (by rewrite Heq). clear Heq x0 h0.
  apply raises_only_bind; [apply heappop_only; [apply candidate_lt_only|done]|].
  intros [[d k] h'] Hpop. apply heappop_perm in Hpop as Hperm.
  destruct (Hh (d, k)) as [Hki Hk]; [rewrite Hperm; by left|]. simpl in Hki, Hk.
  destruct (gate_breaks j d); [apply raises_only_Ok|].
  destruct (lookup_lt_is_Some_2 values i Hi) as [m1 H1].
  destruct (lookup_lt_is_Some_2 values k Hk) as [m2 H2].
  destruct (Hwf i m1 H1) as [(s1 & Hs1 & _) _].
  destruct (Hwf k m2 H2) as [(s2 & Hs2 & _) _].
  assert (i <> k) as Hik by congruence.
  pose proof (link_Ok values i k m1 m2 s1 s2 d Hik H1 H2 Hs1 Hs2) as Hlink.
  rewrite Hlink. rsimpl.
  pose proof (link_wf _ _ _ _ _ Hik Hwf Hlink) as Hwf'.
  pose proof (link_extends _ _ _ _ _ Hik Hlink) as [Hlen _].
  apply IH; [done|lia|].
  intros x Hx. rewrite Hlen. apply Hh. rewrite Hperm. by right.
Qed.

Lemma round_only values i :
  wf values -> i < length values -> raises_only E (round kernel values i).
Proof.
  intros Hwf Hi. unfold round.
  destruct (getitem_lt values i Hi) as (muni1 & -> & H1). rsimpl.
  destruct (Hwf i muni1 H1) as [(s & Hs & _) _].
  apply raises_only_bind.
  - apply (gather_only values i muni1 s); [done|].
    intros j Hj. apply elem_of_seq in Hj. lia.
  - intros h Hg. apply accept_only; [done..|].
    destruct (gather_spec kernel _ _ _ _ _ _ _ Hs Hg) as (picked & Hp & _ & Hc).
    rewrite app_nil_r in Hp. intros x Hx. rewrite Hp in Hx.
    destruct (Hc x Hx) as (Hne & m2 & H2 & _). split; [done|].
    by eapply lookup_lt_Some.
Qed.

Lemma rounds_only order : forall values,
  wf values -> (forall i, i ∈ order -> i < length values) ->
  raises_only E (rounds kernel values order).
Proof.
  induction order as [|i order IH]; intros values Hwf Hord; [apply raises_only_Ok|].
  rewrite rounds_cons. apply raises_only_bind.
  - apply round_only; [done|]. apply Hord. by left.
  - intros values1 Hr.
    destruct (round_spec kernel _ _ _ Hr Hwf) as (Hwf1 & [Hlen _] & _).
    apply IH; [done|]. intros i' Hi'. rewrite Hlen. apply Hord. by right.
Qed.

Lemma selector_only values :
  Forall pristine values -> raises_only E (addEdgesToMunicipalitiesV2 kernel values).
Proof.
  intros Hp. unfold addEdgesToMunicipalitiesV2.
  pose proof (pristine_wf values Hp) as Hwf.
  apply raises_only_bind.
  - apply rounds_only; [done|]. intros i Hi. apply elem_of_seq in Hi. lia.
  - intros final Hr.
    destruct (rounds_wf_extends kernel _ _ _ Hr Hwf) as [Hwf' _].
    rewrite json_dump_Ok; [apply raises_only_Ok|].
    apply Forall_lookup_2. intros i m Hi.
    destruct (Hwf' i m Hi) as [(s & Hs & _) _]. by eexists.
Qed.
End SelectorExceptions.

(** X21: on entities without edges the selector raises TypeError, from the
    comparison of two heap items, or an exception of the distance
    function, and no other: no index is out of range, no heap is popped
    empty and no entity lacks [_neighbors]. *)
Theorem selector_raises_only
    (kernel : float -> float -> float -> float -> result float)
    (values : list Municipality) (e : exn) :
  Forall pristine values ->
  addEdgesToMunicipalitiesV2 kernel values = Raise e ->
  e = TypeError \/
  exists lat1 lon1 lat2 lon2, kernel lat1 lon1 lat2 lon2 = Raise e.
Proof.
  intros Hp H.
  apply (selector_only kernel
    (fun e => e = TypeError \/
              exists lat1 lon1 lat2 lon2, kernel lat1 lon1 lat2 lon2 = Raise e))
    with values; [by left| |done|done].
  intros lat1 lon1 lat2 lon2 e' He'. right. by exists lat1, lon1, lat2, lon2.
Qed.

Lemma selector_raises_only_witness :
  TypeError = TypeError \/
  exists lat1 lon1 lat2 lon2, meridian lat1 lon1 lat2 lon2 = Raise TypeError.
Proof.
  apply (selector_raises_only meridian tied_three TypeError).
  - repeat constructor.
  - vm_compute. reflexivity.
Defined.

(** ** A tie the heap always meets *)

Lemma eqb_sym x y : Float.eqb x y = Float.eqb y x.
Proof.
  unfold Float.eqb, SFeqb. rewrite (FloatFacts.compare_swap y x).
  by destruct (SFcompare x y) as [[]|].
Qed.

Lemma gather_self (kernel : float -> float -> float -> float -> result float)
    values i muni1 js h :
  gather kernel values i muni1 (i :: js) h = gather kernel values i muni1 js h.
Proof. rewrite gather_cons. by rewrite decide_True. Qed.

Lemma gather_push (kernel : float -> float -> float -> float -> result float)
    values i muni1 s j js h muni2 d :
  i <> j -> values !! j = Some muni2 -> _neighbors muni1 = Some s -> code muni2 ∉ s ->
  getDistanceBetweenMunicipalities kernel muni1 muni2 = Ok d ->
  gather kernel values i muni1 (j :: js) h =
  h' ← heappush candidate_lt h (d, j); gather kernel values i muni1 js h'.
Proof.
  intros Hij Hj Hs Hnot Hd. rewrite gather_cons. rewrite decide_False by done.
  apply getitem_Ok in Hj. rewrite Hj. rsimpl.
  unfold get_neighbors. rewrite Hs. rsimpl.
  rewrite decide_False by done. rewrite Hd. done.
Qed.

Lemma heappush_tie d d' j k :
  j <> k -> Float.eqb d d' = true ->
  heappush candidate_lt [(d, j)] (d', k) = Raise TypeError.
Proof.
  intros Hjk Heq. unfold heappush, _siftdown. simpl length.
  change (getitem ([(d, j)] ++ [(d', k)]) (2 - 1)) with (Ok (A := float * nat) (d', k)).
  rsimpl. change (2 - 1) with 1. rewrite _siftdown_loop_S.
  destruct (decide (0 < 1)) as [_|?]; [|lia].
  change (getitem ([(d, j)] ++ [(d', k)]) ((1 - 1) / 2)) with (Ok (A := float * nat) (d, j)).
  rsimpl. unfold candidate_lt. simpl. rewrite eqb_sym, Heq.
  rewrite decide_False by congruence. done.
Qed.

(** X22: the second candidate pushed in the first round is compared with
    the first one, the root of a heap of one item: when the second and
    the third entity of the mapping are at equal distances from the first
    one, the selector raises TypeError, whatever follows them. *)
Theorem first_tie_raises
    (kernel : float -> float -> float -> float -> result float)
    (m0 m1 m2 : Municipality) (rest : list Municipality) (d d' : float) :
  pristine m0 ->
  getDistanceBetweenMunicipalities kernel m0 m1 = Ok d ->
  getDistanceBetweenMunicipalities kernel m0 m2 = Ok d' ->
  Float.eqb d d' = true ->
  addEdgesToMunicipalitiesV2 kernel (m0 :: m1 :: m2 :: rest) = Raise TypeError.
Proof.
  intros [Hs _] Hd Hd' Heq. unfold addEdgesToMunicipalitiesV2.
  change (length (m0 :: m1 :: m2 :: rest)) with (S (S (S (length rest)))).
  rewrite <- !cons_seq. rewrite rounds_cons.
  unfold round at 1. change (getitem (m0 :: m1 :: m2 :: rest) 0) with (Ok m0). rsimpl.
  change (length (m0 :: m1 :: m2 :: rest)) with (S (S (S (length rest)))).
  rewrite <- !cons_seq. rewrite gather_self.
  rewrite (gather_push kernel _ 0 m0 ∅ 1 _ _ m1 d); [|done|done|done|apply not_elem_of_empty|done].
  change (heappush candidate_lt [] (d, 1)) with (Ok (A := list (float * nat)) [(d, 1)]).
  rsimpl.
  rewrite (gather_push kernel _ 0 m0 ∅ 2 _ _ m2 d'); [|done|done|done|apply not_elem_of_empty|done].
  rewrite heappush_tie; done.
Qed.

Lemma first_tie_raises_witness :
  addEdgesToMunicipalitiesV2 meridian tied_three = Raise TypeError.
Proof.
  apply (first_tie_raises meridian (entity "P" 2000) (entity "X3" 2600) (entity "X4" 1400) []
    (Float.mul (Float.abs (Float.sub (Float.decimal 2600 2) (Float.decimal 2000 2)))
       miles_per_degree)
    (Float.mul (Float.abs (Float.sub (Float.decimal 1400 2) (Float.decimal 2000 2)))
       miles_per_degree)).
  - split; reflexivity.
  - reflexivity.
  - reflexivity.
  - vm_compute. reflexivity.
Defined.

(** ** The rows of [csv.DictReader] *)

Section DictReader_facts.
Implicit Types (d : csv_row) (items : list (string * string)) (keys row : list string).

Local Abbreviation cells := (foldl (fun d (item : string * string) =>
                                      <[Some item.1 := Cell item.2]> d)).
Local Abbreviation blanks := (foldl (fun d (key : string) => <[Some key := NoCell]> d)).

Lemma cells_rest items d : cells d items !! None = d !! None.
Proof.
  revert d. induction items as [|item items IH]; intros d; [done|].
  cbn [foldl]. rewrite IH. by rewrite lookup_insert_ne.
Qed.

Lemma cells_other items d key :
  key ∉ items.*1 -> cells d items !! Some key = d !! Some key.
Proof.
  revert d. induction items as [|item items IH]; intros d Hkey; [done|].
  rewrite fmap_cons in Hkey. apply not_elem_of_cons in Hkey as [Hne Hkey].
  cbn [foldl]. rewrite IH by done. rewrite lookup_insert_ne; [done|]. congruence.
Qed.

Lemma cells_elem items d key cell :
  NoDup items.*1 -> (key, cell) ∈ items -> cells d items !! Some key = Some (Cell cell).
Proof.
  revert d. induction items as [|item items IH]; intros d Hnd Hin.
  - by apply elem_of_nil in Hin.
  - rewrite fmap_cons in Hnd. apply NoDup_cons in Hnd as [Hitem Hnd].
    cbn [foldl]. apply elem_of_cons in Hin as [<-|Hin].
    + rewrite cells_other by done. cbn [fst snd]. by rewrite lookup_insert_eq.
    + by apply IH.
Qed.

Lemma cells_key items d key :
  key ∈ items.*1 -> exists cell, cells d items !! Some key = Some (Cell cell).
Proof.
  revert d. induction items as [|item items IH]; intros d Hin.
  - by apply elem_of_nil in Hin.
  - rewrite fmap_cons in Hin. cbn [foldl].
    destruct (decide (key ∈ items.*1)) as [Hlater|Hlater]; [by apply IH|].
    apply elem_of_cons in Hin as [->|Hin]; [|done].
    rewrite cells_other by done. rewrite lookup_insert_eq. by eexists.
Qed.

Lemma blanks_rest keys d : blanks d keys !! None = d !! None.
Proof.
  revert d. induction keys as [|k keys IH]; intros d; [done|].
  cbn [foldl]. rewrite IH. by rewrite lookup_insert_ne.
Qed.

Lemma blanks_other keys d key :
  key ∉ keys -> blanks d keys !! Some key = d !! Some key.
Proof.
  revert d. induction keys as [|k keys IH]; intros d Hkey; [done|].
  apply not_elem_of_cons in Hkey as [Hne Hkey].
  cbn [foldl]. rewrite IH by done. rewrite lookup_insert_ne; [done|]. congruence.
Qed.

Lemma blanks_key keys d key :
  key ∈ keys -> blanks d keys !! Some key = Some NoCell.
Proof.
  revert d. induction keys as [|k keys IH]; intros d Hin.
  - by apply elem_of_nil in Hin.
  - cbn [foldl]. destruct (decide (key ∈ keys)) as [Hlater|Hlater]; [by apply IH|].
    apply elem_of_cons in Hin as [->|Hin]; [|done].
    rewrite blanks_other by done. by rewrite lookup_insert_eq.
Qed.

Lemma fst_zip_take keys row : (zip keys row).*1 = take (length row) keys.
Proof.
  revert row. induction keys as [|k keys IH]; intros [|c row]; simpl; [done..|].
  by rewrite IH.
Qed.

Lemma elem_of_zip_lookup keys row i key cell :
  keys !! i = Some key -> row !! i = Some cell -> (key, cell) ∈ zip keys row.
Proof.
  intros Hk Hc. apply list_elem_of_lookup. exists i.
  apply lookup_zip_with_Some. by exists key, cell.
Qed.

(** A field name is a key of every row. *)
Lemma DictReader_row_field fieldnames row key :
  key ∈ fieldnames -> is_Some (DictReader_row fieldnames row !! Some key).
Proof.
  intros Hin. unfold DictReader_row.
  destruct (decide (length fieldnames < length row)) as [Hlong|Hshort].
  - rewrite lookup_insert_ne by done.
    destruct (cells_key (zip fieldnames row) ∅ key) as [cell ->]; [|by eexists].
    rewrite fst_zip by lia. done.
  - destruct (decide (key ∈ drop (length row) fieldnames)) as [Hd|Hd].
    + rewrite blanks_key by done. by eexists.
    + rewrite blanks_other by done.
      destruct (cells_key (zip fieldnames row) ∅ key) as [cell ->]; [|by eexists].
      rewrite fst_zip_take.
      rewrite <- (take_drop (length row) fieldnames) in Hin.
      apply elem_of_app in Hin as [Hin|Hin]; done.
Qed.

(** A string key of a row is a field name. *)
Lemma DictReader_row_no_field fieldnames row key :
  key ∉ fieldnames -> DictReader_row fieldnames row !! Some key = None.
Proof.
  intros Hout. unfold DictReader_row.
  assert (cells ∅ (zip fieldnames row) !! Some key = None) as Hcells.
  { rewrite cells_other; [done|]. rewrite fst_zip_take.
    intros Hin. apply Hout. by eapply subseteq_take. }
  destruct (decide (length fieldnames < length row)) as [Hlong|Hshort].
  - by rewrite lookup_insert_ne.
  - rewrite blanks_other; [done|].
    intros Hin. apply Hout. by eapply subseteq_drop.
Qed.

(** In a row longer than the field names every field name has a cell,
    and the key [None] has the cells left over. *)
Lemma DictReader_row_long fieldnames row key :
  length fieldnames < length row -> key ∈ fieldnames ->
  exists cell, DictReader_row fieldnames row !! Some key = Some (Cell cell).
Proof.
  intros Hlong Hin. unfold DictReader_row. rewrite decide_True by done.
  rewrite lookup_insert_ne by done. apply cells_key. by rewrite fst_zip by lia.
Qed.

Lemma DictReader_row_rest fieldnames row :
  DictReader_row fieldnames row !! None =
  if decide (length fieldnames < length row)
  then Some (Rest (drop (length fieldnames) row)) else None.
Proof.
  unfold DictReader_row. destruct (decide (length fieldnames < length row)).
  - by rewrite lookup_insert_eq.
  - by rewrite blanks_rest, cells_rest.
Qed.

(** Under field names that differ, the value of a name is the value of
    the row in its column. *)
Lemma DictReader_row_column fieldnames row i key :
  NoDup fieldnames -> fieldnames !! i = Some key ->
  DictReader_row fieldnames row !! Some key = Some (column_value row i).
Proof.
  intros Hnd Hi. unfold DictReader_row, column_value.
  assert (NoDup (zip fieldnames row).*1) as Hnd'.
  { rewrite fst_zip_take. eapply sublist_NoDup; [exact Hnd|apply sublist_take]. }
  pose proof (lookup_lt_Some _ _ _ Hi) as Hlt.
  destruct (decide (length fieldnames < length row)) as [Hlong|Hshort].
  - rewrite lookup_insert_ne by done.
    destruct (lookup_lt_is_Some_2 row i) as [cell Hcell]; [lia|]. rewrite Hcell.
    apply cells_elem; [done|]. by eapply elem_of_zip_lookup.
  - destruct (row !! i) as [cell|] eqn:Hcell.
    + pose proof (lookup_lt_Some _ _ _ Hcell) as Hlt'.
      rewrite blanks_other.
      * apply cells_elem; [done|]. by eapply elem_of_zip_lookup.
      * intros Hin. apply list_elem_of_lookup in Hin as [j Hj].
        rewrite lookup_drop in Hj.
        pose proof (NoDup_lookup _ _ _ _ Hnd Hi Hj). lia.
    + apply lookup_ge_None in Hcell. apply blanks_key.
      apply list_elem_of_lookup. exists (i - length row).
      rewrite lookup_drop. rewrite <- Hi. f_equal. lia.
Qed.
End DictReader_facts.

(** ** The superchargers of Mexico *)

Lemma mexico_rows_cons row rest :
  mexico_rows (row :: rest) =
  country ← row_item row "Country";
  mexicoSuperchargers ← mexico_rows rest;
  Ok (if decide (country = Cell "Mexico") then row :: mexicoSuperchargers
      else mexicoSuperchargers).
Proof. reflexivity. Qed.

Lemma mexico_rows_filter reader :
  Forall (fun row : csv_row => is_Some (row !! Some "Country")) reader ->
  mexico_rows reader =
  Ok (filter (fun row : csv_row => row !! Some "Country" = Some (Cell "Mexico")) reader).
Proof.
  induction 1 as [|row rows [country Hc] _ IH]; [done|].
  rewrite mexico_rows_cons. unfold row_item. rewrite Hc. rsimpl. rewrite IH. rsimpl.
  f_equal. rewrite filter_cons, Hc.
  destruct (decide (country = Cell "Mexico")) as [->|Hne].
  - by rewrite decide_True.
  - rewrite decide_False; [done|]. congruence.
Qed.

Lemma filter_nonempty_nil (rows : list (list string)) :
  Forall (fun row => row = []) rows -> filter (fun row => row <> []) rows = [].
Proof.
  induction 1 as [|row rows -> _ IH]; [done|]. by rewrite filter_cons_False by auto.
Qed.

Lemma filter_nonempty_first (rows : list (list string)) :
  Exists (fun row => row <> []) rows ->
  exists row rest, row <> [] /\ filter (fun row => row <> []) rows = row :: rest.
Proof.
  induction 1 as [row rows Hrow|row rows _ (row' & rest & Hrow' & IH)].
  - exists row, (filter (fun row => row <> []) rows). by rewrite filter_cons_True.
  - destruct (decide (row = [])) as [->|Hne].
    + exists row', rest. by rewrite filter_cons_False by auto.
    + exists row, (filter (fun row => row <> []) rows). by rewrite filter_cons_True.
Qed.

Lemma getMexicoSuperchargerLocations_kept fieldnames rows :
  "Country" ∈ fieldnames ->
  getMexicoSuperchargerLocations (fieldnames :: rows) =
  Ok (filter (fun row : csv_row => row !! Some "Country" = Some (Cell "Mexico"))
        (DictReader (fieldnames :: rows))).
Proof.
  intros Hin. unfold getMexicoSuperchargerLocations. apply mexico_rows_filter.
  unfold DictReader. apply Forall_fmap, Forall_forall. intros row _.
  by apply DictReader_row_field.
Qed.

(** X19: when the first row of the file names a column [Country],
    [getMexicoSuperchargerLocations] raises nothing and returns the rows,
    in the order of the file, whose value there is ["Mexico"]: an empty
    line is no row, and a row too short to reach the column has [None]
    there and is left out.  When the field names differ the value is the
    cell of the row in that column.  Without the column the first row that
    is no empty line raises KeyError, and a file without such a row gives
    the empty list, as the empty file does. *)
Theorem getMexicoSuperchargerLocations_filters (fieldnames : list string)
    (rows : list (list string)) :
  ("Country" ∈ fieldnames ->
   getMexicoSuperchargerLocations (fieldnames :: rows) =
   Ok (filter (fun row : csv_row => row !! Some "Country" = Some (Cell "Mexico"))
         (DictReader (fieldnames :: rows)))) /\
  (forall i row, NoDup fieldnames -> fieldnames !! i = Some "Country" ->
     DictReader_row fieldnames row !! Some "Country" = Some (column_value row i)) /\
  ("Country" ∉ fieldnames -> Exists (fun row => row <> []) rows ->
   getMexicoSuperchargerLocations (fieldnames :: rows) = Raise KeyError) /\
  ("Country" ∉ fieldnames -> Forall (fun row => row = []) rows ->
   getMexicoSuperchargerLocations (fieldnames :: rows) = Ok []) /\
  getMexicoSuperchargerLocations [] = Ok [].
Proof.
  split; [apply getMexicoSuperchargerLocations_kept|].
  split; [intros i row; apply DictReader_row_column|].
  split; [|split; [|done]].
  - intros Hout Hrows. unfold getMexicoSuperchargerLocations, DictReader.
    destruct (filter_nonempty_first rows Hrows) as (row & rest & _ & ->).
    rewrite fmap_cons, mexico_rows_cons. unfold row_item.
    by rewrite DictReader_row_no_field.
  - intros _ Hrows. unfold getMexicoSuperchargerLocations, DictReader.
    by rewrite filter_nonempty_nil.
Qed.

Lemma getMexicoSuperchargerLocations_filters_witness :
  let fieldnames := ["Supercharger"; "City"; "State"; "Country"] in
  let rows := [["Pachuca Supercharger"; "Pachuca"; "Hidalgo"; "Mexico"];
               ["Fremont Supercharger"; "Fremont"; "California"; "USA"];
               [];
               ["Tula Supercharger"; "Tula"];
               ["Merida Supercharger"; "Merida"; "Yucatan"; "Mexico"]] in
  getMexicoSuperchargerLocations (fieldnames :: rows) =
  Ok (filter (fun row : csv_row => row !! Some "Country" = Some (Cell "Mexico"))
        (DictReader (fieldnames :: rows))).
Proof.
  intros fieldnames rows.
  apply (proj1 (getMexicoSuperchargerLocations_filters fieldnames rows)).
  apply (bool_decide_unpack _). vm_compute. exact I.
Defined.

(** The rows kept in the file above: the first and the last. *)
Example mexico_rows_kept :
  getMexicoSuperchargerLocations
    [["Supercharger"; "City"; "State"; "Country"];
     ["Pachuca Supercharger"; "Pachuca"; "Hidalgo"; "Mexico"];
     ["Fremont Supercharger"; "Fremont"; "California"; "USA"];
     [];
     ["Tula Supercharger"; "Tula"];
     ["Merida Supercharger"; "Merida"; "Yucatan"; "Mexico"]] =
  Ok [DictReader_row ["Supercharger"; "City"; "State"; "Country"]
        ["Pachuca Supercharger"; "Pachuca"; "Hidalgo"; "Mexico"];
      DictReader_row ["Supercharger"; "City"; "State"; "Country"]
        ["Merida Supercharger"; "Merida"; "Yucatan"; "Mexico"]].
Proof. vm_compute. reflexivity. Qed.

(** ** The edge file cleaned *)

Lemma replace_dot_facts s :
  has_dot (replace_dot s) = false /\
  String.length (replace_dot s) = String.length s /\
  (has_dot s = false -> replace_dot s = s).
Proof.
  induction s as [|c s (IH1 & IH2 & IH3)]; [done|]. simpl.
  destruct (decide (c = "."%char)) as [->|Hne].
  - split; [by rewrite IH1|]. split; [by rewrite IH2|].
    rewrite bool_decide_true by done. done.
  - rewrite !bool_decide_false by done. simpl.
    split; [done|]. split; [by rewrite IH2|]. intros H. by rewrite IH3.
Qed.

Lemma fmap_filter_zip {A B C} (P : A -> Prop) `{!forall x, Decision (P x)}
    (Q : A * B -> Prop) `{!forall item, Decision (Q item)}
    (f : A -> C) (g : A * B -> C) (l : list A) (k : list B) :
  length l = length k ->
  (forall a b, Q (a, b) <-> P a) ->
  (forall i a b, l !! i = Some a -> k !! i = Some b -> P a -> f a = g (a, b)) ->
  f <$> filter P l = g <$> filter Q (zip l k).
Proof.
  intros Hlen HPQ. revert k Hlen.
  induction l as [|a l IH]; intros [|b k] Hlen Hfg; simplify_eq/=; [done|].
  destruct (decide (P a)) as [Ha|Ha].
  - rewrite (filter_cons_True P) by done.
    rewrite (filter_cons_True Q) by by apply HPQ.
    rewrite !fmap_cons. f_equal; [by apply (Hfg 0)|].
    apply IH; [done|]. intros i a' b' Hi Hk. by apply (Hfg (S i)).
  - rewrite (filter_cons_False P) by done.
    rewrite (filter_cons_False Q) by by rewrite HPQ.
    apply IH; [done|]. intros i a' b' Hi Hk. by apply (Hfg (S i)).
Qed.

Lemma cleanIntramunicipal_row_cons headers row rest :
  cleanIntramunicipal_rows headers (row :: rest) =
  written ← cleanIntramunicipal_row headers row;
  rest' ← cleanIntramunicipal_rows headers rest;
  Ok (written :: rest').
Proof. reflexivity. Qed.

Section CleanRow.
Variables fieldnames row : list string.
Local Abbreviation headers := (filter (fun field => field <> "date") fieldnames).
Local Abbreviation d := (DictReader_row fieldnames row).
Local Abbreviation popped := (popped (DictReader_row fieldnames row)).

Lemma cleanIntramunicipal_row_cells from to :
  d !! Some "from" = Some (Cell from) -> d !! Some "to" = Some (Cell to) ->
  cleanIntramunicipal_row headers d =
  DictWriter_writerow headers (popped (replace_dot from) (replace_dot to)).
Proof.
  intros Hfrom Hto. unfold cleanIntramunicipal_row, row_item.
  rewrite Hfrom. rsimpl. cbn [field_replace_dot]. rsimpl.
  rewrite lookup_insert_ne by done. rewrite Hto. rsimpl.
  cbn [field_replace_dot]. rsimpl. reflexivity.
Qed.

Lemma popped_lookup from to key :
  key <> "date" ->
  popped from to !! Some key =
  if decide (key = "to") then Some (Cell to)
  else if decide (key = "from") then Some (Cell from)
  else d !! Some key.
Proof.
  intros Hdate. unfold popped. rewrite lookup_delete_ne by congruence.
  destruct (decide (key = "to")) as [->|Hto]; [by rewrite lookup_insert_eq|].
  rewrite lookup_insert_ne by congruence.
  destruct (decide (key = "from")) as [->|Hfrom]; [by rewrite lookup_insert_eq|].
  by rewrite lookup_insert_ne by congruence.
Qed.

Lemma popped_rest from to : popped from to !! None = d !! None.
Proof.
  unfold popped. rewrite lookup_delete_ne by done. by rewrite !lookup_insert_ne.
Qed.

(** A row as long as the field names is written cell by cell. *)
Lemma cleanIntramunicipal_row_full :
  NoDup fieldnames -> "from" ∈ fieldnames -> "to" ∈ fieldnames ->
  length row = length fieldnames ->
  cleanIntramunicipal_row headers d = Ok (cleaned_cells fieldnames row).
Proof.
  intros Hnd Hfrom Hto Hlen.
  apply list_elem_of_lookup in Hfrom as [i Hi].
  apply list_elem_of_lookup in Hto as [j Hj].
  destruct (lookup_lt_is_Some_2 row i) as [from Hcf].
  { rewrite Hlen. by eapply lookup_lt_Some. }
  destruct (lookup_lt_is_Some_2 row j) as [to Hct].
  { rewrite Hlen. by eapply lookup_lt_Some. }
  assert (forall n key, fieldnames !! n = Some key ->
            d !! Some key = Some (column_value row n)) as Hcolumn.
  { intros n key Hn. by apply DictReader_row_column. }
  rewrite (cleanIntramunicipal_row_cells from to).
  2:{ rewrite (Hcolumn i) by done. unfold column_value. by rewrite Hcf. }
  2:{ rewrite (Hcolumn j) by done. unfold column_value. by rewrite Hct. }
  unfold DictWriter_writerow. rewrite decide_True.
  - f_equal. unfold cleaned_cells.
    apply fmap_filter_zip; [done|done|].
    intros n key cell Hn Hcell Hdate. cbn [fst snd].
    rewrite popped_lookup by done.
    destruct (decide (key = "to")) as [->|Hne_to].
    { rewrite decide_True by auto.
      pose proof (NoDup_lookup _ _ _ _ Hnd Hn Hj) as ->. congruence. }
    destruct (decide (key = "from")) as [->|Hne_from].
    { rewrite decide_True by auto.
      pose proof (NoDup_lookup _ _ _ _ Hnd Hn Hi) as ->. congruence. }
    rewrite decide_False by (intros [?|?]; done).
    rewrite (Hcolumn n) by done. unfold column_value. by rewrite Hcell.
  - apply elem_of_subseteq. intros [key|] Hkey; apply elem_of_dom in Hkey as [v Hv].
    + apply elem_of_list_to_set, list_elem_of_fmap. exists key. split; [done|].
      apply list_elem_of_filter.
      destruct (decide (key = "date")) as [->|Hdate].
      { unfold popped in Hv. by rewrite lookup_delete_eq in Hv. }
      split; [done|]. rewrite popped_lookup in Hv by done.
      destruct (decide (key = "to")) as [->|_]; [by eapply list_elem_of_lookup_2|].
      destruct (decide (key = "from")) as [->|_]; [by eapply list_elem_of_lookup_2|].
      destruct (decide (key ∈ fieldnames)) as [|Hout]; [done|].
      by rewrite DictReader_row_no_field in Hv.
    + rewrite popped_rest in Hv.
      rewrite DictReader_row_rest, decide_False in Hv by lia. done.
Qed.

Lemma cleanIntramunicipal_row_KeyError :
  "from" ∉ fieldnames -> cleanIntramunicipal_row headers d = Raise KeyError.
Proof.
  intros Hout. unfold cleanIntramunicipal_row, row_item.
  by rewrite DictReader_row_no_field.
Qed.

Lemma cleanIntramunicipal_row_AttributeError i :
  NoDup fieldnames -> fieldnames !! i = Some "from" -> length row <= i ->
  cleanIntramunicipal_row headers d = Raise AttributeError.
Proof.
  intros Hnd Hi Hshort. unfold cleanIntramunicipal_row, row_item.
  rewrite (DictReader_row_column _ _ i) by done.
  unfold column_value. by rewrite (proj2 (lookup_ge_None row i)) by lia.
Qed.

Lemma cleanIntramunicipal_row_ValueError :
  "from" ∈ fieldnames -> "to" ∈ fieldnames -> length fieldnames < length row ->
  cleanIntramunicipal_row headers d = Raise ValueError.
Proof.
  intros Hfrom Hto Hlong.
  destruct (DictReader_row_long fieldnames row "from" Hlong Hfrom) as [from Hcf].
  destruct (DictReader_row_long fieldnames row "to" Hlong Hto) as [to Hct].
  rewrite (cleanIntramunicipal_row_cells from to) by done.
  unfold DictWriter_writerow. rewrite decide_False; [done|].
  intros Hsub. rewrite elem_of_subseteq in Hsub.
  specialize (Hsub None). rewrite elem_of_list_to_set, list_elem_of_fmap in Hsub.
  destruct Hsub as (key & Hkey & _); [|done].
  apply elem_of_dom. rewrite popped_rest.
  rewrite DictReader_row_rest, decide_True by done. by eexists.
Qed.
End CleanRow.

Lemma cleanIntramunicipal_rows_full fieldnames rows :
  NoDup fieldnames -> "from" ∈ fieldnames -> "to" ∈ fieldnames ->
  Forall (fun row => row = [] \/ length row = length fieldnames) rows ->
  cleanIntramunicipal_rows (filter (fun field => field <> "date") fieldnames)
    (DictReader_row fieldnames <$> filter (fun row => row <> []) rows) =
  Ok (cleaned_cells fieldnames <$> filter (fun row => row <> []) rows).
Proof.
  intros Hnd Hfrom Hto. induction 1 as [|row rows Hrow _ IH]; [done|].
  destruct (decide (row = [])) as [->|Hne].
  { by rewrite filter_cons_False by auto. }
  rewrite filter_cons_True by done. rewrite !fmap_cons, cleanIntramunicipal_row_cons.
  destruct Hrow as [?|Hlen]; [done|].
  rewrite cleanIntramunicipal_row_full by done. rsimpl. rewrite IH. by rsimpl.
Qed.

(** X20: [cleanIntramunicipal] on a file whose first row names the columns,
    all different and [from] and [to] among them, and whose other rows
    are empty lines or as long as the first: the file written has the
    field names but [date] and, for every row that is no empty line, its
    cells but the one of [date], the dots of [from] and [to] replaced by
    zeros; a code comes out without a dot, as long as it was, and
    unchanged when it had none.  The first row after the field names
    that is no empty line raises KeyError when there is no column [from],
    AttributeError when it is too short to reach that column, and
    ValueError in the writer when it is longer than the field names.  On
    the empty file the call raises TypeError. *)
Theorem cleanIntramunicipal_cleans (fieldnames : list string) (rows : list (list string)) :
  (NoDup fieldnames -> "from" ∈ fieldnames -> "to" ∈ fieldnames ->
   Forall (fun row => row = [] \/ length row = length fieldnames) rows ->
   cleanIntramunicipal (fieldnames :: rows) =
   Ok (filter (fun field => field <> "date") fieldnames ::
       (cleaned_cells fieldnames <$> filter (fun row => row <> []) rows))) /\
  (forall s, has_dot (replace_dot s) = false /\
     String.length (replace_dot s) = String.length s /\
     (has_dot s = false -> replace_dot s = s)) /\
  (forall row rest, rows = row :: rest -> row <> [] -> "from" ∉ fieldnames ->
     cleanIntramunicipal (fieldnames :: rows) = Raise KeyError) /\
  (forall row rest i, rows = row :: rest -> row <> [] ->
     NoDup fieldnames -> fieldnames !! i = Some "from" -> length row <= i ->
     cleanIntramunicipal (fieldnames :: rows) = Raise AttributeError) /\
  (forall row rest, rows = row :: rest ->
     "from" ∈ fieldnames -> "to" ∈ fieldnames -> length fieldnames < length row ->
     cleanIntramunicipal (fieldnames :: rows) = Raise ValueError) /\
  cleanIntramunicipal [] = Raise TypeError.
Proof.
  split; [|split; [apply replace_dot_facts|split; [|split; [|split; [|done]]]]].
  - intros Hnd Hfrom Hto Hrows. unfold cleanIntramunicipal. cbn [DictReader_fieldnames head].
    unfold DictReader. rewrite cleanIntramunicipal_rows_full by done. by rsimpl.
  - intros row rest -> Hne Hout. unfold cleanIntramunicipal. cbn [DictReader_fieldnames head].
    unfold DictReader. rewrite filter_cons_True by done.
    rewrite fmap_cons, cleanIntramunicipal_row_cons.
    by rewrite cleanIntramunicipal_row_KeyError.
  - intros row rest i -> Hne Hnd Hi Hshort.
    unfold cleanIntramunicipal. cbn [DictReader_fieldnames head].
    unfold DictReader. rewrite filter_cons_True by done.
    rewrite fmap_cons, cleanIntramunicipal_row_cons.
    by rewrite (cleanIntramunicipal_row_AttributeError _ _ i).
  - intros row rest -> Hfrom Hto Hlong.
    unfold cleanIntramunicipal. cbn [DictReader_fieldnames head].
    unfold DictReader. rewrite filter_cons_True.
    2:{ intros ->. simpl in Hlong. lia. }
    rewrite fmap_cons, cleanIntramunicipal_row_cons.
    by rewrite cleanIntramunicipal_row_ValueError.
Qed.

Lemma cleanIntramunicipal_cleans_witness :
  let fieldnames := ["from"; "to"; "distance"; "date"] in
  let rows := [["9.07"; "1.5033"; "14.2"; "2020-01-01"]; [];
               ["13048"; "13.51"; "3.3"; "2020-01-02"]] in
  cleanIntramunicipal (fieldnames :: rows) =
  Ok (filter (fun field => field <> "date") fieldnames ::
      (cleaned_cells fieldnames <$> filter (fun row => row <> []) rows)).
Proof.
  intros fieldnames rows.
  apply (proj1 (cleanIntramunicipal_cleans fieldnames rows)).
  - apply (bool_decide_unpack _). vm_compute. exact I.
  - apply (bool_decide_unpack _). vm_compute. exact I.
  - apply (bool_decide_unpack _). vm_compute. exact I.
  - apply (bool_decide_unpack _). vm_compute. exact I.
Defined.

(** The file written for the rows above. *)
Example cleaned_file :
  cleanIntramunicipal
    [["from"; "to"; "distance"; "date"];
     ["9.07"; "1.5033"; "14.2"; "2020-01-01"]; [];
     ["13048"; "13.51"; "3.3"; "2020-01-02"]] =
  Ok [["from"; "to"; "distance"];
      ["9007"; "105033"; "14.2"];
      ["13048"; "13051"; "3.3"]].
Proof. vm_compute. reflexivity. Qed.
